(** * ngx-deps-upgrade: the cli-command-docs upgradelet and its git adapter

    A shallow embedding of
      - [src/lib/utils/git-repo.ts]      (class [GitRepo])
      - [src/lib/aio/upgrade-cli-src.ts] (class [Upgradelet])
    together with the properties of the reconciliation engine.

    Conventions of the embedding.
      - A JavaScript string is a [string]: a sequence of code units, here
        restricted to the 8-bit range.
      - Everything outside the two classes (shelljs, the file system, the
        logger, the GitHub client, [JSON.parse]) is an oracle of the
        [World]: it answers each call from the history of the run so far.
      - A computation is a function from that history to its outcome
        (a thrown error or a value) and the events it emitted. *)

From Stdlib Require Import String Ascii List Bool NArith Arith Lia.
From Stdlib Require Import DecimalString DecimalN.
Import ListNotations.
Local Open Scope string_scope.
Local Open Scope list_scope.

Set Implicit Arguments.

(** String concatenation, kept apart from list concatenation. *)
Infix "+++" := String.append (right associativity, at level 60).

(* ===================================================================== *)
(** ** JavaScript strings and arrays *)
(* ===================================================================== *)

Module JS.

Definition LF : string := String (ascii_of_nat 10) EmptyString.
Definition DQUOTE : string := String (ascii_of_nat 34) EmptyString.

(** [s.startsWith(p)] *)
Definition startsWith (s p : string) : bool := String.prefix p s.

(** White space and line terminators of the 8-bit range:
    TAB, LF, VT, FF, CR, SP and NBSP. *)
Definition is_space (c : ascii) : bool :=
  let n := nat_of_ascii c in
  ((n =? 9) || (n =? 10) || (n =? 11) || (n =? 12) || (n =? 13)
   || (n =? 32) || (n =? 160))%nat.

Fixpoint trimStart (s : string) : string :=
  match s with
  | EmptyString => EmptyString
  | String c r => if is_space c then trimStart r else s
  end.

Fixpoint trimEnd (s : string) : string :=
  match s with
  | EmptyString => EmptyString
  | String c r =>
      match trimEnd r with
      | EmptyString => if is_space c then EmptyString else String c EmptyString
      | r' => String c r'
      end
  end.

(** [s.trim()] *)
Definition trim (s : string) : string := trimEnd (trimStart s).

(** [l.join(sep)] *)
Fixpoint join (sep : string) (l : list string) : string :=
  match l with
  | [] => ""
  | [x] => x
  | x :: r => x +++ sep +++ join sep r
  end.

(** [s.split('\n')]: the pieces between line feeds. *)
Fixpoint split_lf_aux (cur : string) (s : string) : list string :=
  match s with
  | EmptyString => [cur]
  | String c r =>
      if (nat_of_ascii c =? 10)%nat then cur :: split_lf_aux "" r
      else split_lf_aux (cur +++ String c "") r
  end.
Definition split_lf (s : string) : list string := split_lf_aux "" s.

(** [s.split(/\r?\n/)]: a separator is LF, or CR immediately followed by LF. *)
Fixpoint split_crlf_aux (cur : string) (s : string) : list string :=
  match s with
  | EmptyString => [cur]
  | String c r =>
      if (nat_of_ascii c =? 10)%nat then cur :: split_crlf_aux "" r
      else
        match r with
        | String c' r' =>
            if ((nat_of_ascii c =? 13) && (nat_of_ascii c' =? 10))%nat
            then cur :: split_crlf_aux "" r'
            else split_crlf_aux (cur +++ String c "") r
        | EmptyString => [cur +++ String c ""]
        end
  end.
Definition split_crlf (s : string) : list string := split_crlf_aux "" s.

(** [l.includes(x)] on an array of strings. *)
Definition includes (l : list string) (x : string) : bool :=
  existsb (String.eqb x) l.

(** [s.slice(0, n)] *)
Definition slice0 (n : nat) (s : string) : string := substring 0 n s.

(** A non-negative integer inside a template literal. *)
Definition of_number (n : N) : string := NilEmpty.string_of_uint (N.to_uint n).

(** [s.replace(new RegExp('^' + p), '')] for a pattern [p] without
    regular-expression metacharacters: a leading [p] is removed. *)
Fixpoint strip_prefix (p s : string) : string :=
  match p, s with
  | EmptyString, _ => s
  | String a p', String b s' =>
      if Ascii.eqb a b then
        (if String.prefix p' s' then strip_prefix p' s' else s)
      else s
  | String _ _, EmptyString => s
  end.

(** The syntax characters of a regular expression (the backslash, code 92,
    first); every other character of a pattern stands for itself. *)
Definition is_syntax_character (c : ascii) : bool :=
  existsb (Ascii.eqb c)
    (ascii_of_nat 92
     :: ["^"; "$"; "."; "*"; "+"; "?"; "("; ")"; "["; "]"; "{"; "}"; "|"]%char).

(** A pattern without syntax characters. *)
Fixpoint is_literal_pattern (p : string) : bool :=
  match p with
  | EmptyString => true
  | String c r => negb (is_syntax_character c) && is_literal_pattern r
  end.

(** *** [Map]: keys in insertion order; setting an existing key keeps
    its place and replaces its value. *)
Section JsMap.
Variable V : Type.
Definition Map := list (string * V).

Fixpoint map_set (k : string) (v : V) (m : Map) : Map :=
  match m with
  | [] => [(k, v)]
  | (k', v') :: r =>
      if String.eqb k k' then (k, v) :: r else (k', v') :: map_set k v r
  end.

(** [new Map(entries)] *)
Definition map_of_entries (entries : list (string * V)) : Map :=
  fold_left (fun m kv => map_set (fst kv) (snd kv) m) entries [].

Definition map_keys (m : Map) : list string := map fst m.
Definition map_values (m : Map) : list V := map snd m.

Fixpoint map_get (m : Map) (k : string) : option V :=
  match m with
  | [] => None
  | (k', v) :: r => if String.eqb k k' then Some v else map_get r k
  end.
End JsMap.

End JS.

(* ===================================================================== *)
(** ** Errors, events and the world *)
(* ===================================================================== *)

(** A thrown value: an [Error] object. *)
Record exn := Error { err_stack : string; err_message : string }.

(** The value of [sh.exec(cmd, {silent: true})]. *)
Record ExecOutput := mkExec { stdout : string; stderr : string; code : N }.

(** [GithubRepo] (of [../utils/github-repo]), as far as the upgradelet
    reads it. *)
Record GithubRepo := mkGithubRepo {
  owner : string; name : string; slug : string; url : string }.

Record IPullRequestSearchParams := mkSearch { head : string; state_param : string }.

Record IPullRequest := mkPr {
  number : N; html_url : string; title : string; state : string }.

Record IFile := mkFile { filename : string }.

Definition result (A : Type) : Type := (exn + A)%type.

(** One call to the outside, with its outcome. *)
Inductive Event : Type :=
| EPushd (flags dir : string) (r : result unit)
| EPopd (flags : string) (r : result unit)
| EExec (cmd : string) (r : result ExecOutput)
| ERm (flags path : string) (r : result unit)
| EMkdir (flags path : string) (r : result unit)
| EChmod (mode path : string) (r : result unit)
| ESed (flags pattern replacement file : string) (r : result unit)
| EWriteFile (path data : string) (r : result unit)
| ELogInfo (msg : string)
| ELogDebug (msg : string)
| ELogWarn (err : exn)
| EGetFileContents (repo : GithubRepo) (path ref : string) (r : result string)
| EGetLatestSha (repo : GithubRepo) (branch : string) (r : result string)
| EGetAffectedFiles (repo : GithubRepo) (sha1 sha2 : string) (r : result (list IFile))
| EGetPullRequests (repo : GithubRepo) (params : IPullRequestSearchParams)
    (r : result (list IPullRequest))
| ECreatePullRequest (repo : GithubRepo) (head base title : string)
    (r : result IPullRequest)
| EAddLabels (repo : GithubRepo) (pr : N) (labels : list string) (r : result unit)
| EComment (repo : GithubRepo) (pr : N) (text : string) (r : result unit)
| ECreateIssue (repo : GithubRepo) (title body : string) (r : result unit).

Definition History := list Event.

(** The collaborators. Each answer may depend on everything that
    happened before in the run. *)
Record World := mkWorld {
  sh_pushd : History -> string -> string -> result unit;
  sh_popd : History -> string -> result unit;
  sh_exec : History -> string -> result ExecOutput;
  sh_rm : History -> string -> string -> result unit;
  sh_mkdir : History -> string -> string -> result unit;
  sh_chmod : History -> string -> string -> result unit;
  sh_sed : History -> string -> string -> string -> string -> result unit;
  fs_writeFileSync : History -> string -> string -> result unit;
  gh_getFileContents : History -> GithubRepo -> string -> string -> result string;
  gh_getLatestSha : History -> GithubRepo -> string -> result string;
  gh_getAffectedFiles : History -> GithubRepo -> string -> string -> result (list IFile);
  gh_getPullRequests :
    History -> GithubRepo -> IPullRequestSearchParams -> result (list IPullRequest);
  gh_createPullRequest :
    History -> GithubRepo -> string -> string -> string -> result IPullRequest;
  gh_addLabels : History -> GithubRepo -> N -> list string -> result unit;
  gh_comment : History -> GithubRepo -> N -> string -> result unit;
  gh_createIssue : History -> GithubRepo -> string -> string -> result unit;
  (** [JSON.parse(text).scripts[key]]: throws, or the entry if any. *)
  json_scripts_entry : string -> string -> result (option string);
  (** [logger.getLogs()] *)
  logger_getLogs : History -> list string;
  (** the [stack] an [Error] created with this message gets *)
  js_stack : string -> string;
  (** [line.replace(new RegExp(source), '')] for a [source] that holds
      syntax characters after its leading [^]: the constructor throws, or
      the line comes back with the first match removed. *)
  js_replace_RegExp : string -> string -> result string
}.

(* ===================================================================== *)
(** ** Computations *)
(* ===================================================================== *)

Definition M (A : Type) : Type := History -> result A * list Event.

Definition ret {A} (a : A) : M A := fun _ => (inr a, []).

Definition throw {A} (e : exn) : M A := fun _ => (inl e, []).

Definition bind {A B} (m : M A) (f : A -> M B) : M B :=
  fun h =>
    match m h with
    | (inl e, es) => (inl e, es)
    | (inr a, es) => let (r, es') := f a (h ++ es) in (r, es ++ es')
    end.

(** [try { m } catch (err) { handler err }] *)
Definition try_catch {A} (m : M A) (handler : exn -> M A) : M A :=
  fun h =>
    match m h with
    | (inl e, es) => let (r, es') := handler e (h ++ es) in (r, es ++ es')
    | (inr a, es) => (inr a, es)
    end.

(** [try { m } finally { fin }]: an error of [fin] replaces the outcome. *)
Definition try_finally {A} (m : M A) (fin : M unit) : M A :=
  fun h =>
    let (r, es) := m h in
    let (rf, es') := fin (h ++ es) in
    (match rf with inl e => inl e | inr _ => r end, es ++ es').

(** A call to a collaborator. *)
Definition call {A} (oracle : History -> result A) (ev : result A -> Event) : M A :=
  fun h => (oracle h, [ev (oracle h)]).

(** A call that cannot fail (the logger). *)
Definition emit (e : Event) : M unit := fun _ => (inr tt, [e]).

Declare Scope m_scope.
Delimit Scope m_scope with M.
Notation "x <- m ;; k" := (bind m (fun x => k))
  (at level 61, m at next level, right associativity) : m_scope.
Notation "m ;; k" := (bind m (fun _ => k))
  (at level 61, right associativity) : m_scope.
Local Open Scope m_scope.

(** [l.forEach(f)] *)
Fixpoint forEach {A} (l : list A) (f : A -> M unit) : M unit :=
  match l with
  | [] => ret tt
  | x :: r => f x ;; forEach r f
  end.

(** [l.map(f)] for a callback that may throw: it stops at the first
    element on which [f] throws. *)
Fixpoint map_throwing {A B} (f : A -> result B) (l : list A) : result (list B) :=
  match l with
  | [] => inr []
  | x :: r =>
      match f x with
      | inl e => inl e
      | inr y =>
          match map_throwing f r with
          | inl e => inl e
          | inr ys => inr (y :: ys)
          end
      end
  end.

(** [await Promise.all(ps)]: every call has been started, in order; the
    results come back in that order; it rejects when one of them does
    (with the error of the first in the list, where several do). *)
Fixpoint promise_all {A} (ps : list (M A)) : M (list A) :=
  match ps with
  | [] => ret []
  | p :: ps' =>
      fun h =>
        let (r, es) := p h in
        let (rs, es') := promise_all ps' (h ++ es) in
        (match r, rs with
         | inl e, _ => inl e
         | inr _, inl e => inl e
         | inr a, inr l => inr (a :: l)
         end, es ++ es')
  end.

(* ===================================================================== *)
(** ** The collaborators as computations *)
(* ===================================================================== *)

Section Collaborators.
Variable W : World.

(** [new Error(msg)] *)
Definition newError (msg : string) : exn := Error (js_stack W msg) msg.

Definition logger_info (msg : string) : M unit := emit (ELogInfo msg).
Definition logger_debug (msg : string) : M unit := emit (ELogDebug msg).
Definition logger_warn (err : exn) : M unit := emit (ELogWarn err).

Definition pushd (flags dir : string) : M unit :=
  call (fun h => sh_pushd W h flags dir) (EPushd flags dir).
Definition popd (flags : string) : M unit :=
  call (fun h => sh_popd W h flags) (EPopd flags).
Definition exec (cmd : string) : M ExecOutput :=
  call (fun h => sh_exec W h cmd) (EExec cmd).
Definition rm (flags path : string) : M unit :=
  call (fun h => sh_rm W h flags path) (ERm flags path).
Definition mkdir (flags path : string) : M unit :=
  call (fun h => sh_mkdir W h flags path) (EMkdir flags path).
Definition chmod (mode path : string) : M unit :=
  call (fun h => sh_chmod W h mode path) (EChmod mode path).
Definition sed (flags pattern replacement file : string) : M unit :=
  call (fun h => sh_sed W h flags pattern replacement file)
       (ESed flags pattern replacement file).
Definition writeFileSync (path data : string) : M unit :=
  call (fun h => fs_writeFileSync W h path data) (EWriteFile path data).

Definition getFileContents (repo : GithubRepo) (path ref : string) : M string :=
  call (fun h => gh_getFileContents W h repo path ref) (EGetFileContents repo path ref).
Definition getLatestSha (repo : GithubRepo) (branch : string) : M string :=
  call (fun h => gh_getLatestSha W h repo branch) (EGetLatestSha repo branch).
Definition getAffectedFiles (repo : GithubRepo) (sha1 sha2 : string) : M (list IFile) :=
  call (fun h => gh_getAffectedFiles W h repo sha1 sha2) (EGetAffectedFiles repo sha1 sha2).
Definition getPullRequests (repo : GithubRepo) (params : IPullRequestSearchParams)
  : M (list IPullRequest) :=
  call (fun h => gh_getPullRequests W h repo params) (EGetPullRequests repo params).
Definition createPullRequest (repo : GithubRepo) (head base title : string)
  : M IPullRequest :=
  call (fun h => gh_createPullRequest W h repo head base title)
       (ECreatePullRequest repo head base title).
Definition addLabels (repo : GithubRepo) (pr : N) (labels : list string) : M unit :=
  call (fun h => gh_addLabels W h repo pr labels) (EAddLabels repo pr labels).
Definition comment (repo : GithubRepo) (pr : N) (text : string) : M unit :=
  call (fun h => gh_comment W h repo pr text) (EComment repo pr text).
Definition createIssue (repo : GithubRepo) (title body : string) : M unit :=
  call (fun h => gh_createIssue W h repo title body) (ECreateIssue repo title body).

End Collaborators.

(* ===================================================================== *)
(** ** [git-repo.ts] *)
(* ===================================================================== *)

(** A value of [ICommnandOptions]: [boolean | string | string[]]. *)
Inductive OptValue : Type :=
| OBool (b : bool)
| OStr (s : string)
| OArr (l : list string).

(** An option object: its own keys in insertion order (the keys are
    option names, never array indices). *)
Definition ICommnandOptions := list (string * OptValue).

(** [{...opts, key: v}] *)
Fixpoint obj_set (key : string) (v : OptValue) (o : ICommnandOptions)
  : ICommnandOptions :=
  match o with
  | [] => [(key, v)]
  | (k', v') :: r =>
      if String.eqb key k' then (key, v) :: r else (k', v') :: obj_set key v r
  end.

(** An optional argument of an overloaded method: a string, an option
    object, or left out. *)
Inductive Arg : Type :=
| AStr (s : string)
| AOpts (o : ICommnandOptions)
| AUndef.

Definition as_opts (a : Arg) : option ICommnandOptions :=
  match a with AOpts o => Some o | _ => None end.

Module GitRepo.

Definition ORIGIN : string := "origin".
Definition UPSTREAM : string := "upstream".

(** The instance: its directory and the private [destroyed] flag (the
    logger is the one of the world; the [name] field, [basename] of the
    directory, is read by nobody here). *)
Record t := mk { directory : string; destroyed : bool }.

(** [new GitRepo(logger, directory)] *)
Definition new (directory : string) : t := mk directory false.

Definition option_name (key : string) : string :=
  if (String.length key =? 1)%nat then "-" +++ key else "--" +++ key.

Definition render_option (kv : string * OptValue) : string :=
  let name := option_name (fst kv) in
  let values :=
    match snd kv with
    | OBool true => [""]
    | OBool false => ["false"]
    | OStr s => [s]
    | OArr l => l
    end in
  JS.join " " (map (fun value => JS.trim (name +++ " " +++ value)) values).

Definition is_false (v : OptValue) : bool :=
  match v with OBool false => true | _ => false end.

Definition withOptions (cmd : string) (opts : option ICommnandOptions) : string :=
  match opts with
  | None => cmd
  | Some o =>
      let optsStr :=
        JS.join " " (map render_option
                       (filter (fun kv => negb (is_false (snd kv))) o)) in
      if String.eqb optsStr "" then cmd else cmd +++ " " +++ optsStr
  end.

Section Methods.
Variable W : World.

Definition execInRepo (this : t) (partialCmd : string)
  (opts : option ICommnandOptions) : M ExecOutput :=
  if destroyed this then throw (newError W "Repository already destroyed.")
  else
    try_finally
      (pushd W "-q" (directory this) ;;
       let cmd := withOptions (JS.trim partialCmd) opts in
       logger_debug ("GIT: " +++ cmd) ;;
       result <- exec W cmd ;;
       forEach
         (filter (fun line => negb (String.eqb (JS.trim line) ""))
                 (JS.split_lf (stdout result)))
         (fun line => logger_debug ("GIT: " +++ line)) ;;
       ret result)
      (popd W "-q").

Definition currentBranch (this : t) : M string :=
  r <- execInRepo this "git rev-parse --abbrev-ref HEAD" None ;;
  ret (JS.trim (stdout r)).

Definition addRemote (this : t) (name url : string) : M unit :=
  execInRepo this ("git remote remove " +++ name +++ " || true") None ;;
  execInRepo this ("git remote add " +++ name +++ " " +++ url) None ;;
  ret tt.

Definition checkout (this : t) (ref : string) (opts : option ICommnandOptions)
  : M unit :=
  execInRepo this ("git checkout " +++ ref) opts ;; ret tt.

Definition commit (this : t) (msg : string) (opts : option ICommnandOptions)
  : M unit :=
  let quoted := map (fun m => JS.DQUOTE +++ m +++ JS.DQUOTE) (JS.split_crlf msg) in
  execInRepo this "git commit"
    (Some (obj_set "message" (OArr quoted)
             (match opts with Some o => o | None => [] end))) ;;
  ret tt.

Definition config (this : t) (key value : string) : M unit :=
  execInRepo this ("git config " +++ key +++ " " +++ value) None ;; ret tt.

Definition fetch (this : t) (remote : string) (branch : Arg)
  (opts : option ICommnandOptions) : M unit :=
  let '(branch, opts) :=
    match branch with
    | AStr b => (b, opts)
    | other => ("", as_opts other)
    end in
  execInRepo this ("git fetch " +++ remote +++ " " +++ branch) opts ;; ret tt.

Definition push (this : t) (remote : string) (localBranch remoteBranch : Arg)
  (opts : option ICommnandOptions) : M unit :=
  args <-
    match localBranch, remoteBranch with
    | AStr l, AStr r => ret (l, r, opts)
    | AStr l, other =>
        cur <- currentBranch this ;; ret (cur, l, as_opts other)
    | other, _ =>
        cur <- currentBranch this ;; ret (cur, cur, as_opts other)
    end ;;
  let '(localBranch, remoteBranch, opts) := args in
  execInRepo this
    ("git push " +++ remote +++ " " +++ localBranch +++ ":" +++ remoteBranch) opts ;;
  ret tt.

Definition deleteRemoteBranch (this : t) (remote branch : string)
  (opts : option ICommnandOptions) : M unit :=
  push this remote (AStr "") (AStr branch) None.

(** [line.replace(new RegExp(`^${prefix}`), '')]. The name is not escaped:
    a prefix of literal characters is removed where the line starts with
    it; what a prefix with syntax characters does is up to the regular
    expression it happens to be, if it is one. *)
Definition replace_leading (prefix line : string) : result string :=
  if JS.is_literal_pattern prefix then inr (JS.strip_prefix prefix line)
  else js_replace_RegExp W ("^" +++ prefix) line.

Definition getRemoteBranches (this : t) (remote : string) : M (list string) :=
  fetch this remote (AOpts [("depth", OStr "1"); ("no-tags", OBool true)]) None ;;
  r <- execInRepo this "git branch" (Some [("remote", OBool true)]) ;;
  let branchesOutput := stdout r in
  fun _ =>
    (map_throwing (fun line => replace_leading (remote +++ "/") line)
       (filter (fun line => JS.startsWith line (remote +++ "/"))
          (map JS.trim (JS.split_lf branchesOutput))),
     []).

Definition init (this : t) (opts : option ICommnandOptions) : M unit :=
  execInRepo this "git init" opts ;; ret tt.

(** [destroy()] returns the instance as it is afterwards. *)
Definition destroy (this : t) : M t :=
  if negb (destroyed this) then
    rm W "-rf" (directory this) ;;
    ret (mk (directory this) true)
  else ret this.

End Methods.
End GitRepo.

(* ===================================================================== *)
(** ** [upgrade-cli-src.ts] *)
(* ===================================================================== *)

(** What the upgradelet imports from [../utils/constants], the process
    environment, [os], [path] and the [GithubRepo] constructor. *)
Record Config := mkConfig {
  ng_upstreamOwner : string;
  ng_upstreamName : string;
  ng_originOwner : string;
  ng_defaultBranch : string;
  own_originOwner : string;
  own_originName : string;
  user_name : string;
  user_email : string;
  GH_TOKEN : string;
  (** [!!process.env.CI] *)
  env_CI : bool;
  (** [tmpdir()] *)
  os_tmpdir : string;
  (** [join(a, b)] *)
  path_join : string -> string -> string;
  (** the [slug] and [url] of the repository [owner/name] *)
  repo_slug : string -> string -> string;
  repo_url : string -> string -> string
}.

Module Upgradelet.

Record IUpgradeCheckResults := mkCheck {
  currentSha : string;
  latestSha : string;
  needsUpgrade : bool
}.

Definition CB_REPO_NAME : string := "cli-builds".
Definition AIO_PKG_PATH : string := "aio/package.json".
Definition AIO_SCRIPT_NAME : string := "extract-cli-command-docs".
(** [parse(__filename).name] of [upgrade-cli-src.ts] *)
Definition LOCAL_BRANCH_PREFIX : string := "upgrade-cli-src".
Definition COMMIT_MESSAGE_PREFIX : string :=
  "build(docs-infra): upgrade cli command docs sources to ".
Definition PR_LABELS : list string :=
  ["comp: build & ci"; "comp: docs-infra"; "PR action: review"; "PR target: TBD"].

(** [[\da-f]] *)
Definition is_hex (c : ascii) : bool :=
  let n := nat_of_ascii c in
  (((48 <=? n) && (n <=? 57)) || ((97 <=? n) && (n <=? 102)))%nat.

Fixpoint all_hex (s : string) : bool :=
  match s with
  | EmptyString => true
  | String c r => is_hex c && all_hex r
  end.

(** The longest run of [\S] at the front of [s], and what follows it. *)
Fixpoint span_non_space (s : string) : string * string :=
  match s with
  | EmptyString => ("", "")
  | String c r =>
      if JS.is_space c then ("", s)
      else let (w, rest) := span_non_space r in (String c w, rest)
  end.

(** [AIO_SCRIPT_RE.exec(s)], group 1, for [/^node \S+ ([\da-f]+)$/].
    The run of [\S] cannot give back characters (the next one must be a
    space), so the match, if any, is the one below. *)
Definition AIO_SCRIPT_RE_exec (s : string) : option string :=
  if JS.startsWith s "node " then
    match span_non_space (substring 5 (String.length s - 5) s) with
    | (String _ _, String sp sha) =>
        if ((nat_of_ascii sp =? 32)%nat
            && negb (String.eqb sha "") && all_hex sha)%bool
        then Some sha else None
    | _ => None
    end
  else None.

Definition shasMatch (sha1 sha2 : string) : bool :=
  JS.startsWith sha1 sha2 || JS.startsWith sha2 sha1.

Definition stringifyError (err : exn) : string :=
  if String.eqb (err_stack err) "" then err_message err else err_stack err.

Section Methods.
Variable cfg : Config.
Variable W : World.

Definition new_GithubRepo (owner name : string) : GithubRepo :=
  mkGithubRepo owner name (repo_slug cfg owner name) (repo_url cfg owner name).

Definition CREDENTIALS_PATH : string :=
  path_join cfg (os_tmpdir cfg) (".git-credentials--" +++ LOCAL_BRANCH_PREFIX).
Definition REPORT_ERRORS : bool := env_CI cfg.

Definition upstreamRepo : GithubRepo :=
  new_GithubRepo (ng_upstreamOwner cfg) (ng_upstreamName cfg).
Definition originRepo : GithubRepo :=
  new_GithubRepo (ng_originOwner cfg) (ng_upstreamName cfg).
Definition cliBuildsRepo : GithubRepo :=
  new_GithubRepo (ng_upstreamOwner cfg) CB_REPO_NAME.

Definition ignoreError {A} (fn : M A) : M unit :=
  try_catch (fn ;; ret tt) (fun err => logger_warn err).

Definition retrieveShaFromAio (branch : string) : M string :=
  let source := slug upstreamRepo +++ "/" +++ AIO_PKG_PATH +++ "#" +++ branch in
  logger_info ("  Extracting the current SHA for cli sources from '" +++ source +++ "'.") ;;
  pkgJson <- getFileContents W upstreamRepo AIO_PKG_PATH branch ;;
  cliSrcScript <- (fun _ => (json_scripts_entry W pkgJson AIO_SCRIPT_NAME, [])) ;;
  match cliSrcScript with
  | Some script =>
      match AIO_SCRIPT_RE_exec script with
      | Some sha => ret sha
      | None =>
          throw (newError W
            ("Unable to extract the SHA for cli sources from '" +++ source +++ "'."
             +++ JS.LF +++ "The '" +++ AIO_SCRIPT_NAME
             +++ "' script is missing or has unexpected format."))
      end
  | None =>
      throw (newError W
        ("Unable to extract the SHA for cli sources from '" +++ source +++ "'."
         +++ JS.LF +++ "The '" +++ AIO_SCRIPT_NAME
         +++ "' script is missing or has unexpected format."))
  end.

Definition retrieveShaFromCliBuilds (branch : string) : M string :=
  let source := slug cliBuildsRepo +++ "#" +++ branch in
  logger_info ("  Extracting the latest SHA for cli sources from '" +++ source +++ "'.") ;;
  cliSrcSha <- getLatestSha W cliBuildsRepo branch ;;
  if String.eqb cliSrcSha "" then
    throw (newError W
      ("Unable to extract the SHA for cli sources from '" +++ source +++ "'."
       +++ JS.LF +++ "The SHA is empty."))
  else ret (JS.slice0 9 cliSrcSha).

(** Lines 119-125 of [checkNeedsUpgrade]: the decision, once both Shas
    are known. *)
Definition checkNeedsUpgrade_decide (currentSha latestSha : string) : M bool :=
  let needsUpgrade := negb (shasMatch currentSha latestSha) in
  if needsUpgrade then
    affectedFiles <- getAffectedFiles W cliBuildsRepo currentSha latestSha ;;
    let didHelpChange :=
      existsb (fun file => JS.startsWith (filename file) "help/") affectedFiles in
    ret didHelpChange
  else ret needsUpgrade.

Definition checkNeedsUpgrade (branch : string) : M IUpgradeCheckResults :=
  currentSha <- retrieveShaFromAio branch ;;
  latestSha <- retrieveShaFromCliBuilds branch ;;
  needsUpgrade <- checkNeedsUpgrade_decide currentSha latestSha ;;
  ret (mkCheck currentSha latestSha needsUpgrade).

Definition cleanupObsoleteBranches (localRepo : GitRepo.t)
  (branches branchesWithOpenPrs : list string) : M unit :=
  let branchesWithoutOpenPrs :=
    filter (fun branch => negb (JS.includes branchesWithOpenPrs branch)) branches in
  forEach branchesWithoutOpenPrs
    (fun branch => GitRepo.deleteRemoteBranch W localRepo GitRepo.ORIGIN branch None).

Definition commentOnSupercededPrs (supercededPrs : list IPullRequest)
  (newPr : IPullRequest) : M unit :=
  let supercededComment := "Superceded by #" +++ JS.of_number (number newPr) +++ "." in
  promise_all
    (map (fun pr => comment W upstreamRepo (number pr) supercededComment)
         supercededPrs) ;;
  ret tt.

Definition commitAndPush (localRepo : GitRepo.t) (commitMsg : string) : M unit :=
  logger_info ("  Commiting changes and pushing to '" +++ GitRepo.ORIGIN +++ "'.") ;;
  GitRepo.commit W localRepo commitMsg (Some [("all", OBool true)]) ;;
  GitRepo.fetch W localRepo GitRepo.ORIGIN (AOpts [("unshallow", OBool true)]) None ;;
  GitRepo.push W localRepo GitRepo.ORIGIN (AOpts [("force", OBool true)]) AUndef None.

Definition createLocalBranch (localRepo : GitRepo.t) (localBranch branch : string)
  : M unit :=
  logger_info ("  Creating local branch '" +++ localBranch +++ "' from '"
               +++ slug upstreamRepo +++ "#" +++ branch +++ "'.") ;;
  GitRepo.fetch W localRepo GitRepo.UPSTREAM (AStr branch) (Some [("depth", OStr "1")]) ;;
  GitRepo.checkout W localRepo "FETCH_HEAD" (Some [("b", OStr localBranch)]).

(** The search for the head [owner:branch], in any state. *)
Definition searchParamsFor (branch : string) : IPullRequestSearchParams :=
  mkSearch (owner originRepo +++ ":" +++ branch) "all".

(** The entries pair [branches[i]] with [relevantPrsForBracnhes[i]]; both
    arrays have the same length, so this is their [combine]. *)
Definition getOpenPrsPerBranch (branches : list string)
  : M (JS.Map (list IPullRequest)) :=
  prsForBranches <-
    promise_all
      (map (fun searchParams => getPullRequests W upstreamRepo searchParams)
           (map searchParamsFor branches)) ;;
  let relevantPrsForBracnhes :=
    map (fun prsForBranch =>
           filter (fun pr => JS.startsWith (title pr) COMMIT_MESSAGE_PREFIX)
                  prsForBranch)
        prsForBranches in
  let entries :=
    filter (fun entry => (0 <? List.length (snd entry))%nat)
      (map (fun bp => (fst bp, filter (fun pr => String.eqb (state pr) "open") (snd bp)))
           (combine branches relevantPrsForBracnhes)) in
  ret (JS.map_of_entries entries).

Definition initLocalRepo : M GitRepo.t :=
  let localRepoDir := path_join cfg (os_tmpdir cfg) (name originRepo) in
  logger_info ("  Initializing local '" +++ slug originRepo +++ "' copy in '"
               +++ localRepoDir +++ "'.") ;;
  rm W "-rf" localRepoDir ;;
  mkdir W "-p" localRepoDir ;;
  let localRepo := GitRepo.new localRepoDir in
  GitRepo.init W localRepo None ;;
  GitRepo.addRemote W localRepo GitRepo.ORIGIN (url originRepo) ;;
  GitRepo.addRemote W localRepo GitRepo.UPSTREAM (url upstreamRepo) ;;
  (if env_CI cfg then
     logger_info "  Configuring local git repo on CI (user.name, user.email, credentials)." ;;
     writeFileSync W CREDENTIALS_PATH ("https://" +++ GH_TOKEN cfg +++ ":@github.com") ;;
     chmod W "go-rwx" CREDENTIALS_PATH ;;
     GitRepo.config W localRepo "credential.helper"
       (JS.DQUOTE +++ "store --file=" +++ CREDENTIALS_PATH +++ JS.DQUOTE) ;;
     GitRepo.config W localRepo "user.name" (JS.DQUOTE +++ user_name cfg +++ JS.DQUOTE) ;;
     GitRepo.config W localRepo "user.email" (JS.DQUOTE +++ user_email cfg +++ JS.DQUOTE)
   else ret tt) ;;
  ret localRepo.

Definition makeChanges (localRepo : GitRepo.t) (currentSha latestSha : string)
  : M unit :=
  logger_info ("  Changing '" +++ currentSha +++ "' to '" +++ latestSha +++ "' in '"
               +++ AIO_PKG_PATH +++ "'.") ;;
  sed W "-i" currentSha latestSha
    (path_join cfg (GitRepo.directory localRepo) AIO_PKG_PATH).

Definition reportError (action : string) (err : exn) : M unit :=
  if negb REPORT_ERRORS then ret tt
  else
    logger_info ("  Reporting error while " +++ action +++ ".") ;;
    let codeBlock := fun header code : string =>
      "**" +++ header +++ ":**" +++ JS.LF +++ "```" +++ JS.LF +++ code +++ JS.LF
      +++ "```" +++ JS.LF in
    let title := "[" +++ LOCAL_BRANCH_PREFIX +++ "] Error while " +++ action in
    logs <- (fun h => (inr (logger_getLogs W h), [])) ;;
    let body :=
      codeBlock "Error" (stringifyError err) +++ JS.LF +++ "##" +++ JS.LF
      +++ codeBlock "Logs" (JS.join JS.LF logs) in
    let thisRepo := new_GithubRepo (own_originOwner cfg) (own_originName cfg) in
    createIssue W thisRepo title body.

Definition submitPullRequest (originBranch upstreamBranch title : string)
  : M IPullRequest :=
  let src := slug originRepo +++ "#" +++ originBranch in
  let dst := slug upstreamRepo +++ "#" +++ upstreamBranch in
  logger_info ("  Submitting pull request from '" +++ src +++ "' to '" +++ dst +++ "'.") ;;
  let head := owner originRepo +++ ":" +++ originBranch in
  pr <- createPullRequest W upstreamRepo head upstreamBranch title ;;
  ignoreError (addLabels W upstreamRepo (number pr) PR_LABELS) ;;
  ret pr.

(** The name of the automation branch for [latestSha]. *)
Definition localBranchFor (branch latestSha : string) : string :=
  LOCAL_BRANCH_PREFIX +++ "--" +++ branch +++ "--" +++ latestSha.

Definition commitMsgSubjectFor (latestSha : string) : string :=
  COMMIT_MESSAGE_PREFIX +++ latestSha.

(** [Array.from(m.values()).reduce((aggr, prs) => aggr.concat(prs), [])] *)
Definition supercededPrsOf (openPrsPerBranch : JS.Map (list IPullRequest))
  : list IPullRequest :=
  fold_left (fun aggr prs => aggr ++ prs) (JS.map_values openPrsPerBranch) [].

Definition commitMsgFor (latestSha : string) (supercededPrs : list IPullRequest)
  : string :=
  JS.trim (commitMsgSubjectFor latestSha +++ JS.LF +++ JS.LF
           +++ JS.join JS.LF
                 (map (fun pr => "Closes #" +++ JS.of_number (number pr)) supercededPrs)).

(** The [{branch = REPO_INFO.ng.defaultBranch}] parameter. *)
Definition branchArg (branch : option string) : string :=
  match branch with Some b => b | None => ng_defaultBranch cfg end.

(** Lines 81-98 of [checkAndUpgrade]: make the changes, submit the pull
    request, comment on the superceded ones, clean up locally. *)
Definition checkAndUpgrade_submit (localRepo : GitRepo.t)
  (branch currentSha latestSha : string)
  (openPrsPerBranch : JS.Map (list IPullRequest)) : M unit :=
  let localBranch := localBranchFor branch latestSha in
  let commitMsgSubject := commitMsgSubjectFor latestSha in
  (* Make changes. *)
  createLocalBranch localRepo localBranch branch ;;
  makeChanges localRepo currentSha latestSha ;;
  (* Submit PR. *)
  let supercededPrs := supercededPrsOf openPrsPerBranch in
  let commitMsg := commitMsgFor latestSha supercededPrs in
  commitAndPush localRepo commitMsg ;;
  newPr <- submitPullRequest localBranch branch commitMsgSubject ;;
  (* Comment on superceded PRs. (Do not close them, in case the latest SHA
     is broken.) *)
  ignoreError (commentOnSupercededPrs supercededPrs newPr) ;;
  (* Perform local clean-up. *)
  ignoreError (GitRepo.destroy W localRepo) ;;
  logger_info ("Upgrade completed successfully \o/ | PR: #"
               +++ JS.of_number (number newPr) +++ " (" +++ html_url newPr +++ ")").

(** Lines 73-98 of [checkAndUpgrade]: stop if a PR for [latestSha]
    exists, else submit one. *)
Definition checkAndUpgrade_checkExisting (localRepo : GitRepo.t)
  (branch currentSha latestSha : string)
  (openPrsPerBranch : JS.Map (list IPullRequest)) : M unit :=
  let localBranch := localBranchFor branch latestSha in
  let relevantBranchesWithOpenPrs := JS.map_keys openPrsPerBranch in
  (* Check if PR for [latestSha] already exists. *)
  if JS.includes relevantBranchesWithOpenPrs localBranch then
    let existingPrs :=
      match JS.map_get openPrsPerBranch localBranch with
      | Some prs => prs
      | None => []
      end in
    let existingPrsStr :=
      JS.join JS.LF
        (map (fun pr => "  #" +++ JS.of_number (number pr) +++ " ("
                        +++ html_url pr +++ ")") existingPrs) in
    logger_info ("PR for latest SHA (" +++ latestSha +++ ") already exists:"
                 +++ JS.LF +++ existingPrsStr)
  else
    checkAndUpgrade_submit localRepo branch currentSha latestSha openPrsPerBranch.

(** Lines 69-98 of [checkAndUpgrade]: clean up the obsolete branches,
    then go on with the check above. *)
Definition checkAndUpgrade_reconcile (localRepo : GitRepo.t)
  (branch currentSha latestSha : string) (relevantBranches : list string)
  (openPrsPerBranch : JS.Map (list IPullRequest)) : M unit :=
  let relevantBranchesWithOpenPrs := JS.map_keys openPrsPerBranch in
  cleanupObsoleteBranches localRepo relevantBranches relevantBranchesWithOpenPrs ;;
  checkAndUpgrade_checkExisting localRepo branch currentSha latestSha
    openPrsPerBranch.

(** Lines 99-103 of [checkAndUpgrade]: the [catch] block. *)
Definition checkAndUpgrade_catch (err : exn) : M unit :=
  ignoreError (rm W "-f" CREDENTIALS_PATH) ;;
  ignoreError (reportError "checking and upgrading" err) ;;
  throw err.

Definition checkAndUpgrade (branch : option string) : M unit :=
  let branch := branchArg branch in
  try_catch
    (logger_info "Checking and upgrading cli command docs sources for angular.io." ;;
     res <- checkNeedsUpgrade branch ;;
     let currentSha := currentSha res in
     let latestSha := latestSha res in
     if negb (needsUpgrade res) then
       let reason :=
         if shasMatch currentSha latestSha
         then "Already using the latest SHA (" +++ currentSha +++ ")."
         else "No 'help/**' files changed between " +++ currentSha +++ " and "
              +++ latestSha +++ "." in
       logger_info ("No upgrade needed. " +++ reason)
     else
       logger_info ("Upgrade needed: " +++ currentSha +++ " --> " +++ latestSha) ;;
       localRepo <- initLocalRepo ;;
       (* Update/Clean up old PRs. *)
       branches <- GitRepo.getRemoteBranches W localRepo GitRepo.ORIGIN ;;
       let relevantBranches :=
         filter (fun branchName => JS.startsWith branchName LOCAL_BRANCH_PREFIX)
                branches in
       openPrsPerBranch <- getOpenPrsPerBranch relevantBranches ;;
       checkAndUpgrade_reconcile localRepo branch currentSha latestSha
         relevantBranches openPrsPerBranch)
    checkAndUpgrade_catch.

Definition checkOnly (branch : option string) : M bool :=
  let branch := branchArg branch in
  try_catch
    (logger_info "Checking cli command docs sources for angular.io." ;;
     res <- checkNeedsUpgrade branch ;;
     ret (negb (needsUpgrade res)))
    (fun err =>
       ignoreError (reportError "checking only" err) ;;
       throw err).

End Methods.
End Upgradelet.

(* ===================================================================== *)
(** ** Vocabulary of the properties *)
(* ===================================================================== *)

(** The outcome of a method called on a destroyed [GitRepo]: the error is
    thrown and nothing has been executed. *)
Definition closed_outcome (W : World) (A : Type) : result A * list Event :=
  (inl (newError W "Repository already destroyed."), []).

(** An outcome reached after the events [pre]. *)
Definition after {A} (pre : list Event) (x : result A * list Event)
  : result A * list Event :=
  (fst x, pre ++ snd x).

(** Every event a computation emits, from whatever history, satisfies [P]. *)
Definition emits {A} (P : Event -> Prop) (m : M A) : Prop :=
  forall h, Forall P (snd (m h)).

(** The first word of a command line. *)
Fixpoint first_word (s : string) : string :=
  match s with
  | EmptyString => ""
  | String c r => if JS.is_space c then "" else String c (first_word r)
  end.

(** The git subcommand of [git <verb> ...]; empty for anything else. *)
Definition git_verb (cmd : string) : string :=
  match cmd with
  | String g (String i (String t (String sp rest))) =>
      if String.eqb (String g (String i (String t (String sp "")))) "git "
      then first_word rest else ""
  | _ => ""
  end.

(** The commands executed, in order. *)
Definition exec_cmds (es : list Event) : list string :=
  flat_map (fun e => match e with EExec cmd _ => [cmd] | _ => [] end) es.

(** New work: a branch is created ([git checkout]), the tracked file is
    changed ([sed]), a commit is made, something is pushed, a pull request
    is created. *)
Definition is_new_work (e : Event) : bool :=
  match e with
  | EExec cmd _ =>
      String.eqb (git_verb cmd) "checkout" || String.eqb (git_verb cmd) "commit"
      || String.eqb (git_verb cmd) "push"
  | ESed _ _ _ _ _ => true
  | ECreatePullRequest _ _ _ _ _ => true
  | _ => false
  end.

(** The report of the duplicate check (line 77). *)
Definition is_existing_pr_report (e : Event) : bool :=
  match e with
  | ELogInfo msg => JS.startsWith msg "PR for latest SHA ("
  | _ => false
  end.

(** A call that changes something in the hosting system. *)
Definition is_hosting_write (e : Event) : bool :=
  match e with
  | ECreatePullRequest _ _ _ _ _ | EAddLabels _ _ _ _ | EComment _ _ _ _
  | ECreateIssue _ _ _ _ => true
  | _ => false
  end.

(** The file-diff query. *)
Definition is_affected_files_query (e : Event) : bool :=
  match e with
  | EGetAffectedFiles _ _ _ _ => true
  | _ => false
  end.

(** Whether a file is under the watched path. *)
Definition is_help_file (file : IFile) : bool :=
  JS.startsWith (filename file) "help/".


(** What running one git command in the repository emits besides the
    command itself: the directory changes and the debug log. *)
Definition is_bookkeeping (e : Event) : bool :=
  match e with
  | EPushd _ _ _ | EPopd _ _ | ELogDebug _ => true
  | _ => false
  end.

(** The events of the preparation (lines 46-68): logs, reads from the
    hosting system, the set-up of the working copy, and the git commands
    [init], [remote], [config], [fetch] and [branch]. *)
Definition is_preparation (e : Event) : bool :=
  match e with
  | EExec cmd _ =>
      existsb (String.eqb (git_verb cmd)) ["init"; "remote"; "config"; "fetch"; "branch"]
  | EPushd _ _ _ | EPopd _ _ | ELogDebug _ => true
  | ELogInfo msg => negb (JS.startsWith msg "PR for latest SHA (")
  | ERm _ _ _ | EMkdir _ _ _ | EChmod _ _ _ | EWriteFile _ _ _ => true
  | EGetFileContents _ _ _ _ | EGetLatestSha _ _ _ | EGetAffectedFiles _ _ _ _
  | EGetPullRequests _ _ _ => true
  | _ => false
  end.

(** The events of the [catch] block: removal of the credentials file,
    warnings, the error report. *)
Definition is_error_handling (e : Event) : bool :=
  match e with
  | ERm _ _ _ | ELogWarn _ | ECreateIssue _ _ _ _ => true
  | ELogInfo msg => JS.startsWith msg "  Reporting error while "
  | _ => false
  end.

(** The command that deletes [branch] on origin. *)
Definition deleteCmd (branch : string) : string := "git push origin :" +++ branch.

(** The branches [cleanupObsoleteBranches] deletes. *)
Definition branchesWithoutOpenPrs (branches branchesWithOpenPrs : list string)
  : list string :=
  filter (fun branch => negb (JS.includes branchesWithOpenPrs branch)) branches.

(** The open relevant pull requests among those reported for a branch. *)
Definition openRelevantPrs (prsForBranch : list IPullRequest) : list IPullRequest :=
  filter (fun pr => String.eqb (state pr) "open")
    (filter (fun pr => JS.startsWith (title pr) Upgradelet.COMMIT_MESSAGE_PREFIX)
       prsForBranch).

(** The entries of the branch-to-open-PR map, from the branches and what
    the hosting system reported for each: the branches that have an open
    relevant pull request, with these. *)
Definition openPrEntries (branches : list string)
  (prsForBranches : list (list IPullRequest)) : list (string * list IPullRequest) :=
  filter (fun entry => (0 <? List.length (snd entry))%nat)
    (map (fun bp => (fst bp, openRelevantPrs (snd bp)))
       (combine branches prsForBranches)).

(** The queries for the pull requests of [branches], answered by
    [prsForBranches]. *)
Definition pullRequestQueries (cfg : Config) (branches : list string)
  (prsForBranches : list (list IPullRequest)) : list Event :=
  map (fun bp => EGetPullRequests (Upgradelet.upstreamRepo cfg)
                   (Upgradelet.searchParamsFor cfg (fst bp)) (inr (snd bp)))
    (combine branches prsForBranches).

(** The log line of line 77. *)
Definition existingPrsReport (latestSha : string) (existingPrs : list IPullRequest)
  : Event :=
  ELogInfo ("PR for latest SHA (" +++ latestSha +++ ") already exists:" +++ JS.LF
            +++ JS.join JS.LF
                  (map (fun pr => "  #" +++ JS.of_number (number pr) +++ " ("
                                  +++ html_url pr +++ ")") existingPrs)).

(** [l1] is [l2] with some elements left out. *)
Inductive sublist {A} : list A -> list A -> Prop :=
| sublist_nil : sublist [] []
| sublist_skip x l1 l2 : sublist l1 l2 -> sublist l1 (x :: l2)
| sublist_keep x l1 l2 : sublist l1 l2 -> sublist (x :: l1) (x :: l2).

(** The first two log lines of an upgrading run. *)
Definition startLog : Event :=
  ELogInfo "Checking and upgrading cli command docs sources for angular.io.".
Definition upgradeNeededLog (res : Upgradelet.IUpgradeCheckResults) : Event :=
  ELogInfo ("Upgrade needed: " +++ Upgradelet.currentSha res +++ " --> "
            +++ Upgradelet.latestSha res).

(** The run of [checkAndUpgrade] for [branch] from history [h] has come
    through lines 46-68: an upgrade is needed ([res]), the working copy
    [localRepo] is set up, origin lists the automation branches
    [relevantBranches], and [openPrsPerBranch] is the branch-to-open-PR
    map. [pre] is what has been emitted so far. *)
Definition discovered (cfg : Config) (W : World) (branch : string) (h : History)
  (res : Upgradelet.IUpgradeCheckResults) (localRepo : GitRepo.t)
  (relevantBranches : list string)
  (openPrsPerBranch : JS.Map (list IPullRequest)) (pre : list Event) : Prop :=
  exists es1 es2 branches es3 es4,
    Upgradelet.checkNeedsUpgrade cfg W branch (h ++ [startLog]) = (inr res, es1)
    /\ Upgradelet.needsUpgrade res = true
    /\ Upgradelet.initLocalRepo cfg W (h ++ startLog :: es1 ++ [upgradeNeededLog res])
       = (inr localRepo, es2)
    /\ GitRepo.getRemoteBranches W localRepo GitRepo.ORIGIN
         (h ++ startLog :: es1 ++ upgradeNeededLog res :: es2)
       = (inr branches, es3)
    /\ relevantBranches
       = filter (fun b => JS.startsWith b Upgradelet.LOCAL_BRANCH_PREFIX) branches
    /\ Upgradelet.getOpenPrsPerBranch cfg W relevantBranches
         (h ++ startLog :: es1 ++ upgradeNeededLog res :: es2 ++ es3)
       = (inr openPrsPerBranch, es4)
    /\ pre = startLog :: es1 ++ upgradeNeededLog res :: es2 ++ es3 ++ es4.

(** The run of [checkAndUpgrade] for [branch] from history [h] has come
    through line 89: after the discovery and the clean-up, no open pull
    request for [latestSha] was found, the change was made, committed and
    pushed, and the pull request [newPr] was created. [sofar] is what has
    been emitted so far. *)
Definition submitted (cfg : Config) (W : World) (branch : string) (h : History)
  (res : Upgradelet.IUpgradeCheckResults) (localRepo : GitRepo.t)
  (relevantBranches : list string)
  (openPrsPerBranch : JS.Map (list IPullRequest)) (newPr : IPullRequest)
  (sofar : list Event) : Prop :=
  let currentSha := Upgradelet.currentSha res in
  let latestSha := Upgradelet.latestSha res in
  let localBranch := Upgradelet.localBranchFor branch latestSha in
  exists pre dels es5 es6 es7 es8,
    discovered cfg W branch h res localRepo relevantBranches openPrsPerBranch pre
    /\ Upgradelet.cleanupObsoleteBranches W localRepo relevantBranches
         (JS.map_keys openPrsPerBranch) (h ++ pre) = (inr tt, dels)
    /\ JS.includes (JS.map_keys openPrsPerBranch) localBranch = false
    /\ Upgradelet.createLocalBranch cfg W localRepo localBranch branch
         (h ++ pre ++ dels) = (inr tt, es5)
    /\ Upgradelet.makeChanges cfg W localRepo currentSha latestSha
         (h ++ pre ++ dels ++ es5) = (inr tt, es6)
    /\ Upgradelet.commitAndPush W localRepo
         (Upgradelet.commitMsgFor latestSha
            (Upgradelet.supercededPrsOf openPrsPerBranch))
         (h ++ pre ++ dels ++ es5 ++ es6) = (inr tt, es7)
    /\ Upgradelet.submitPullRequest cfg W localBranch branch
         (Upgradelet.commitMsgSubjectFor latestSha)
         (h ++ pre ++ dels ++ es5 ++ es6 ++ es7) = (inr newPr, es8)
    /\ sofar = pre ++ dels ++ es5 ++ es6 ++ es7 ++ es8.

(** The comment left on a superceded pull request (line 136). *)
Definition supercededComment (newPr : IPullRequest) : string :=
  "Superceded by #" +++ JS.of_number (number newPr) +++ ".".


(** Every query for pull requests among [es], made after [h], carries
    what the hosting system answers at that moment. *)
Fixpoint queries_answered (W : World) (h : History) (es : list Event) : Prop :=
  match es with
  | [] => True
  | e :: rest =>
      match e with
      | EGetPullRequests repo params r => r = gh_getPullRequests W h repo params
      | _ => True
      end
      /\ queries_answered W (h ++ [e]) rest
  end.

(** The branch-to-open-PR map [openPrsPerBranch] was collected during
    [es], a part of a run from history [h]: the hosting system was asked
    for the pull requests of every one of [relevantBranches], in order,
    and the map was built from its answers. For branches listed once
    each, the map has the branches with an open relevant pull request, in
    the order of the list, each with its open relevant pull requests; so
    its values, one after the other, are the open relevant pull requests
    of all the answers. *)
Definition collected (cfg : Config) (W : World) (h : History)
  (relevantBranches : list string) (openPrsPerBranch : JS.Map (list IPullRequest))
  (es : list Event) : Prop :=
  exists prsForBranches before rest,
    List.length prsForBranches = List.length relevantBranches
    /\ es = before ++ pullRequestQueries cfg relevantBranches prsForBranches ++ rest
    /\ queries_answered W (h ++ before)
         (pullRequestQueries cfg relevantBranches prsForBranches)
    /\ openPrsPerBranch
       = JS.map_of_entries (openPrEntries relevantBranches prsForBranches)
    /\ (NoDup relevantBranches ->
        openPrsPerBranch = openPrEntries relevantBranches prsForBranches
        /\ concat (map snd openPrsPerBranch)
           = flat_map openRelevantPrs prsForBranches).

(** Every character of [s] satisfies [f]. *)
Fixpoint string_forall (f : ascii -> bool) (s : string) : bool :=
  match s with
  | EmptyString => true
  | String c r => f c && string_forall f r
  end.

Definition not_space (c : ascii) : bool := negb (JS.is_space c).

(** Neither LF nor CR. *)
Definition not_newline (c : ascii) : bool :=
  negb ((nat_of_ascii c =? 10)%nat || (nat_of_ascii c =? 13)%nat).



(** The command line of [commit(msg, {all: true})]. *)
Definition commitCmd (msg : string) : string :=
  GitRepo.withOptions "git commit"
    (Some [("all", OBool true);
           ("message",
            OArr (map (fun m => JS.DQUOTE +++ m +++ JS.DQUOTE) (JS.split_crlf msg)))]).



(** *** A concrete configuration and a family of concrete worlds *)

Definition sample_cfg : Config :=
  mkConfig "angular" "angular" "ngx-bot" "master" "gkalpak" "ngx-deps-upgrade"
    "bot" "bot@example.com" "token" false "/tmp"
    (fun a b => a +++ "/" +++ b)
    (fun o n => o +++ "/" +++ n)
    (fun o n => "https://github.com/" +++ o +++ "/" +++ n +++ ".git").

Definition ok_exec : ExecOutput := mkExec "" "" 0.

Definition sample_error (msg : string) : exn := Error "" msg.

(** A world in which
      - the tracked script is [node tools/extract.js aaa1111] and the tip
        of [cli-builds] is [bbb2222333444555];
      - [help/foo.md] changed in between;
      - origin has [master] and the branches of [prs], each with the pull
        requests listed for it;
      - the commands of [failing] fail, every other one succeeds;
      - commenting fails on the pull requests of [uncommentable]. *)
Definition sample_world (prs : list (string * list IPullRequest))
  (failing : list string) (uncommentable : list N) : World :=
  mkWorld
    (fun _ _ _ => inr tt)
    (fun _ _ => inr tt)
    (fun _ cmd =>
       if JS.includes failing cmd then inl (sample_error ("exec: " +++ cmd))
       else if String.eqb cmd "git branch --remote" then
         inr (mkExec
                (JS.join JS.LF
                   ("  origin/HEAD -> origin/master" :: "  origin/master"
                    :: map (fun bp => "  origin/" +++ fst bp) prs) +++ JS.LF)
                "" 0)
       else if String.eqb cmd "git rev-parse --abbrev-ref HEAD" then
         inr (mkExec ("upgrade-cli-src--master--bbb222233" +++ JS.LF) "" 0)
       else inr ok_exec)
    (fun _ _ _ => inr tt)
    (fun _ _ _ => inr tt)
    (fun _ _ _ => inr tt)
    (fun _ _ _ _ _ => inr tt)
    (fun _ _ _ => inr tt)
    (fun _ _ _ _ => inr "{ package.json }")
    (fun _ _ _ => inr "bbb2222333444555")
    (fun _ _ _ _ => inr [mkFile "README.md"; mkFile "help/foo.md"])
    (fun _ _ params =>
       inr (match JS.map_get prs (JS.strip_prefix "ngx-bot:" (head params)) with
            | Some l => l
            | None => []
            end))
    (fun _ _ _ _ title => inr (mkPr 11 "https://github.com/angular/angular/pull/11" title "open"))
    (fun _ _ _ _ => inr tt)
    (fun _ _ pr _ =>
       if existsb (N.eqb pr) uncommentable
       then inl (sample_error "comment rejected") else inr tt)
    (fun _ _ _ _ => inr tt)
    (fun _ _ => inr (Some "node tools/extract.js aaa1111"))
    (fun _ => [])
    (fun _ => "")
    (fun source _ => inl (sample_error ("Invalid regular expression: " +++ source))).

Definition sample_title : string :=
  "build(docs-infra): upgrade cli command docs sources to ccc3333".

(** Two stale automation branches: one with the open pull request #10
    (and a closed one), one without any. *)
Definition two_stale_branches : list (string * list IPullRequest) :=
  [("upgrade-cli-src--master--ccc3333",
    [mkPr 9 "https://github.com/angular/angular/pull/9" sample_title "closed";
     mkPr 10 "https://github.com/angular/angular/pull/10" sample_title "open"]);
   ("upgrade-cli-src--master--ddd4444", [])].

(** Two automation branches without any pull request. *)
Definition two_obsolete_branches : list (string * list IPullRequest) :=
  [("upgrade-cli-src--master--ccc3333", []);
   ("upgrade-cli-src--master--ddd4444", [])].


(** The automation branch for the latest Sha exists already, with the
    open pull request #12; another automation branch has none. *)
Definition latest_already_submitted : list (string * list IPullRequest) :=
  [("upgrade-cli-src--master--bbb222233",
    [mkPr 12 "https://github.com/angular/angular/pull/12"
       "build(docs-infra): upgrade cli command docs sources to bbb222233" "open"]);
   ("upgrade-cli-src--master--ddd4444", [])].


(* ===================================================================== *)
(** ** Vocabulary of the further properties *)
(* ===================================================================== *)

(** The flag of an option key: short for one character, long otherwise. *)
Definition flag (key : string) : string :=
  (if (String.length key =? 1)%nat then "-" else "--") +++ key.

(** A change of the working directory. *)
Definition is_dir_change (e : Event) : bool :=
  match e with
  | EPushd _ _ _ | EPopd _ _ => true
  | _ => false
  end.

(** The command that reads the current branch. *)
Definition revParseCmd : string := "git rev-parse --abbrev-ref HEAD".

(** The command line of a push of [localBranch] to [remoteBranch]. *)
Definition pushCmd (remote localBranch remoteBranch : string)
  (opts : option ICommnandOptions) : string :=
  GitRepo.withOptions
    (JS.trim ("git push " +++ remote +++ " " +++ localBranch +++ ":" +++ remoteBranch))
    opts.

(** The arguments were given as strings up to and including this one. *)
Definition is_string (a : Arg) : bool :=
  match a with AStr _ => true | _ => false end.

(** What [git branch --remote] prints for the branches [branches] of
    [remote]: one indented line each. *)
Fixpoint branchListing (remote : string) (branches : list string) : string :=
  match branches with
  | [] => ""
  | b :: r => "  " +++ remote +++ "/" +++ b +++ JS.LF +++ branchListing remote r
  end.



(** The message of the error thrown when no Sha can be extracted. *)
Definition is_extraction_failure (e : exn) : bool :=
  JS.startsWith (err_message e) "Unable to extract the SHA for cli sources from '".

(** The first log line of [checkOnly]. *)
Definition checkOnlyLog : Event :=
  ELogInfo "Checking cli command docs sources for angular.io.".

(** A log line or a read from the hosting system. *)
Definition is_read_or_log (e : Event) : bool :=
  match e with
  | ELogInfo _ | EGetFileContents _ _ _ _ | EGetLatestSha _ _ _
  | EGetAffectedFiles _ _ _ _ => true
  | _ => false
  end.

(** The repository of the tool itself, where errors are reported. *)
Definition ownRepo (cfg : Config) : GithubRepo :=
  Upgradelet.new_GithubRepo cfg (own_originOwner cfg) (own_originName cfg).

(** The body of the issue that reports [err] with the logs [logs]. *)
Definition issueBody (err : exn) (logs : list string) : string :=
  "**Error:**" +++ JS.LF +++ "```" +++ JS.LF
  +++ (if String.eqb (err_stack err) "" then err_message err else err_stack err)
  +++ JS.LF +++ "```" +++ JS.LF +++ JS.LF +++ "##" +++ JS.LF
  +++ "**Logs:**" +++ JS.LF +++ "```" +++ JS.LF +++ JS.join JS.LF logs
  +++ JS.LF +++ "```" +++ JS.LF.

(** A call that is allowed to fail: the call, and a warning if it did. *)
Definition attempted {A} (ev : result A -> Event) (x : result A) : list Event :=
  ev x :: match x with inl e => [ELogWarn e] | inr _ => [] end.

(** What the report of [err], raised while [action], emits from the
    history [h]: nothing off CI; on CI a log line and the attempt to
    create the issue. *)
Definition errorReport (cfg : Config) (W : World) (action : string) (err : exn)
  (h : History) : list Event :=
  if env_CI cfg then
    let info := ELogInfo ("  Reporting error while " +++ action +++ ".") in
    let title := "[upgrade-cli-src] Error while " +++ action in
    let body := issueBody err (logger_getLogs W (h ++ [info])) in
    info :: attempted (ECreateIssue (ownRepo cfg) title body)
              (gh_createIssue W (h ++ [info]) (ownRepo cfg) title body)
  else [].

(** The removal of the credentials file in the [catch] block, attempted
    from the history [h]. *)
Definition credentialsRemoval (cfg : Config) (W : World) (h : History) : list Event :=
  attempted (ERm "-f" (Upgradelet.CREDENTIALS_PATH cfg))
    (sh_rm W h "-f" (Upgradelet.CREDENTIALS_PATH cfg)).

(** Whenever [m] fails, it has written nothing to the hosting system: at
    most the creation of the pull request was attempted, and its failure
    is the error thrown. *)
Definition fails_quietly {A} (m : M A) : Prop :=
  forall h e es,
    m h = (inl e, es) ->
    Forall (fun ev =>
              is_hosting_write ev = true ->
              exists repo head base title,
                ev = ECreatePullRequest repo head base title (inl e)) es.

(** The log line of a run that finds nothing to do (lines 51-54). *)
Definition noUpgradeLog (res : Upgradelet.IUpgradeCheckResults) : Event :=
  ELogInfo
    ("No upgrade needed. "
     +++ (if Upgradelet.shasMatch (Upgradelet.currentSha res) (Upgradelet.latestSha res)
          then "Already using the latest SHA (" +++ Upgradelet.currentSha res +++ ")."
          else "No 'help/**' files changed between " +++ Upgradelet.currentSha res
               +++ " and " +++ Upgradelet.latestSha res +++ ".")).

(** What is done on CI only: the credentials file, the git identity,
    the error report. *)
Definition is_ci_only (e : Event) : bool :=
  match e with
  | EWriteFile _ _ _ | EChmod _ _ _ | ECreateIssue _ _ _ _ => true
  | EExec cmd _ => String.eqb (git_verb cmd) "config"
  | _ => false
  end.

(** [W] with the tracked script entry [script]. *)
Definition with_script (W : World) (script : option string) : World :=
  mkWorld (sh_pushd W) (sh_popd W) (sh_exec W) (sh_rm W) (sh_mkdir W) (sh_chmod W)
    (sh_sed W) (fs_writeFileSync W) (gh_getFileContents W) (gh_getLatestSha W)
    (gh_getAffectedFiles W) (gh_getPullRequests W) (gh_createPullRequest W)
    (gh_addLabels W) (gh_comment W) (gh_createIssue W)
    (fun _ _ => inr script) (logger_getLogs W) (js_stack W) (js_replace_RegExp W).

(** The sample configuration, on CI. *)
Definition ci_cfg : Config :=
  mkConfig (ng_upstreamOwner sample_cfg) (ng_upstreamName sample_cfg)
    (ng_originOwner sample_cfg) (ng_defaultBranch sample_cfg)
    (own_originOwner sample_cfg) (own_originName sample_cfg)
    (user_name sample_cfg) (user_email sample_cfg) (GH_TOKEN sample_cfg) true
    (os_tmpdir sample_cfg) (path_join sample_cfg) (repo_slug sample_cfg)
    (repo_url sample_cfg).

(** A comment on a pull request, or a warning. *)
Definition is_comment_or_warning (e : Event) : bool :=
  match e with
  | EComment _ _ _ _ | ELogWarn _ => true
  | _ => false
  end.

(** The last log line of a successful upgrade (line 98). *)
Definition successLog (newPr : IPullRequest) : Event :=
  ELogInfo ("Upgrade completed successfully \o/ | PR: #"
            +++ JS.of_number (number newPr) +++ " (" +++ html_url newPr +++ ")").


(** A [git push]. *)
Definition is_push (e : Event) : bool :=
  match e with
  | EExec cmd _ => String.eqb (git_verb cmd) "push"
  | _ => false
  end.

(** The two pushes of the upgradelet: the deletion of one of its own
    branches on origin, and the forced push of the current branch to the
    branch of the same name on origin. *)
Definition own_push (cmd : string) : Prop :=
  (exists b,
      JS.startsWith b Upgradelet.LOCAL_BRANCH_PREFIX = true /\ cmd = deleteCmd b)
  \/ (exists cur, cmd = pushCmd GitRepo.ORIGIN cur cur (Some [("force", OBool true)])).

Definition pushes_own (e : Event) : Prop :=
  match e with
  | EExec cmd _ => git_verb cmd = "push" -> own_push cmd
  | _ => True
  end.

(** A line of the debug log. *)
Definition is_debug (e : Event) : bool :=
  match e with ELogDebug _ => true | _ => false end.

(** The debug lines for the output [out] of a command: one for each line
    that is not blank. *)
Definition outputLog (out : string) : list Event :=
  map (fun line => ELogDebug ("GIT: " +++ line))
    (filter (fun line => negb (String.eqb (JS.trim line) "")) (JS.split_lf out)).

(* ===================================================================== *)
(** ** Facts about strings *)
(* ===================================================================== *)

Lemma append_empty_r (s : string) : s +++ "" = s.
Proof. induction s; simpl; congruence. Qed.

Lemma append_assoc (a b c : string) : (a +++ b) +++ c = a +++ b +++ c.
Proof. induction a; simpl; congruence. Qed.

Lemma prefix_append (p s : string) : String.prefix p (p +++ s) = true.
Proof.
  induction p as [|c p IH]; simpl.
  - now destruct s.
  - destruct (ascii_dec c c); [exact IH | congruence].
Qed.

Lemma prefix_refl (s : string) : String.prefix s s = true.
Proof. rewrite <- (append_empty_r s) at 2. apply prefix_append. Qed.

Lemma prefix_empty (s : string) : String.prefix "" s = true.
Proof. now destruct s. Qed.

Lemma prefix_split (p s : string) :
  String.prefix p s = true -> exists r, s = p +++ r.
Proof.
  revert s; induction p as [|c p IH]; intros s H.
  - exists s; reflexivity.
  - destruct s as [|d s]; simpl in H; [discriminate|].
    destruct (ascii_dec c d); [subst d | discriminate].
    destruct (IH _ H) as [r ->]. exists r; reflexivity.
Qed.

(* ===================================================================== *)
(** ** Running computations *)
(* ===================================================================== *)

Lemma after_nil {A} (x : result A * list Event) : after [] x = x.
Proof. now destruct x. Qed.

Lemma after_after {A} (a b : list Event) (x : result A * list Event) :
  after a (after b x) = after (a ++ b) x.
Proof. unfold after; simpl. now rewrite app_assoc. Qed.

Lemma after_pair {A} (pre : list Event) (r : result A) (es : list Event) :
  after pre (r, es) = (r, pre ++ es).
Proof. reflexivity. Qed.

Lemma bind_ok {A B} (m : M A) (f : A -> M B) h a es :
  m h = (inr a, es) -> bind m f h = after es (f a (h ++ es)).
Proof. intros E. unfold bind, after. rewrite E. now destruct (f a (h ++ es)). Qed.

Lemma bind_err {A B} (m : M A) (f : A -> M B) h e es :
  m h = (inl e, es) -> bind m f h = (inl e, es).
Proof. intros E. unfold bind. now rewrite E. Qed.

Lemma bind_inv {A B} (m : M A) (f : A -> M B) h r es :
  bind m f h = (r, es) ->
  (exists e, m h = (inl e, es) /\ r = inl e)
  \/ (exists a es1 es2,
        m h = (inr a, es1) /\ f a (h ++ es1) = (r, es2) /\ es = es1 ++ es2).
Proof.
  unfold bind. destruct (m h) as [[e|a] es1].
  - intros E; inversion E; subst. left; eauto.
  - destruct (f a (h ++ es1)) as [r' es2] eqn:F.
    intros E; inversion E; subst. right. exists a, es1, es2. auto.
Qed.

Lemma try_catch_ok {A} (m : M A) (k : exn -> M A) h a es :
  m h = (inr a, es) -> try_catch m k h = (inr a, es).
Proof. intros E. unfold try_catch. now rewrite E. Qed.

Lemma try_catch_err {A} (m : M A) (k : exn -> M A) h e es :
  m h = (inl e, es) -> try_catch m k h = after es (k e (h ++ es)).
Proof.
  intros E. unfold try_catch, after. rewrite E. now destruct (k e (h ++ es)).
Qed.

Lemma try_catch_bind_ok {A B} (m : M A) (f : A -> M B) (k : exn -> M B) h a es :
  m h = (inr a, es) ->
  try_catch (bind m f) k h = after es (try_catch (f a) k (h ++ es)).
Proof.
  intros E. unfold try_catch, bind, after. rewrite E.
  destruct (f a (h ++ es)) as [[e|b] es2]; simpl.
  - rewrite <- app_assoc. destruct (k e (h ++ es ++ es2)); simpl.
    now rewrite app_assoc.
  - reflexivity.
Qed.

Lemma try_catch_bind_err {A B} (m : M A) (f : A -> M B) (k : exn -> M B) h e es :
  m h = (inl e, es) ->
  try_catch (bind m f) k h = after es (k e (h ++ es)).
Proof. intros E. apply try_catch_err. now apply bind_err. Qed.

Lemma emit_run (e : Event) h : emit e h = (inr tt, [e]).
Proof. reflexivity. Qed.

(** *** What a computation emits *)

Lemma emits_ret {A} P (a : A) : emits P (ret a).
Proof. intros h; constructor. Qed.

Lemma emits_throw {A} P e : emits P (@throw A e).
Proof. intros h; constructor. Qed.

Lemma emits_pure {A} P (r : History -> result A) : emits P (fun h => (r h, [])).
Proof. intros h; constructor. Qed.

Lemma emits_emit P e : P e -> emits P (emit e).
Proof. intros H h; simpl; auto. Qed.

Lemma emits_call {A} P (o : History -> result A) ev :
  (forall r, P (ev r)) -> emits P (call o ev).
Proof. intros H h; simpl; auto. Qed.

Lemma emits_bind {A B} P (m : M A) (f : A -> M B) :
  emits P m -> (forall a, emits P (f a)) -> emits P (bind m f).
Proof.
  intros Hm Hf h. unfold bind. specialize (Hm h).
  destruct (m h) as [[e|a] es]; simpl in *; auto.
  specialize (Hf a (h ++ es)). destruct (f a (h ++ es)); simpl in *.
  apply Forall_app; auto.
Qed.

Lemma emits_try_catch {A} P (m : M A) (k : exn -> M A) :
  emits P m -> (forall e, emits P (k e)) -> emits P (try_catch m k).
Proof.
  intros Hm Hk h. unfold try_catch. specialize (Hm h).
  destruct (m h) as [[e|a] es]; simpl in *; auto.
  specialize (Hk e (h ++ es)). destruct (k e (h ++ es)); simpl in *.
  apply Forall_app; auto.
Qed.

Lemma emits_try_finally {A} P (m : M A) (fin : M unit) :
  emits P m -> emits P fin -> emits P (try_finally m fin).
Proof.
  intros Hm Hf h. unfold try_finally. specialize (Hm h).
  destruct (m h) as [r es]. specialize (Hf (h ++ es)).
  destruct (fin (h ++ es)); simpl in *. apply Forall_app; auto.
Qed.

Lemma emits_forEach {A} P (l : list A) (f : A -> M unit) :
  (forall x, In x l -> emits P (f x)) -> emits P (forEach l f).
Proof.
  induction l as [|x l IH]; intros H; simpl.
  - apply emits_ret.
  - apply emits_bind; [apply H; now left | intros _; apply IH].
    intros y Hy; apply H; now right.
Qed.

Lemma emits_promise_all {A} P (ps : list (M A)) :
  (forall p, In p ps -> emits P p) -> emits P (promise_all ps).
Proof.
  induction ps as [|p ps IH]; intros H; simpl.
  - apply emits_ret.
  - intros h. pose proof (H p (or_introl eq_refl) h) as Hp.
    destruct (p h) as [r es].
    assert (IH' : emits P (promise_all ps)) by (apply IH; intros q Hq; apply H; now right).
    specialize (IH' (h ++ es)). destruct (promise_all ps (h ++ es)); simpl in *.
    apply Forall_app; auto.
Qed.

Lemma emits_weaken {A} (P Q : Event -> Prop) (m : M A) :
  (forall e, P e -> Q e) -> emits P m -> emits Q m.
Proof. intros H Hm h. eapply Forall_impl; [exact H | apply Hm]. Qed.

Lemma emits_run {A} P (m : M A) h r es : emits P m -> m h = (r, es) -> Forall P es.
Proof. intros H E. specialize (H h). now rewrite E in H. Qed.

(* ===================================================================== *)
(** ** Trimming and command lines *)
(* ===================================================================== *)

Lemma trimEnd_cons_nonspace (c : ascii) (r : string) :
  JS.is_space c = false -> JS.trimEnd (String c r) = String c (JS.trimEnd r).
Proof. intros H. simpl. rewrite H. now destruct (JS.trimEnd r). Qed.

Lemma trimEnd_cons_nonempty (c : ascii) (r : string) :
  JS.trimEnd r <> "" -> JS.trimEnd (String c r) = String c (JS.trimEnd r).
Proof. intros H. simpl. destruct (JS.trimEnd r); congruence. Qed.

Lemma trimEnd_app (a b : string) :
  JS.trimEnd b <> "" -> JS.trimEnd (a +++ b) = a +++ JS.trimEnd b.
Proof.
  intros H. induction a as [|c a IH]; [reflexivity|].
  change (String c a +++ b) with (String c (a +++ b)).
  rewrite trimEnd_cons_nonempty; rewrite IH; [reflexivity|].
  destruct a; simpl; [exact H | discriminate].
Qed.

Lemma first_word_trimEnd (r : string) :
  first_word (JS.trimEnd r) = first_word r.
Proof.
  induction r as [|c r IH]; [reflexivity|].
  simpl. destruct (JS.is_space c) eqn:S.
  - destruct (JS.trimEnd r); simpl; now rewrite ?S.
  - replace (match JS.trimEnd r with
             | "" => String c ""
             | String a s => String c (String a s)
             end) with (String c (JS.trimEnd r)) by now destruct (JS.trimEnd r).
    simpl. now rewrite S, IH.
Qed.

Lemma first_word_app_space (r o : string) :
  first_word (r +++ String " " o) = first_word r.
Proof.
  induction r as [|c r IH]; [reflexivity|].
  simpl. now rewrite IH.
Qed.

(** A command line with a git verb reads [git <verb>...]. *)
Lemma git_verb_shape (s : string) :
  git_verb s <> "" ->
  exists c r, s = "git " +++ String c r /\ JS.is_space c = false
              /\ git_verb s = first_word (String c r).
Proof.
  destruct s as [|g [|i [|t [|sp rest]]]];
    try (intros H; exfalso; apply H; reflexivity).
  unfold git_verb.
  destruct (String.eqb_spec (String g (String i (String t (String sp "")))) "git ")
    as [E|E]; [|congruence].
  inversion E; subst. intros H.
  destruct rest as [|c r]; [simpl in H; congruence|].
  exists c, r. simpl in H. destruct (JS.is_space c) eqn:S; [congruence|]. auto.
Qed.

Lemma git_verb_trim (s : string) :
  git_verb s <> "" -> git_verb (JS.trim s) = git_verb s.
Proof.
  intros H. destruct (git_verb_shape s H) as (c & r & -> & Hc & Hv).
  unfold JS.trim. change (JS.trimStart ("git " +++ String c r))
    with ("git " +++ String c r).
  rewrite trimEnd_app.
  - change (git_verb ("git " +++ JS.trimEnd (String c r)))
      with (first_word (JS.trimEnd (String c r))).
    now rewrite first_word_trimEnd.
  - rewrite trimEnd_cons_nonspace by exact Hc. discriminate.
Qed.

Lemma git_verb_withOptions (s : string) (opts : option ICommnandOptions) :
  git_verb s <> "" -> git_verb (GitRepo.withOptions s opts) = git_verb s.
Proof.
  intros H. unfold GitRepo.withOptions. destruct opts as [o|]; [|reflexivity].
  match goal with |- context [if ?b then _ else _] => destruct b end;
    [reflexivity|].
  destruct (git_verb_shape s H) as (c & r & -> & Hc & Hv).
  rewrite append_assoc.
  change (git_verb ("git " +++ ?x)) with (first_word x).
  simpl. rewrite Hc. now rewrite first_word_app_space.
Qed.

(** The verb of the command [execInRepo] executes is that of the partial
    command it is given. *)
Lemma git_verb_execInRepo (partialCmd : string) (opts : option ICommnandOptions) :
  git_verb partialCmd <> "" ->
  git_verb (GitRepo.withOptions (JS.trim partialCmd) opts) = git_verb partialCmd.
Proof.
  intros H. rewrite git_verb_withOptions; rewrite git_verb_trim; auto.
Qed.

(** What [execInRepo] emits: bookkeeping, and the command. *)
Lemma execInRepo_emits (c : Event -> bool) (W : World) (this : GitRepo.t)
  (partialCmd : string) (opts : option ICommnandOptions) :
  (forall e, is_bookkeeping e = true -> c e = true) ->
  (forall r, c (EExec (GitRepo.withOptions (JS.trim partialCmd) opts) r) = true) ->
  emits (fun e => c e = true) (GitRepo.execInRepo W this partialCmd opts).
Proof.
  intros Hb Hc. unfold GitRepo.execInRepo.
  destruct (GitRepo.destroyed this); [apply emits_throw|].
  apply emits_try_finally.
  - apply emits_bind; [apply emits_call; intros; now apply Hb | intros _].
    apply emits_bind; [apply emits_emit; now apply Hb | intros _].
    apply emits_bind; [apply emits_call; exact Hc | intros res].
    apply emits_bind; [| intros _; apply emits_ret].
    apply emits_forEach. intros line _. apply emits_emit. now apply Hb.
  - apply emits_call; intros; now apply Hb.
Qed.

(* ===================================================================== *)
(** ** What each step of the upgradelet emits *)
(* ===================================================================== *)

Ltac eval_verb :=
  match goal with
  | |- context [git_verb ?p] =>
      let v := eval cbv in (git_verb p) in change (git_verb p) with v
  end.

Ltac verb_of_execInRepo :=
  rewrite git_verb_execInRepo by (eval_verb; discriminate); eval_verb.

Ltac emits_step :=
  first
    [ apply emits_ret
    | apply emits_throw
    | apply emits_pure
    | apply emits_bind; [| intros ?]
    | apply emits_try_catch; [| intros ?]
    | apply emits_try_finally
    | apply emits_call; intros ?
    | apply emits_emit
    | apply emits_forEach; intros ? ?
    | apply emits_promise_all; intros ? ?
    | apply execInRepo_emits;
      [ intros [] ?; solve [reflexivity | discriminate] | intros ? ]
    | match goal with |- emits _ (if ?b then _ else _) => destruct b end
    | match goal with |- emits _ (match ?x with _ => _ end) => destruct x end ].

Ltac unfold_git :=
  unfold GitRepo.init, GitRepo.addRemote, GitRepo.config, GitRepo.checkout,
    GitRepo.commit, GitRepo.getRemoteBranches, GitRepo.deleteRemoteBranch,
    GitRepo.push, GitRepo.currentBranch, GitRepo.fetch.

Ltac unfold_calls :=
  unfold logger_info, logger_debug, logger_warn, rm, mkdir, chmod, sed,
    writeFileSync, getFileContents, getLatestSha, getAffectedFiles,
    getPullRequests, createPullRequest, addLabels, comment, createIssue.

Lemma checkNeedsUpgrade_emits (cfg : Config) (W : World) (branch : string) :
  emits (fun e => is_preparation e = true) (Upgradelet.checkNeedsUpgrade cfg W branch).
Proof.
  unfold Upgradelet.checkNeedsUpgrade, Upgradelet.retrieveShaFromAio,
    Upgradelet.retrieveShaFromCliBuilds, Upgradelet.checkNeedsUpgrade_decide.
  unfold_calls.
  repeat emits_step; reflexivity.
Qed.

Lemma initLocalRepo_emits (cfg : Config) (W : World) :
  emits (fun e => is_preparation e = true) (Upgradelet.initLocalRepo cfg W).
Proof.
  unfold Upgradelet.initLocalRepo. unfold_git. unfold_calls.
  repeat emits_step; try reflexivity;
    unfold is_preparation; verb_of_execInRepo; reflexivity.
Qed.

Lemma getRemoteBranches_emits (W : World) (this : GitRepo.t) :
  emits (fun e => is_preparation e = true)
    (GitRepo.getRemoteBranches W this GitRepo.ORIGIN).
Proof.
  unfold_git. simpl.
  repeat emits_step; try reflexivity.
Qed.

Lemma getOpenPrsPerBranch_emits (cfg : Config) (W : World) (branches : list string) :
  emits (fun e => is_preparation e = true)
    (Upgradelet.getOpenPrsPerBranch cfg W branches).
Proof.
  unfold Upgradelet.getOpenPrsPerBranch.
  apply emits_bind; [| intros ?; apply emits_ret].
  apply emits_promise_all. intros p Hp.
  apply in_map_iff in Hp. destruct Hp as (params & <- & _).
  unfold_calls. apply emits_call. reflexivity.
Qed.

Lemma reportError_emits (cfg : Config) (W : World) (action : string) (err : exn) :
  emits (fun e => is_error_handling e = true)
    (Upgradelet.reportError cfg W action err).
Proof.
  unfold Upgradelet.reportError. unfold_calls.
  repeat emits_step; try reflexivity.
  apply (prefix_append "  Reporting error while ").
Qed.

Lemma checkAndUpgrade_catch_emits (cfg : Config) (W : World) (err : exn) :
  emits (fun e => is_error_handling e = true)
    (Upgradelet.checkAndUpgrade_catch cfg W err).
Proof.
  unfold Upgradelet.checkAndUpgrade_catch, Upgradelet.ignoreError.
  unfold_calls.
  repeat first [ apply reportError_emits | emits_step ]; reflexivity.
Qed.

(* ===================================================================== *)
(** ** The course of [checkAndUpgrade] *)
(* ===================================================================== *)

Ltac norm_hist := repeat first [rewrite <- app_assoc | progress cbn [app]].

Lemma after_emits {A} (P : Event -> Prop) (pre : list Event)
  (x : result A * list Event) :
  Forall P pre -> Forall P (snd x) -> Forall P (snd (after pre x)).
Proof. intros; unfold after; simpl; apply Forall_app; auto. Qed.

(** Whatever happens before the clean-up is preparation; a run that does
    not get that far only prepares, says that no upgrade is needed, or
    handles its error. Otherwise it continues with lines 69-98 under the
    [catch] block. *)
Lemma checkAndUpgrade_cases (cfg : Config) (W : World) (ob : option string)
  (h : History) :
  Forall (fun e => is_preparation e = true \/ is_error_handling e = true)
    (snd (Upgradelet.checkAndUpgrade cfg W ob h))
  \/ exists res localRepo relevantBranches openPrsPerBranch pre,
       discovered cfg W (Upgradelet.branchArg cfg ob) h res localRepo
         relevantBranches openPrsPerBranch pre
       /\ Upgradelet.checkAndUpgrade cfg W ob h
          = after pre
              (try_catch
                 (Upgradelet.checkAndUpgrade_reconcile cfg W localRepo
                    (Upgradelet.branchArg cfg ob) (Upgradelet.currentSha res)
                    (Upgradelet.latestSha res) relevantBranches openPrsPerBranch)
                 (Upgradelet.checkAndUpgrade_catch cfg W) (h ++ pre)).
Proof.
  remember (Upgradelet.checkAndUpgrade cfg W ob h) as X eqn:EX.
  unfold Upgradelet.checkAndUpgrade in EX.
  set (branch := Upgradelet.branchArg cfg ob) in *.
  assert (Hcatch : forall e h0,
    Forall (fun e => is_preparation e = true \/ is_error_handling e = true)
      (snd (Upgradelet.checkAndUpgrade_catch cfg W e h0))).
  { intros e h0. eapply Forall_impl; [| apply checkAndUpgrade_catch_emits]. auto. }
  assert (Hprep : forall es,
    Forall (fun e => is_preparation e = true) es ->
    Forall (fun e => is_preparation e = true \/ is_error_handling e = true) es).
  { intros es. apply Forall_impl. auto. }
  unfold logger_info at 1 in EX.
  rewrite (try_catch_bind_ok _ _ _ _ (emit_run _ h)) in EX.
  fold startLog in EX.
  destruct (Upgradelet.checkNeedsUpgrade cfg W branch (h ++ [startLog]))
    as [[e|res] es1] eqn:E1.
  { left. rewrite (try_catch_bind_err _ _ _ _ E1) in EX. subst X.
    repeat apply after_emits; auto.
    apply Hprep. eapply emits_run; [apply checkNeedsUpgrade_emits | exact E1]. }
  rewrite (try_catch_bind_ok _ _ _ _ E1) in EX.
  pose proof (emits_run _ (checkNeedsUpgrade_emits cfg W branch) E1) as P1.
  destruct (Upgradelet.needsUpgrade res) eqn:Nu; cbn [negb] in EX.
  2:{ left. unfold logger_info in EX. unfold try_catch, emit in EX. subst X.
      repeat apply after_emits; auto. cbn [snd].
      constructor; [left; reflexivity | constructor]. }
  unfold logger_info at 1 in EX.
  rewrite (try_catch_bind_ok _ _ _ _ (emit_run _ _)) in EX.
  fold (upgradeNeededLog res) in EX.
  norm_hist.
  assert (PL : is_preparation (upgradeNeededLog res) = true) by reflexivity.
  destruct (Upgradelet.initLocalRepo cfg W
              (h ++ startLog :: es1 ++ [upgradeNeededLog res]))
    as [[e|localRepo] es2] eqn:E2.
  { left. rewrite <- !app_assoc in EX. cbn [app] in EX.
    rewrite (try_catch_bind_err _ _ _ _ E2) in EX. subst X.
    repeat apply after_emits; auto.
    apply Hprep. eapply emits_run; [apply initLocalRepo_emits | exact E2]. }
  pose proof (emits_run _ (initLocalRepo_emits cfg W) E2) as P2.
  destruct (GitRepo.getRemoteBranches W localRepo GitRepo.ORIGIN
              (h ++ startLog :: es1 ++ upgradeNeededLog res :: es2))
    as [[e|branches] es3] eqn:E3.
  { left. rewrite <- !app_assoc in EX. cbn [app] in EX.
    rewrite (try_catch_bind_ok _ _ _ _ E2) in EX.
    repeat (rewrite <- !app_assoc in EX; cbn [app] in EX).
    rewrite (try_catch_bind_err _ _ _ _ E3) in EX. subst X.
    repeat apply after_emits; auto.
    apply Hprep. eapply emits_run; [apply getRemoteBranches_emits | exact E3]. }
  pose proof (emits_run _ (getRemoteBranches_emits W localRepo) E3) as P3.
  set (relevantBranches :=
         filter (fun b => JS.startsWith b Upgradelet.LOCAL_BRANCH_PREFIX) branches).
  rewrite <- !app_assoc in EX. cbn [app] in EX.
  rewrite (try_catch_bind_ok _ _ _ _ E2) in EX.
  repeat (rewrite <- !app_assoc in EX; cbn [app] in EX).
  rewrite (try_catch_bind_ok _ _ _ _ E3) in EX.
  repeat (rewrite <- !app_assoc in EX; cbn [app] in EX).
  fold relevantBranches in EX.
  destruct (Upgradelet.getOpenPrsPerBranch cfg W relevantBranches
              (h ++ startLog :: es1 ++ upgradeNeededLog res :: es2 ++ es3))
    as [[e|openPrs] es4] eqn:E4.
  { left. rewrite (try_catch_bind_err _ _ _ _ E4) in EX. subst X.
    repeat apply after_emits; auto.
    apply Hprep. eapply emits_run; [apply getOpenPrsPerBranch_emits | exact E4]. }
  rewrite (try_catch_bind_ok _ _ _ _ E4) in EX.
  repeat (rewrite <- !app_assoc in EX; cbn [app] in EX).
  right. exists res, localRepo, relevantBranches, openPrs,
    (startLog :: es1 ++ upgradeNeededLog res :: es2 ++ es3 ++ es4).
  split.
  - exists es1, es2, branches, es3, es4. repeat split; auto.
  - subst X. rewrite !after_after. norm_hist. reflexivity.
Qed.

(** A run that came through the discovery goes on with lines 69-98, under
    the [catch] block. *)
Lemma checkAndUpgrade_discovered (cfg : Config) (W : World) (ob : option string)
  (h : History) res localRepo relevantBranches openPrsPerBranch pre :
  discovered cfg W (Upgradelet.branchArg cfg ob) h res localRepo relevantBranches
    openPrsPerBranch pre ->
  Upgradelet.checkAndUpgrade cfg W ob h
  = after pre
      (try_catch
         (Upgradelet.checkAndUpgrade_reconcile cfg W localRepo
            (Upgradelet.branchArg cfg ob) (Upgradelet.currentSha res)
            (Upgradelet.latestSha res) relevantBranches openPrsPerBranch)
         (Upgradelet.checkAndUpgrade_catch cfg W) (h ++ pre)).
Proof.
  intros (es1 & es2 & branches & es3 & es4 & E1 & Nu & E2 & E3 & -> & E4 & ->).
  unfold Upgradelet.checkAndUpgrade.
  unfold logger_info at 1.
  rewrite (try_catch_bind_ok _ _ _ _ (emit_run _ h)).
  fold startLog.
  rewrite (try_catch_bind_ok _ _ _ _ E1).
  rewrite Nu. cbn [negb].
  unfold logger_info at 1.
  rewrite (try_catch_bind_ok _ _ _ _ (emit_run _ _)).
  fold (upgradeNeededLog res).
  norm_hist.
  rewrite (try_catch_bind_ok _ _ _ _ E2).
  norm_hist.
  rewrite (try_catch_bind_ok _ _ _ _ E3).
  norm_hist.
  rewrite (try_catch_bind_ok _ _ _ _ E4).
  rewrite !after_after. norm_hist. reflexivity.
Qed.

(* ===================================================================== *)
(** ** Deleting the obsolete branches *)
(* ===================================================================== *)

Lemma exec_cmds_app (a b : list Event) :
  exec_cmds (a ++ b) = exec_cmds a ++ exec_cmds b.
Proof. unfold exec_cmds. apply flat_map_app. Qed.


Lemma forEach_debug (l : list string) (h : History) :
  forEach l (fun line => logger_debug ("GIT: " +++ line)) h
  = (inr tt, map (fun line => ELogDebug ("GIT: " +++ line)) l).
Proof.
  revert h; induction l as [|x l IH]; intros h; [reflexivity|].
  simpl. unfold bind, logger_debug, emit. now rewrite IH.
Qed.

Lemma exec_cmds_debug (l : list string) :
  exec_cmds (map (fun line => ELogDebug ("GIT: " +++ line)) l) = [].
Proof. induction l; simpl; auto. Qed.

(** A call of [execInRepo] on a live repository executes its command at
    most once, and exactly once when it returns. *)
Lemma execInRepo_cmds (W : World) (this : GitRepo.t) (partialCmd : string)
  (opts : option ICommnandOptions) (h : History) r es :
  GitRepo.destroyed this = false ->
  GitRepo.execInRepo W this partialCmd opts h = (r, es) ->
  (exec_cmds es = [] /\ exists e, r = inl e)
  \/ exec_cmds es = [GitRepo.withOptions (JS.trim partialCmd) opts].
Proof.
  intros D. unfold GitRepo.execInRepo. rewrite D.
  unfold try_finally, bind, pushd, popd, exec, call, logger_debug, emit, ret.
  destruct (sh_pushd W h "-q" (GitRepo.directory this)) as [e1|[]].
  - destruct (sh_popd W _ "-q") as [e3|[]]; intros E; inversion E; subst;
      left; split; eauto.
  - cbn [app].
    match goal with |- context [sh_exec W ?h0 ?c] =>
      destruct (sh_exec W h0 c) as [e2|out] end.
    + cbn [app].
      destruct (sh_popd W _ "-q") as [e3|[]]; intros E; inversion E; subst;
        right; reflexivity.
    + rewrite forEach_debug. cbn [app].
      destruct (sh_popd W _ "-q") as [e3|[]]; intros E; inversion E; subst;
        right; cbn [app exec_cmds flat_map];
        rewrite !app_nil_r;
        change (flat_map _ ?l) with (exec_cmds l);
        rewrite exec_cmds_app, exec_cmds_debug; reflexivity.
Qed.

Lemma trimEnd_idem (s : string) : JS.trimEnd (JS.trimEnd s) = JS.trimEnd s.
Proof.
  induction s as [|c s IH]; [reflexivity|].
  simpl. destruct (JS.trimEnd s) as [|d t] eqn:T.
  - destruct (JS.is_space c) eqn:S; [reflexivity|].
    simpl. now rewrite S.
  - rewrite trimEnd_cons_nonempty; rewrite IH; [reflexivity | discriminate].
Qed.

Lemma trim_trimEnd (s : string) : JS.trimEnd (JS.trim s) = JS.trim s.
Proof. unfold JS.trim. apply trimEnd_idem. Qed.

Lemma trimEnd_suffix (a b : string) :
  JS.trimEnd (a +++ b) = a +++ b -> JS.trimEnd b = b.
Proof.
  induction a as [|c a IH]; [auto|].
  change (String c a +++ b) with (String c (a +++ b)).
  simpl. destruct (JS.trimEnd (a +++ b)) as [|d t] eqn:T.
  - destruct (JS.is_space c); intros E; inversion E as [E'].
    destruct a; simpl in E'; [subst b; reflexivity | discriminate].
  - intros E; inversion E as [E']. apply IH. exact E'.
Qed.

Lemma strip_prefix_append (p s : string) : JS.strip_prefix p (p +++ s) = s.
Proof.
  induction p as [|c p IH]; simpl.
  - now destruct s.
  - rewrite Ascii.eqb_refl, prefix_append. exact IH.
Qed.

(** A prefix of literal characters is removed as it stands. *)
Lemma map_throwing_literal (W : World) (prefix : string) (lines : list string) :
  JS.is_literal_pattern prefix = true ->
  map_throwing (fun line => GitRepo.replace_leading W prefix line) lines
  = inr (map (fun line => JS.strip_prefix prefix line) lines).
Proof.
  intros L. induction lines as [|line lines IH]; [reflexivity|].
  cbn [map_throwing map]. unfold GitRepo.replace_leading at 1. rewrite L, IH.
  reflexivity.
Qed.

(** The branch names [getRemoteBranches] returns for a remote with a
    name of literal characters carry no trailing white space. *)
Lemma getRemoteBranches_trimmed (W : World) (this : GitRepo.t) (remote : string)
  (h : History) (branches : list string) (es : list Event) :
  JS.is_literal_pattern (remote +++ "/") = true ->
  GitRepo.getRemoteBranches W this remote h = (inr branches, es) ->
  forall b, In b branches -> JS.trimEnd b = b.
Proof.
  unfold GitRepo.getRemoteBranches. intros L E.
  apply bind_inv in E. destruct E as [(e & _ & E) | (a & es1 & es2 & _ & E & _)];
    [discriminate|].
  apply bind_inv in E. destruct E as [(e & _ & E) | (out & es3 & es4 & _ & E & _)];
    [discriminate|].
  rewrite (map_throwing_literal W _ _ L) in E.
  inversion E; subst. clear E.
  intros b Hb. apply in_map_iff in Hb. destruct Hb as (line & <- & Hl).
  apply filter_In in Hl. destruct Hl as [Hl Hp].
  apply in_map_iff in Hl. destruct Hl as (raw & <- & _).
  unfold JS.startsWith in Hp. apply prefix_split in Hp. destruct Hp as [r Hr].
  rewrite Hr, strip_prefix_append.
  apply trimEnd_suffix with (a := remote +++ "/").
  rewrite <- Hr. apply trim_trimEnd.
Qed.

Lemma deleteCmd_trim (b : string) :
  JS.trimEnd b = b -> b <> "" ->
  JS.trim ("git push " +++ GitRepo.ORIGIN +++ " " +++ "" +++ ":" +++ b) = deleteCmd b.
Proof.
  intros T N. unfold JS.trim, deleteCmd.
  change (JS.trimStart ("git push " +++ GitRepo.ORIGIN +++ " " +++ "" +++ ":" +++ b))
    with ("git push origin :" +++ b).
  rewrite trimEnd_app; rewrite T; auto.
Qed.

Lemma relevant_nonempty (b : string) :
  JS.startsWith b Upgradelet.LOCAL_BRANCH_PREFIX = true -> b <> "".
Proof. intros H ->. discriminate. Qed.

(** One deletion: bookkeeping, and the command [git push origin :b]
    (unless the directory change failed). *)
Lemma deleteRemoteBranch_run (W : World) (this : GitRepo.t) (b : string)
  (h : History) r es :
  GitRepo.destroyed this = false -> JS.trimEnd b = b -> b <> "" ->
  GitRepo.deleteRemoteBranch W this GitRepo.ORIGIN b None h = (r, es) ->
  Forall (fun e => is_bookkeeping e = true \/ exists r', e = EExec (deleteCmd b) r') es
  /\ ((exec_cmds es = [] /\ exists e, r = inl e) \/ exec_cmds es = [deleteCmd b]).
Proof.
  intros D T N. unfold GitRepo.deleteRemoteBranch, GitRepo.push.
  unfold bind at 1. unfold ret at 1. cbn [app].
  intros E.
  assert (X : exists r0, GitRepo.execInRepo W this
             ("git push " +++ GitRepo.ORIGIN +++ " " +++ "" +++ ":" +++ b) None
             (h ++ []) = (r0, es)).
  { unfold bind, ret in E.
    destruct (GitRepo.execInRepo W this _ None (h ++ [])) as [[e|o] es0];
      cbn [app] in E; inversion E; subst; rewrite ?app_nil_r; eauto. }
  destruct X as [r0 X].
  assert (Hr : (exists e, r = inl e) <-> (exists e, r0 = inl e)).
  { unfold bind, ret in E. rewrite X in E.
    destruct r0; cbn [app] in E; inversion E; subst; split; intros [e0 He0];
      try discriminate; eauto. }
  split.
  - pose proof (@execInRepo_emits
      (fun e => is_bookkeeping e
                || match e with EExec c _ => String.eqb c (deleteCmd b) | _ => false end)
      W this ("git push " +++ GitRepo.ORIGIN +++ " " +++ "" +++ ":" +++ b) None) as Hem.
    assert (Hall : Forall (fun e => is_bookkeeping e
                || match e with EExec c _ => String.eqb c (deleteCmd b) | _ => false end
                = true) es).
    { eapply emits_run; [apply Hem | exact X].
      - intros e He. now rewrite He.
      - intros r1. unfold GitRepo.withOptions. rewrite deleteCmd_trim by auto.
        cbn [is_bookkeeping orb]. apply String.eqb_refl. }
    eapply Forall_impl; [| exact Hall]. intros e He.
    apply orb_true_iff in He. destruct He as [He|He]; [now left|right].
    destruct e; try discriminate. apply String.eqb_eq in He. subst. eauto.
  - pose proof X as X2. apply execInRepo_cmds in X2; [| exact D].
    destruct X2 as [[C [e He]] | C].
    + left. split; [exact C|]. apply Hr. eauto.
    + right. rewrite C. unfold GitRepo.withOptions. now rewrite deleteCmd_trim.
Qed.

(** The loop of [cleanupObsoleteBranches] over the branches [bs]: it emits
    bookkeeping and deletions of branches of [bs]; when it returns, the
    commands executed are the deletions of all of [bs], in order; when it
    throws, it has stopped at the first deletion that failed. *)
Lemma forEach_delete_run (W : World) (this : GitRepo.t) (bs : list string) :
  GitRepo.destroyed this = false ->
  (forall b, In b bs -> JS.trimEnd b = b /\ b <> "") ->
  forall h rc es,
    forEach bs (fun b => GitRepo.deleteRemoteBranch W this GitRepo.ORIGIN b None) h
    = (rc, es) ->
    Forall (fun e => is_bookkeeping e = true
                     \/ exists b r, In b bs /\ e = EExec (deleteCmd b) r) es
    /\ (rc = inr tt -> exec_cmds es = map deleteCmd bs)
    /\ (forall e, rc = inl e ->
        exists done failed rest es1 es2,
          bs = done ++ failed :: rest
          /\ es = es1 ++ es2
          /\ GitRepo.deleteRemoteBranch W this GitRepo.ORIGIN failed None (h ++ es1)
             = (inl e, es2)
          /\ exec_cmds es1 = map deleteCmd done
          /\ (exec_cmds es2 = [] \/ exec_cmds es2 = [deleteCmd failed])).
Proof.
  intros D. induction bs as [|b bs IH]; intros Hbs h rc es E.
  - simpl in E. unfold ret in E. inversion E; subst.
    repeat split; auto. intros e He; discriminate.
  - simpl in E. apply bind_inv in E.
    destruct (Hbs b (or_introl eq_refl)) as [Tb Nb].
    destruct E as [(e & E1 & ->) | ([] & es1 & es2 & E1 & E2 & ->)].
    + pose proof E1 as Q. apply deleteRemoteBranch_run in Q; auto.
      destruct Q as [F C].
      repeat split.
      * eapply Forall_impl; [| exact F]. intros ev [Hb | [r' ->]]; [now left|].
        right. exists b, r'. split; [now left | reflexivity].
      * intros X; discriminate.
      * intros e' He'. inversion He'; subst e'.
        exists [], b, bs, [], es. rewrite app_nil_r.
        repeat split; auto.
        destruct C as [[C _] | C]; [left | right]; exact C.
    + pose proof E1 as Q. apply deleteRemoteBranch_run in Q; auto.
      destruct Q as [F C].
      destruct C as [[_ [e He]] | C]; [discriminate|].
      destruct (IH (fun x Hx => Hbs x (or_intror Hx)) _ _ _ E2) as (F2 & Ok & Err).
      repeat split.
      * apply Forall_app. split.
        -- eapply Forall_impl; [| exact F]. intros ev [Hb | [r' ->]]; [now left|].
           right. exists b, r'. split; [now left | reflexivity].
        -- eapply Forall_impl; [| exact F2].
           intros ev [Hb | (x & r' & Hx & ->)]; [now left|].
           right. exists x, r'. split; [now right | reflexivity].
      * intros ->. rewrite exec_cmds_app, C, (Ok eq_refl). reflexivity.
      * intros e He.
        destruct (Err e He) as (done & failed & rest & ea & eb & -> & -> & Ef & Hd & Hc).
        exists (b :: done), failed, rest, (es1 ++ ea), eb.
        repeat split.
        -- now rewrite app_assoc.
        -- now rewrite app_assoc.
        -- rewrite exec_cmds_app, C, Hd. reflexivity.
        -- exact Hc.
Qed.

Lemma initLocalRepo_live (cfg : Config) (W : World) (h : History)
  (localRepo : GitRepo.t) (es : list Event) :
  Upgradelet.initLocalRepo cfg W h = (inr localRepo, es) ->
  GitRepo.destroyed localRepo = false.
Proof.
  unfold Upgradelet.initLocalRepo. intros E.
  repeat (apply bind_inv in E;
          destruct E as [(e & _ & E) | (? & ? & ? & _ & E & _)]; [discriminate|]).
  unfold ret in E. inversion E. reflexivity.
Qed.

(** In a run that came through the discovery, the working copy is live
    and the automation branches are non-empty and trimmed. *)
Lemma discovered_facts (cfg : Config) (W : World) (branch : string) (h : History)
  res localRepo relevantBranches openPrsPerBranch pre :
  discovered cfg W branch h res localRepo relevantBranches openPrsPerBranch pre ->
  GitRepo.destroyed localRepo = false
  /\ (forall b, In b relevantBranches -> JS.trimEnd b = b /\ b <> "")
  /\ Forall (fun e => is_preparation e = true) pre.
Proof.
  intros (es1 & es2 & branches & es3 & es4 & E1 & Nu & E2 & E3 & -> & E4 & ->).
  split; [eapply initLocalRepo_live; eauto|]. split.
  - intros b Hb. apply filter_In in Hb. destruct Hb as [Hb Hp]. split.
    + eapply getRemoteBranches_trimmed; [| exact E3 | exact Hb]. reflexivity.
    + now apply relevant_nonempty.
  - constructor; [reflexivity|].
    apply Forall_app; split;
      [eapply emits_run; [apply checkNeedsUpgrade_emits | exact E1]|].
    constructor; [reflexivity|].
    apply Forall_app; split;
      [eapply emits_run; [apply initLocalRepo_emits | exact E2]|].
    apply Forall_app; split;
      [eapply emits_run; [apply getRemoteBranches_emits | exact E3]|].
    eapply emits_run; [apply getOpenPrsPerBranch_emits | exact E4].
Qed.

(* ===================================================================== *)
(** ** Errors: what is ignored and what is rethrown *)
(* ===================================================================== *)

Lemma ignoreError_returns {A} (fn : M A) (h : History) :
  fst (Upgradelet.ignoreError fn h) = inr tt.
Proof.
  unfold Upgradelet.ignoreError, try_catch, bind, ret, logger_warn, emit.
  destruct (fn h) as [[e|a] es]; reflexivity.
Qed.

Lemma ignoreError_run {A} (fn : M A) (h : History) :
  Upgradelet.ignoreError fn h = (inr tt, snd (Upgradelet.ignoreError fn h)).
Proof.
  rewrite <- (ignoreError_returns fn h). now destruct (Upgradelet.ignoreError fn h).
Qed.

(** The [catch] block rethrows the error it caught. *)
Lemma checkAndUpgrade_catch_rethrows (cfg : Config) (W : World) (err : exn)
  (h : History) :
  fst (Upgradelet.checkAndUpgrade_catch cfg W err h) = inl err.
Proof.
  unfold Upgradelet.checkAndUpgrade_catch.
  rewrite (bind_ok _ _ _ (ignoreError_run _ _)).
  rewrite (bind_ok _ _ _ (ignoreError_run _ _)).
  reflexivity.
Qed.

Lemma preparation_is_no_new_work (e : Event) :
  is_preparation e = true ->
  is_new_work e = false /\ is_existing_pr_report e = false
  /\ is_hosting_write e = false.
Proof.
  destruct e; simpl; try discriminate; auto.
  - intros H.
    repeat match goal with
           | H : context [String.eqb (git_verb cmd) ?v] |- _ =>
               let E := fresh "E" in
               destruct (String.eqb_spec (git_verb cmd) v) as [E|E];
               [ rewrite E; now auto | simpl in H ]
           end.
    discriminate.
  - intros H. apply negb_true_iff in H. auto.
Qed.

Lemma prefix_head_mismatch (a b : ascii) (p q s : string) :
  a <> b -> String.prefix (String a p) s = true ->
  String.prefix (String b q) s = false.
Proof.
  intros N. destruct s as [|c s]; [discriminate|].
  cbn [String.prefix]. destruct (ascii_dec a c), (ascii_dec b c);
    subst; congruence.
Qed.

Lemma error_handling_is_no_new_work (e : Event) :
  is_error_handling e = true ->
  is_new_work e = false /\ is_existing_pr_report e = false.
Proof.
  destruct e; try (simpl; discriminate); try (simpl; now auto).
  unfold is_error_handling, is_new_work, is_existing_pr_report, JS.startsWith.
  intros H. split; [reflexivity|].
  eapply prefix_head_mismatch; [| exact H]. discriminate.
Qed.

Lemma bookkeeping_is_no_new_work (e : Event) :
  is_bookkeeping e = true ->
  is_new_work e = false /\ is_existing_pr_report e = false
  /\ is_hosting_write e = false.
Proof. destruct e; simpl; try discriminate; auto. Qed.

(** Lines 69-98 under the [catch] block, by the outcome of the clean-up. *)
Lemma reconcile_run (cfg : Config) (W : World) (localRepo : GitRepo.t)
  (branch currentSha latestSha : string) (relevantBranches : list string)
  (openPrsPerBranch : JS.Map (list IPullRequest)) (h : History) rc dels :
  Upgradelet.cleanupObsoleteBranches W localRepo relevantBranches
    (JS.map_keys openPrsPerBranch) h = (rc, dels) ->
  try_catch
    (Upgradelet.checkAndUpgrade_reconcile cfg W localRepo branch currentSha
       latestSha relevantBranches openPrsPerBranch)
    (Upgradelet.checkAndUpgrade_catch cfg W) h
  = after dels
      (match rc with
       | inl e => Upgradelet.checkAndUpgrade_catch cfg W e (h ++ dels)
       | inr _ =>
           try_catch
             (Upgradelet.checkAndUpgrade_checkExisting cfg W localRepo branch
                currentSha latestSha openPrsPerBranch)
             (Upgradelet.checkAndUpgrade_catch cfg W) (h ++ dels)
       end).
Proof.
  intros E. unfold Upgradelet.checkAndUpgrade_reconcile.
  destruct rc as [e|[]].
  - now rewrite (try_catch_bind_err _ _ _ _ E).
  - now rewrite (try_catch_bind_ok _ _ _ _ E).
Qed.

(** The clean-up of a run that came through the discovery. *)
Lemma cleanup_run (cfg : Config) (W : World) (branch : string) (h : History)
  res localRepo relevantBranches openPrsPerBranch pre rc dels :
  discovered cfg W branch h res localRepo relevantBranches openPrsPerBranch pre ->
  Upgradelet.cleanupObsoleteBranches W localRepo relevantBranches
    (JS.map_keys openPrsPerBranch) (h ++ pre) = (rc, dels) ->
  let obsolete :=
    branchesWithoutOpenPrs relevantBranches (JS.map_keys openPrsPerBranch) in
  Forall (fun e => is_bookkeeping e = true
                   \/ exists b r, In b obsolete /\ e = EExec (deleteCmd b) r) dels
  /\ (rc = inr tt -> exec_cmds dels = map deleteCmd obsolete)
  /\ (forall e, rc = inl e ->
      exists done failed rest es1 es2,
        obsolete = done ++ failed :: rest
        /\ dels = es1 ++ es2
        /\ GitRepo.deleteRemoteBranch W localRepo GitRepo.ORIGIN failed None
             ((h ++ pre) ++ es1) = (inl e, es2)
        /\ exec_cmds es1 = map deleteCmd done
        /\ (exec_cmds es2 = [] \/ exec_cmds es2 = [deleteCmd failed])).
Proof.
  intros Hd E obsolete.
  destruct (discovered_facts Hd) as (D & Hb & _).
  unfold Upgradelet.cleanupObsoleteBranches in E.
  fold (branchesWithoutOpenPrs relevantBranches (JS.map_keys openPrsPerBranch)) in E.
  fold obsolete in E.
  eapply forEach_delete_run; eauto.
  intros b Hin. apply Hb. unfold obsolete, branchesWithoutOpenPrs in Hin.
  apply filter_In in Hin. tauto.
Qed.

(* ===================================================================== *)
(** ** Maps in insertion order *)
(* ===================================================================== *)

Lemma includes_In (l : list string) (x : string) :
  JS.includes l x = true <-> In x l.
Proof.
  unfold JS.includes. rewrite existsb_exists. split.
  - intros (y & Hy & E). apply String.eqb_eq in E. now subst.
  - intros H. exists x. split; [exact H | apply String.eqb_refl].
Qed.

Lemma sublist_refl {A} (l : list A) : sublist l l.
Proof. induction l; [apply sublist_nil | now apply sublist_keep]. Qed.

Lemma sublist_nil_l {A} (l : list A) : sublist [] l.
Proof. induction l; [apply sublist_nil | now apply sublist_skip]. Qed.

Lemma sublist_app_skip {A} (l1 l2 l3 : list A) :
  sublist l1 l2 -> sublist l1 (l2 ++ l3).
Proof.
  induction 1; simpl.
  - apply sublist_nil_l.
  - now apply sublist_skip.
  - now apply sublist_keep.
Qed.

Lemma sublist_snoc {A} (l1 l2 : list A) (x : A) :
  sublist l1 l2 -> sublist (l1 ++ [x]) (l2 ++ [x]).
Proof.
  induction 1; simpl.
  - apply sublist_refl.
  - now apply sublist_skip.
  - now apply sublist_keep.
Qed.

Lemma sublist_trans {A} (l1 l2 l3 : list A) :
  sublist l1 l2 -> sublist l2 l3 -> sublist l1 l3.
Proof.
  intros H12 H23. revert l1 H12.
  induction H23; intros l0 H12.
  - exact H12.
  - apply sublist_skip. now apply IHsublist.
  - inversion H12; subst.
    + apply sublist_skip. now apply IHsublist.
    + apply sublist_keep. now apply IHsublist.
Qed.

Lemma sublist_filter {A} (f : A -> bool) (l : list A) : sublist (filter f l) l.
Proof.
  induction l as [|x l IH]; simpl; [constructor|].
  destruct (f x); [now apply sublist_keep | now apply sublist_skip].
Qed.

Lemma sublist_map {A B} (f : A -> B) (l1 l2 : list A) :
  sublist l1 l2 -> sublist (map f l1) (map f l2).
Proof.
  induction 1; simpl;
    [apply sublist_nil | now apply sublist_skip | now apply sublist_keep].
Qed.

Lemma sublist_In {A} (l1 l2 : list A) (x : A) :
  sublist l1 l2 -> In x l1 -> In x l2.
Proof.
  induction 1; simpl; auto.
  intros [->|H1]; auto.
Qed.

Section MapFacts.
Variable V : Type.
Implicit Types (m : JS.Map V) (k : string) (v : V).

Lemma map_set_In m k v kv :
  In kv (JS.map_set k v m) -> kv = (k, v) \/ In kv m.
Proof.
  induction m as [|[k' v'] m IH]; simpl.
  - intros [<-|[]]; auto.
  - destruct (String.eqb k k'); simpl.
    + intros [<-|H]; auto.
    + intros [<-|H]; auto. destruct (IH H); auto.
Qed.

Lemma map_set_keys m k v :
  JS.map_keys (JS.map_set k v m)
  = if JS.includes (JS.map_keys m) k then JS.map_keys m else JS.map_keys m ++ [k].
Proof.
  induction m as [|[k' v'] m IH]; simpl; [reflexivity|].
  destruct (String.eqb_spec k k') as [->|N]; simpl; [reflexivity|].
  unfold JS.map_keys in *. rewrite IH.
  unfold JS.includes. now destruct (existsb (String.eqb k) (map fst m)).
Qed.

Lemma map_of_entries_In (entries : list (string * V)) kv :
  In kv (JS.map_of_entries entries) -> In kv entries.
Proof.
  unfold JS.map_of_entries.
  assert (G : forall m, In kv (fold_left (fun m kv => JS.map_set (fst kv) (snd kv) m)
                                 entries m) -> In kv m \/ In kv entries).
  { induction entries as [|[k v] entries IH]; simpl; auto.
    intros m H. destruct (IH _ H) as [H1|H1]; auto.
    apply map_set_In in H1. destruct H1 as [->|H1]; auto. }
  intros H. destruct (G _ H) as [[]|H1]; exact H1.
Qed.

Lemma map_of_entries_keys (entries : list (string * V)) :
  sublist (JS.map_keys (JS.map_of_entries entries)) (map fst entries)
  /\ NoDup (JS.map_keys (JS.map_of_entries entries)).
Proof.
  unfold JS.map_of_entries.
  assert (G : forall m done,
    sublist (JS.map_keys m) done -> NoDup (JS.map_keys m) ->
    let m' := fold_left (fun m kv => JS.map_set (fst kv) (snd kv) m) entries m in
    sublist (JS.map_keys m') (done ++ map fst entries) /\ NoDup (JS.map_keys m')).
  { induction entries as [|[k v] entries IH]; simpl; intros m done S N.
    - rewrite app_nil_r. auto.
    - replace (done ++ k :: map fst entries)
        with ((done ++ [k]) ++ map fst entries) by now rewrite <- app_assoc.
      apply IH; rewrite map_set_keys;
        destruct (JS.includes (JS.map_keys m) k) eqn:I.
      + now apply sublist_app_skip.
      + now apply sublist_snoc.
      + exact N.
      + apply NoDup_app; [exact N | repeat constructor; auto |].
        intros x Hx [<-|[]]. apply includes_In in Hx. congruence. }
  apply (G [] []); constructor.
Qed.

Lemma map_get_includes m k :
  JS.includes (JS.map_keys m) k = true ->
  exists v, JS.map_get m k = Some v /\ In (k, v) m.
Proof.
  induction m as [|[k' v'] m IH]; simpl; [discriminate|].
  destruct (String.eqb_spec k k') as [->|N]; simpl.
  - intros _. exists v'. auto.
  - intros H. destruct (IH H) as (v & G & I). exists v. auto.
Qed.

End MapFacts.

(* ===================================================================== *)
(** ** The branch-to-open-PR map *)
(* ===================================================================== *)

Lemma promise_all_getPullRequests (W : World) (repo : GithubRepo)
  (params : list IPullRequestSearchParams) :
  forall h resps es,
    promise_all (map (fun p => getPullRequests W repo p) params) h = (inr resps, es) ->
    List.length resps = List.length params
    /\ es = map (fun pr => EGetPullRequests repo (fst pr) (inr (snd pr)))
              (combine params resps).
Proof.
  induction params as [|p params IH]; intros h resps es E.
  - simpl in E. unfold ret in E. inversion E; subst. auto.
  - cbn [map promise_all] in E.
    assert (G : getPullRequests W repo p h
                = (gh_getPullRequests W h repo p,
                   [EGetPullRequests repo p (gh_getPullRequests W h repo p)]))
      by reflexivity.
    rewrite G in E.
    destruct (promise_all (map (fun p => getPullRequests W repo p) params)
                (h ++ [EGetPullRequests repo p (gh_getPullRequests W h repo p)]))
      as [rs es'] eqn:R.
    destruct (gh_getPullRequests W h repo p) as [e|resp]; [discriminate|].
    destruct rs as [e|l]; [discriminate|].
    inversion E; subst. destruct (IH _ _ _ R) as [L ->].
    simpl. split; [now rewrite L | reflexivity].
Qed.

Lemma combine_map_l {A B C} (f : A -> C) (l : list A) (r : list B) :
  combine (map f l) r = map (fun p => (f (fst p), snd p)) (combine l r).
Proof.
  revert r; induction l as [|x l IH]; intros [|y r]; simpl; auto.
  now rewrite IH.
Qed.

Lemma combine_map_r {A B C} (g : B -> C) (l : list A) (r : list B) :
  combine l (map g r) = map (fun p => (fst p, g (snd p))) (combine l r).
Proof.
  revert r; induction l as [|x l IH]; intros [|y r]; simpl; auto.
  now rewrite IH.
Qed.

Lemma map_fst_combine {A B} (l : list A) (r : list B) :
  List.length r = List.length l -> map fst (combine l r) = l.
Proof.
  revert r; induction l as [|x l IH]; intros [|y r]; simpl; try discriminate; auto.
  intros H. rewrite IH; auto.
Qed.

(** [getOpenPrsPerBranch] asks for the pull requests of every branch, in
    order, and builds the map from the answers. *)
Lemma getOpenPrsPerBranch_spec (cfg : Config) (W : World) (branches : list string)
  (h : History) (m : JS.Map (list IPullRequest)) (es : list Event) :
  Upgradelet.getOpenPrsPerBranch cfg W branches h = (inr m, es) ->
  exists prsForBranches,
    List.length prsForBranches = List.length branches
    /\ es = pullRequestQueries cfg branches prsForBranches
    /\ m = JS.map_of_entries (openPrEntries branches prsForBranches).
Proof.
  unfold Upgradelet.getOpenPrsPerBranch. intros E.
  apply bind_inv in E.
  destruct E as [(e & _ & E) | (resps & es1 & es2 & E1 & E & ->)]; [discriminate|].
  unfold ret in E. inversion E; subst; clear E.
  apply promise_all_getPullRequests in E1. destruct E1 as [L ->].
  rewrite length_map in L.
  exists resps. split; [exact L|]. split.
  - rewrite app_nil_r. unfold pullRequestQueries.
    rewrite combine_map_l, map_map. reflexivity.
  - unfold openPrEntries, openRelevantPrs.
    rewrite combine_map_r, map_map. reflexivity.
Qed.

(** What the map holds: branches of the list, in the order of the list,
    each once, each with its open relevant pull requests, at least one. *)
Lemma openPrsPerBranch_facts (cfg : Config) (branches : list string)
  (prsForBranches : list (list IPullRequest)) :
  List.length prsForBranches = List.length branches ->
  let m := JS.map_of_entries (openPrEntries branches prsForBranches) in
  sublist (JS.map_keys m) branches
  /\ NoDup (JS.map_keys m)
  /\ (forall k prs, In (k, prs) m ->
      prs <> []
      /\ exists prsForBranch,
           In (EGetPullRequests (Upgradelet.upstreamRepo cfg)
                 (Upgradelet.searchParamsFor cfg k) (inr prsForBranch))
              (pullRequestQueries cfg branches prsForBranches)
           /\ prs = openRelevantPrs prsForBranch).
Proof.
  intros L m.
  destruct (map_of_entries_keys (openPrEntries branches prsForBranches)) as [S N].
  split; [| split; [exact N|]].
  - eapply sublist_trans; [exact S|].
    unfold openPrEntries.
    eapply sublist_trans; [apply sublist_map, sublist_filter|].
    rewrite map_map. cbn [fst].
    change (map (fun x : string * list IPullRequest => fst x)
              (combine branches prsForBranches))
      with (map fst (combine branches prsForBranches)).
    rewrite map_fst_combine by exact L. apply sublist_refl.
  - intros k prs Hin. apply map_of_entries_In in Hin.
    unfold openPrEntries in Hin. apply filter_In in Hin. destruct Hin as [Hin Hn].
    apply in_map_iff in Hin. destruct Hin as ([b resp] & E & Hc).
    cbn [fst snd] in E. inversion E; subst. split.
    + cbn [snd] in Hn. destruct (openRelevantPrs resp); [discriminate | discriminate].
    + exists resp. split; [| reflexivity].
      unfold pullRequestQueries. apply in_map_iff. exists (k, resp). auto.
Qed.

Lemma discovered_map (cfg : Config) (W : World) (branch : string) (h : History)
  res localRepo relevantBranches openPrsPerBranch pre :
  discovered cfg W branch h res localRepo relevantBranches openPrsPerBranch pre ->
  exists prsForBranches before,
    List.length prsForBranches = List.length relevantBranches
    /\ openPrsPerBranch
       = JS.map_of_entries (openPrEntries relevantBranches prsForBranches)
    /\ pre = before ++ pullRequestQueries cfg relevantBranches prsForBranches.
Proof.
  intros (es1 & es2 & branches & es3 & es4 & E1 & Nu & E2 & E3 & R & E4 & ->).
  apply getOpenPrsPerBranch_spec in E4.
  destruct E4 as (resps & L & -> & ->).
  exists resps, (startLog :: es1 ++ upgradeNeededLog res :: es2 ++ es3).
  repeat split; auto.
  cbn [app]. rewrite <- !app_assoc. cbn [app]. now rewrite <- !app_assoc.
Qed.

Lemma sublist_NoDup {A} (l1 l2 : list A) : sublist l1 l2 -> NoDup l2 -> NoDup l1.
Proof.
  induction 1 as [|x l1 l2 S IH|x l1 l2 S IH]; intros N.
  - constructor.
  - inversion N; subst. auto.
  - inversion N as [|? ? Nx N']; subst. constructor; [|auto].
    intros I. apply Nx. eapply sublist_In; eauto.
Qed.

Lemma map_set_fresh {V} (k : string) (v : V) (m : JS.Map V) :
  ~ In k (JS.map_keys m) -> JS.map_set k v m = m ++ [(k, v)].
Proof.
  induction m as [|[k' v'] m IH]; intros N; [reflexivity|].
  cbn [JS.map_set]. cbn in N.
  destruct (String.eqb_spec k k') as [->|D]; [tauto|].
  rewrite IH by tauto. reflexivity.
Qed.

Lemma map_of_entries_NoDup {V} (entries : list (string * V)) :
  NoDup (map fst entries) -> JS.map_of_entries entries = entries.
Proof.
  unfold JS.map_of_entries.
  assert (G : forall acc : JS.Map V,
             NoDup (map fst (acc ++ entries)) ->
             fold_left (fun m kv => JS.map_set (fst kv) (snd kv) m) entries acc
             = acc ++ entries).
  { induction entries as [|[k v] entries IH]; intros acc N.
    - now rewrite app_nil_r.
    - cbn [fold_left fst snd].
      rewrite map_set_fresh.
      + rewrite IH; rewrite <- app_assoc; [reflexivity | exact N].
      + rewrite map_app in N. cbn [map fst] in N.
        apply NoDup_remove_2 in N. intros I. apply N. apply in_or_app. now left. }
  intros N. exact (G [] N).
Qed.

Lemma promise_all_answered (W : World) (repo : GithubRepo)
  (params : list IPullRequestSearchParams) :
  forall h resps es,
    promise_all (map (fun p => getPullRequests W repo p) params) h = (inr resps, es) ->
    queries_answered W h es.
Proof.
  induction params as [|p params IH]; intros h resps es E.
  - simpl in E. unfold ret in E. inversion E; subst. exact I.
  - cbn [map promise_all] in E.
    assert (G : getPullRequests W repo p h
                = (gh_getPullRequests W h repo p,
                   [EGetPullRequests repo p (gh_getPullRequests W h repo p)]))
      by reflexivity.
    rewrite G in E.
    destruct (promise_all (map (fun p => getPullRequests W repo p) params)
                (h ++ [EGetPullRequests repo p (gh_getPullRequests W h repo p)]))
      as [rs es'] eqn:R.
    destruct (gh_getPullRequests W h repo p) as [e|resp] eqn:A; [discriminate|].
    destruct rs as [e|l]; [discriminate|].
    inversion E; subst. cbn [app queries_answered]. split; [now rewrite A|].
    eapply IH. exact R.
Qed.

Lemma getOpenPrsPerBranch_answered (cfg : Config) (W : World) (branches : list string)
  (h : History) (m : JS.Map (list IPullRequest)) (es : list Event) :
  Upgradelet.getOpenPrsPerBranch cfg W branches h = (inr m, es) ->
  queries_answered W h es.
Proof.
  unfold Upgradelet.getOpenPrsPerBranch. intros E.
  apply bind_inv in E.
  destruct E as [(e & _ & E) | (resps & es1 & es2 & E1 & E & ->)]; [discriminate|].
  unfold ret in E. inversion E; subst; clear E.
  rewrite app_nil_r. eapply promise_all_answered. exact E1.
Qed.

Lemma openPrEntries_NoDup (branches : list string)
  (prsForBranches : list (list IPullRequest)) :
  List.length prsForBranches = List.length branches ->
  NoDup branches -> NoDup (map fst (openPrEntries branches prsForBranches)).
Proof.
  intros L N. eapply sublist_NoDup; [| exact N].
  unfold openPrEntries.
  eapply sublist_trans; [apply sublist_map, sublist_filter|].
  rewrite map_map. cbn [fst].
  change (map (fun x : string * list IPullRequest => fst x)
            (combine branches prsForBranches))
    with (map fst (combine branches prsForBranches)).
  rewrite map_fst_combine by exact L. apply sublist_refl.
Qed.

Lemma concat_openPrEntries (branches : list string)
  (prsForBranches : list (list IPullRequest)) :
  List.length prsForBranches = List.length branches ->
  concat (map snd (openPrEntries branches prsForBranches))
  = flat_map openRelevantPrs prsForBranches.
Proof.
  unfold openPrEntries.
  revert prsForBranches.
  induction branches as [|b branches IH]; intros [|a answers] L; try discriminate.
  - reflexivity.
  - cbn [combine map filter fst snd flat_map].
    injection L as L. specialize (IH answers L).
    destruct (openRelevantPrs a) as [|pr prs] eqn:O.
    + exact IH.
    + etransitivity; [| apply (f_equal (app (pr :: prs))), IH]. reflexivity.
Qed.

(** A run that came through the discovery has collected the map. *)
Lemma discovered_collected (cfg : Config) (W : World) (branch : string) (h : History)
  res localRepo relevantBranches openPrsPerBranch pre (rest : list Event) :
  discovered cfg W branch h res localRepo relevantBranches openPrsPerBranch pre ->
  collected cfg W h relevantBranches openPrsPerBranch (pre ++ rest).
Proof.
  intros (es1 & es2 & branches & es3 & es4 & E1 & Nu & E2 & E3 & R & E4 & ->).
  pose proof (getOpenPrsPerBranch_answered _ _ _ _ E4) as Q.
  apply getOpenPrsPerBranch_spec in E4.
  destruct E4 as (resps & L & -> & ->).
  exists resps, (startLog :: es1 ++ upgradeNeededLog res :: es2 ++ es3), rest.
  split; [exact L|]. split.
  { cbn [app]. rewrite <- !app_assoc. cbn [app]. now rewrite <- !app_assoc. }
  split; [exact Q|]. split; [reflexivity|].
  intros N.
  rewrite map_of_entries_NoDup by now apply openPrEntries_NoDup.
  split; [reflexivity | now apply concat_openPrEntries].
Qed.

Lemma openRelevantPrs_are (prsForBranch : list IPullRequest) :
  Forall (fun pr => state pr = "open"
                    /\ JS.startsWith (title pr) Upgradelet.COMMIT_MESSAGE_PREFIX = true)
    (openRelevantPrs prsForBranch).
Proof.
  apply Forall_forall. intros pr H. unfold openRelevantPrs in H.
  apply filter_In in H. destruct H as [H O].
  apply filter_In in H. destruct H as [_ R].
  apply String.eqb_eq in O. auto.
Qed.

Lemma append_inj_l (p a b : string) : p +++ a = p +++ b -> a = b.
Proof. induction p as [|c p IH]; simpl; [auto|]. intros E. inversion E. auto. Qed.

Lemma searchParamsFor_inj (cfg : Config) (a b : string) :
  Upgradelet.searchParamsFor cfg a = Upgradelet.searchParamsFor cfg b -> a = b.
Proof.
  unfold Upgradelet.searchParamsFor. intros E. inversion E as [E'].
  apply append_inj_l in E'. now apply (append_inj_l ":") in E'.
Qed.


Lemma openPrEntries_key (branches : list string)
  (prsForBranches : list (list IPullRequest)) (k : string) :
  In k (map fst (openPrEntries branches prsForBranches))
  <-> exists prsForBranch,
        In (k, prsForBranch) (combine branches prsForBranches)
        /\ openRelevantPrs prsForBranch <> [].
Proof.
  unfold openPrEntries. split.
  - intros H. apply in_map_iff in H. destruct H as ([k' prs] & <- & H).
    apply filter_In in H. destruct H as [H N].
    apply in_map_iff in H. destruct H as ([b resp] & E & Hc).
    cbn [fst snd] in *. inversion E; subst. exists resp. split; [exact Hc|].
    intros Z. rewrite Z in N. discriminate.
  - intros (resp & Hc & N). apply in_map_iff.
    exists (k, openRelevantPrs resp). split; [reflexivity|].
    apply filter_In. split.
    + apply in_map_iff. exists (k, resp). auto.
    + cbn [snd]. destruct (openRelevantPrs resp); [congruence | reflexivity].
Qed.

Lemma pullRequestQueries_In (cfg : Config) (branches : list string)
  (prsForBranches : list (list IPullRequest)) (k : string)
  (prsForBranch : list IPullRequest) :
  In (EGetPullRequests (Upgradelet.upstreamRepo cfg)
        (Upgradelet.searchParamsFor cfg k) (inr prsForBranch))
     (pullRequestQueries cfg branches prsForBranches)
  <-> In (k, prsForBranch) (combine branches prsForBranches).
Proof.
  unfold pullRequestQueries. split.
  - intros H. apply in_map_iff in H. destruct H as ([b resp] & E & Hc).
    cbn [fst snd] in E. inversion E as [[E1 E2]].
    apply (append_inj_l (owner (Upgradelet.originRepo cfg))) in E1.
    apply (append_inj_l ":") in E1. now subst.
  - intros H. apply in_map_iff. exists (k, prsForBranch). auto.
Qed.





(* ===================================================================== *)
(** ** Sha equivalence (C7, C9) *)
(* ===================================================================== *)

(** C7. [shasMatch] is reflexive and symmetric, and a Sha matches each of
    its abbreviations (a prefix of it, of smaller length) in both
    directions. *)
Theorem shasMatch_reflexive_symmetric (a b c : string) :
  Upgradelet.shasMatch a a = true
  /\ Upgradelet.shasMatch a b = Upgradelet.shasMatch b a
  /\ Upgradelet.shasMatch a (a +++ c) = true
  /\ Upgradelet.shasMatch (a +++ c) a = true.
Proof.
  unfold Upgradelet.shasMatch, JS.startsWith.
  repeat split.
  - now rewrite prefix_refl.
  - apply orb_comm.
  - rewrite (prefix_append a c). apply orb_true_r.
  - now rewrite (prefix_append a c).
Qed.

(** C9. The empty string matches every Sha, on either side; the detector
    then decides that no upgrade is needed, without asking for the
    affected files. *)
Theorem shasMatch_empty (cfg : Config) (W : World) (a : string) (h : History) :
  Upgradelet.shasMatch a "" = true
  /\ Upgradelet.shasMatch "" a = true
  /\ Upgradelet.checkNeedsUpgrade_decide cfg W a "" h = (inr false, [])
  /\ Upgradelet.checkNeedsUpgrade_decide cfg W "" a h = (inr false, []).
Proof.
  assert (E1 : Upgradelet.shasMatch a "" = true).
  { unfold Upgradelet.shasMatch, JS.startsWith. now rewrite prefix_empty. }
  assert (E2 : Upgradelet.shasMatch "" a = true).
  { unfold Upgradelet.shasMatch, JS.startsWith.
    rewrite (prefix_empty a). apply orb_true_r. }
  unfold Upgradelet.checkNeedsUpgrade_decide.
  rewrite E1, E2. repeat split; reflexivity.
Qed.

(* ===================================================================== *)
(** ** The git adapter after [destroy()] (C8, C10) *)
(* ===================================================================== *)

Lemma destroy_returns_destroyed (W : World) (this this' : GitRepo.t)
  (h : History) (es : list Event) :
  GitRepo.destroy W this h = (inr this', es) ->
  GitRepo.destroyed this' = true.
Proof.
  unfold GitRepo.destroy, bind, rm, call, ret.
  destruct (GitRepo.destroyed this) eqn:D; simpl.
  - intros E; inversion E; subst; exact D.
  - destruct (sh_rm W h "-rf" (GitRepo.directory this)); intros E;
      inversion E; reflexivity.
Qed.

Lemma execInRepo_closed (W : World) (this : GitRepo.t) (cmd : string)
  (opts : option ICommnandOptions) (h : History) :
  GitRepo.destroyed this = true ->
  GitRepo.execInRepo W this cmd opts h = closed_outcome W ExecOutput.
Proof. intros D. unfold GitRepo.execInRepo. now rewrite D. Qed.

(** C8. Once [destroy()] has returned, every other operation of the same
    instance throws the error 'Repository already destroyed.' and executes
    nothing: no command, no directory change, no log line. *)
Theorem operations_after_destroy_are_closed (W : World) (this this' : GitRepo.t)
  (h : History) (es : list Event) :
  GitRepo.destroy W this h = (inr this', es) ->
  forall (h' : History) (name url ref msg key value remote branch : string)
         (a1 a2 : Arg) (opts : option ICommnandOptions),
    GitRepo.addRemote W this' name url h' = closed_outcome W unit
    /\ GitRepo.fetch W this' remote a1 opts h' = closed_outcome W unit
    /\ GitRepo.checkout W this' ref opts h' = closed_outcome W unit
    /\ GitRepo.commit W this' msg opts h' = closed_outcome W unit
    /\ GitRepo.push W this' remote a1 a2 opts h' = closed_outcome W unit
    /\ GitRepo.getRemoteBranches W this' remote h' = closed_outcome W (list string)
    /\ GitRepo.config W this' key value h' = closed_outcome W unit
    /\ GitRepo.init W this' opts h' = closed_outcome W unit
    /\ GitRepo.deleteRemoteBranch W this' remote branch opts h' = closed_outcome W unit
    /\ GitRepo.currentBranch W this' h' = closed_outcome W string.
Proof.
  intros Hd h' name url ref msg key value remote branch a1 a2 opts.
  pose proof (destroy_returns_destroyed _ _ _ Hd) as D.
  assert (X : forall cmd o h0,
             GitRepo.execInRepo W this' cmd o h0 = closed_outcome W ExecOutput)
    by (intros; now apply execInRepo_closed).
  assert (Cur : forall h0, GitRepo.currentBranch W this' h0 = closed_outcome W string).
  { intros h0. unfold GitRepo.currentBranch, bind. now rewrite X. }
  repeat split.
  - unfold GitRepo.addRemote, bind. now rewrite X.
  - unfold GitRepo.fetch. destruct a1; unfold bind; now rewrite X.
  - unfold GitRepo.checkout, bind. now rewrite X.
  - unfold GitRepo.commit, bind. now rewrite X.
  - unfold GitRepo.push.
    destruct a1; [destruct a2 | |]; unfold bind at 1;
      try (unfold bind at 1; rewrite Cur; reflexivity).
    unfold ret at 1. simpl. unfold bind. now rewrite X.
  - unfold GitRepo.getRemoteBranches, GitRepo.fetch. simpl.
    unfold bind. now rewrite X.
  - unfold GitRepo.config, bind. now rewrite X.
  - unfold GitRepo.init, bind. now rewrite X.
  - unfold GitRepo.deleteRemoteBranch, GitRepo.push.
    unfold bind at 1. unfold ret at 1. simpl. unfold bind. now rewrite X.
  - apply Cur.
Qed.

(** C10. [destroy()] on a destroyed instance does nothing: it returns
    normally, removes nothing, and the instance stays destroyed. *)
Theorem destroy_is_idempotent (W : World) (this this' : GitRepo.t)
  (h : History) (es : list Event) :
  GitRepo.destroy W this h = (inr this', es) ->
  forall h' : History,
    GitRepo.destroy W this' h' = (inr this', [])
    /\ GitRepo.destroyed this' = true.
Proof.
  intros Hd h'.
  pose proof (destroy_returns_destroyed _ _ _ Hd) as D.
  split; [| exact D].
  unfold GitRepo.destroy. now rewrite D.
Qed.

(* ===================================================================== *)
(** ** The upgrade-need detector (C2) *)
(* ===================================================================== *)

Lemma retrieveShaFromAio_emits (cfg : Config) (W : World) (branch : string) :
  emits (fun e => is_affected_files_query e = false)
    (Upgradelet.retrieveShaFromAio cfg W branch).
Proof.
  unfold Upgradelet.retrieveShaFromAio. unfold_calls.
  repeat emits_step; reflexivity.
Qed.

Lemma retrieveShaFromCliBuilds_emits (cfg : Config) (W : World) (branch : string) :
  emits (fun e => is_affected_files_query e = false)
    (Upgradelet.retrieveShaFromCliBuilds cfg W branch).
Proof.
  unfold Upgradelet.retrieveShaFromCliBuilds. unfold_calls.
  repeat emits_step; reflexivity.
Qed.

(** The decision, once both Shas are known. *)
Lemma checkNeedsUpgrade_decide_run (cfg : Config) (W : World)
  (currentSha latestSha : string) (h : History) :
  Upgradelet.checkNeedsUpgrade_decide cfg W currentSha latestSha h
  = if Upgradelet.shasMatch currentSha latestSha then (inr false, [])
    else
      let r := gh_getAffectedFiles W h (Upgradelet.cliBuildsRepo cfg)
                 currentSha latestSha in
      (match r with
       | inl e => inl e
       | inr files => inr (existsb is_help_file files)
       end,
       [EGetAffectedFiles (Upgradelet.cliBuildsRepo cfg) currentSha latestSha r]).
Proof.
  unfold Upgradelet.checkNeedsUpgrade_decide.
  destruct (Upgradelet.shasMatch currentSha latestSha); [reflexivity|].
  cbn [negb]. unfold bind, getAffectedFiles, call, ret.
  destruct (gh_getAffectedFiles W h (Upgradelet.cliBuildsRepo cfg) currentSha latestSha);
    reflexivity.
Qed.

(** C2. [checkNeedsUpgrade] reads the current Sha, then the latest one,
    and fails where either read fails. With both Shas, if one is a prefix
    of the other it returns [needsUpgrade = false] without a file-diff
    query. Otherwise it asks the hosting system, once and last, for the
    files changed between the two; it fails if that query fails, and else
    returns the two Shas with [needsUpgrade] true exactly when the answer
    has a file whose name starts with [help/]. *)
Theorem checkNeedsUpgrade_decision (cfg : Config) (W : World) (branch : string)
  (h : History) :
  let run := Upgradelet.checkNeedsUpgrade cfg W branch h in
  match Upgradelet.retrieveShaFromAio cfg W branch h with
  | (inl e, es1) => run = (inl e, es1)
  | (inr currentSha, es1) =>
      match Upgradelet.retrieveShaFromCliBuilds cfg W branch (h ++ es1) with
      | (inl e, es2) => run = (inl e, es1 ++ es2)
      | (inr latestSha, es2) =>
          let answer :=
            gh_getAffectedFiles W (h ++ es1 ++ es2) (Upgradelet.cliBuildsRepo cfg)
              currentSha latestSha in
          Forall (fun e => is_affected_files_query e = false) (es1 ++ es2)
          /\ if (String.prefix latestSha currentSha
                 || String.prefix currentSha latestSha)%bool
             then
               run = (inr (Upgradelet.mkCheck currentSha latestSha false), es1 ++ es2)
             else
               snd run
               = es1 ++ es2
                 ++ [EGetAffectedFiles (Upgradelet.cliBuildsRepo cfg) currentSha
                       latestSha answer]
               /\ match answer with
                  | inl e => fst run = inl e
                  | inr affectedFiles =>
                      exists needsUpgrade,
                        fst run
                        = inr (Upgradelet.mkCheck currentSha latestSha needsUpgrade)
                        /\ (needsUpgrade = true
                            <-> exists file,
                                  In file affectedFiles
                                  /\ String.prefix "help/" (filename file) = true)
                  end
      end
  end.
Proof.
  intros run. subst run. unfold Upgradelet.checkNeedsUpgrade.
  destruct (Upgradelet.retrieveShaFromAio cfg W branch h) as [[e|cur] es1] eqn:E1.
  { exact (bind_err _ _ _ E1). }
  rewrite (bind_ok _ _ _ E1).
  destruct (Upgradelet.retrieveShaFromCliBuilds cfg W branch (h ++ es1))
    as [[e|lat] es2] eqn:E2.
  { rewrite (bind_err _ _ _ E2). reflexivity. }
  rewrite (bind_ok _ _ _ E2). rewrite after_after.
  pose proof (emits_run _ (retrieveShaFromAio_emits cfg W branch) E1) as F1.
  pose proof (emits_run _ (retrieveShaFromCliBuilds_emits cfg W branch) E2) as F2.
  cbv zeta. split; [now apply Forall_app|].
  unfold bind. rewrite checkNeedsUpgrade_decide_run.
  change (String.prefix lat cur || String.prefix cur lat)%bool
    with (Upgradelet.shasMatch cur lat).
  rewrite <- app_assoc.
  destruct (Upgradelet.shasMatch cur lat).
  - unfold ret, after. cbn [fst snd]. now rewrite !app_nil_r.
  - cbv zeta.
    destruct (gh_getAffectedFiles W (h ++ es1 ++ es2) (Upgradelet.cliBuildsRepo cfg)
                cur lat) as [e|files].
    + unfold after. cbn [fst snd]. split; [now rewrite <- app_assoc | reflexivity].
    + unfold ret, after. cbn [fst snd]. rewrite app_nil_r.
      split; [now rewrite <- app_assoc|].
      exists (existsb is_help_file files). split; [reflexivity|].
      rewrite existsb_exists. reflexivity.
Qed.

(* ===================================================================== *)
(** ** The order of the steps (C5) *)
(* ===================================================================== *)


(* ===================================================================== *)
(** ** An open pull request for the latest Sha exists (C1) *)
(* ===================================================================== *)

(** C1, amended. In a run where the automation branch for [latestSha] is
    a key of the branch-to-open-PR map, nothing is new work (no [git
    checkout], no change to the tracked file, no [git commit], no pull
    request), and the only [git push] commands are the deletions
    [git push origin :branch] of branches without open pull request, which
    come before the check. The open pull requests of that branch are the
    open relevant ones the hosting system reported for it, at least one.
    If the deletions go through, the run returns normally right after the
    log line that lists them; if one of them throws, the run fails with
    that error and reports nothing. *)
Theorem existing_pr_stops_the_run (cfg : Config) (W : World) (ob : option string)
  (h : History) res localRepo relevantBranches openPrsPerBranch pre :
  let branch := Upgradelet.branchArg cfg ob in
  let localBranch := Upgradelet.localBranchFor branch (Upgradelet.latestSha res) in
  let obsolete :=
    branchesWithoutOpenPrs relevantBranches (JS.map_keys openPrsPerBranch) in
  discovered cfg W branch h res localRepo relevantBranches openPrsPerBranch pre ->
  JS.includes (JS.map_keys openPrsPerBranch) localBranch = true ->
  exists existingPrs rc dels,
    JS.map_get openPrsPerBranch localBranch = Some existingPrs
    /\ existingPrs <> []
    /\ Forall (fun pr => state pr = "open"
                 /\ JS.startsWith (title pr) Upgradelet.COMMIT_MESSAGE_PREFIX = true)
         existingPrs
    /\ (exists prsForBranch,
          In (EGetPullRequests (Upgradelet.upstreamRepo cfg)
                (Upgradelet.searchParamsFor cfg localBranch) (inr prsForBranch)) pre
          /\ existingPrs = openRelevantPrs prsForBranch)
    /\ Upgradelet.cleanupObsoleteBranches W localRepo relevantBranches
         (JS.map_keys openPrsPerBranch) (h ++ pre) = (rc, dels)
    /\ Forall (fun e => is_new_work e = false
                        \/ exists b r, In b obsolete /\ e = EExec (deleteCmd b) r)
         (snd (Upgradelet.checkAndUpgrade cfg W ob h))
    /\ (rc = inr tt ->
        Upgradelet.checkAndUpgrade cfg W ob h
        = (inr tt,
           pre ++ dels ++ [existingPrsReport (Upgradelet.latestSha res) existingPrs]))
    /\ (forall err, rc = inl err ->
        fst (Upgradelet.checkAndUpgrade cfg W ob h) = inl err
        /\ Forall (fun e => is_existing_pr_report e = false)
             (snd (Upgradelet.checkAndUpgrade cfg W ob h))).
Proof.
  intros branch localBranch obsolete Hd Hinc.
  destruct (map_get_includes _ _ Hinc) as (prs & G & Hin).
  destruct (discovered_map Hd) as (resps & before & L & Hm & Hpre).
  destruct (openPrsPerBranch_facts cfg relevantBranches resps L) as (_ & _ & Hv).
  rewrite <- Hm in Hv. destruct (Hv _ _ Hin) as (Hne & resp & Hq & Hprs).
  destruct (Upgradelet.cleanupObsoleteBranches W localRepo relevantBranches
              (JS.map_keys openPrsPerBranch) (h ++ pre)) as [rc dels] eqn:Ec.
  exists prs, rc, dels.
  split; [exact G|]. split; [exact Hne|].
  split; [rewrite Hprs; apply openRelevantPrs_are|].
  split.
  { exists resp. split; [|exact Hprs]. rewrite Hpre. apply in_or_app. now right. }
  split; [reflexivity|].
  rewrite checkAndUpgrade_discovered with (1 := Hd).
  rewrite reconcile_run with (1 := Ec). rewrite after_after.
  destruct (discovered_facts Hd) as (_ & _ & Fp).
  destruct (cleanup_run Hd Ec) as (Fd & _ & _). fold obsolete in Fd.
  assert (Fpd : Forall (fun e => is_new_work e = false
                   \/ exists b r, In b obsolete /\ e = EExec (deleteCmd b) r)
                  (pre ++ dels)).
  { apply Forall_app. split.
    - eapply Forall_impl; [| exact Fp]. intros e He.
      apply preparation_is_no_new_work in He. tauto.
    - eapply Forall_impl; [| exact Fd]. intros e [He|He]; [| now right].
      apply bookkeeping_is_no_new_work in He. tauto. }
  assert (Run : try_catch
            (Upgradelet.checkAndUpgrade_checkExisting cfg W localRepo branch
               (Upgradelet.currentSha res) (Upgradelet.latestSha res) openPrsPerBranch)
            (Upgradelet.checkAndUpgrade_catch cfg W) ((h ++ pre) ++ dels)
          = (inr tt, [existingPrsReport (Upgradelet.latestSha res) prs])).
  { unfold Upgradelet.checkAndUpgrade_checkExisting.
    fold localBranch. rewrite Hinc, G. reflexivity. }
  split; [|split].
  - apply after_emits; [exact Fpd|].
    destruct rc as [e|[]].
    + eapply Forall_impl; [| apply checkAndUpgrade_catch_emits].
      intros ev He. apply error_handling_is_no_new_work in He. tauto.
    + fold branch. rewrite Run. cbn [snd]. constructor; [now left | constructor].
  - intros ->. fold branch. rewrite Run. unfold after; cbn [fst snd].
    now rewrite <- app_assoc.
  - intros err ->. split.
    + unfold after. cbn [fst]. apply checkAndUpgrade_catch_rethrows.
    + apply after_emits.
      * apply Forall_app. split.
        -- eapply Forall_impl; [| exact Fp]. intros e He.
           apply preparation_is_no_new_work in He. tauto.
        -- eapply Forall_impl; [| exact Fd].
           intros e [He | (b & r & _ & ->)]; [|reflexivity].
           apply bookkeeping_is_no_new_work in He. tauto.
      * eapply Forall_impl; [| apply checkAndUpgrade_catch_emits].
        intros ev He. apply error_handling_is_no_new_work in He. tauto.
Qed.

(* ===================================================================== *)
(** ** A deletion that fails (C3) *)
(* ===================================================================== *)



(* ===================================================================== *)
(** ** Superceded pull requests (C6) *)
(* ===================================================================== *)

Lemma filter_none {A} (f : A -> bool) (l : list A) :
  Forall (fun x => f x = false) l -> filter f l = [].
Proof.
  induction 1 as [|x l Hx _ IH]; [reflexivity|]. simpl. now rewrite Hx.
Qed.

Lemma filter_all {A} (f : A -> bool) (l : list A) :
  Forall (fun x => f x = true) l -> filter f l = l.
Proof.
  induction 1 as [|x l Hx _ IH]; [reflexivity|]. simpl. now rewrite Hx, IH.
Qed.

Ltac no_hosting_write :=
  repeat emits_step; try reflexivity.

Lemma createLocalBranch_quiet (cfg : Config) (W : World) (localRepo : GitRepo.t)
  (localBranch branch : string) :
  emits (fun e => negb (is_hosting_write e) = true)
    (Upgradelet.createLocalBranch cfg W localRepo localBranch branch).
Proof.
  unfold Upgradelet.createLocalBranch. unfold_git. unfold_calls.
  no_hosting_write.
Qed.

Lemma makeChanges_quiet (cfg : Config) (W : World) (localRepo : GitRepo.t)
  (currentSha latestSha : string) :
  emits (fun e => negb (is_hosting_write e) = true)
    (Upgradelet.makeChanges cfg W localRepo currentSha latestSha).
Proof.
  unfold Upgradelet.makeChanges. unfold_calls. no_hosting_write.
Qed.

Lemma commitAndPush_quiet (W : World) (localRepo : GitRepo.t) (commitMsg : string) :
  emits (fun e => negb (is_hosting_write e) = true)
    (Upgradelet.commitAndPush W localRepo commitMsg).
Proof.
  unfold Upgradelet.commitAndPush. unfold_git. unfold_calls. cbn [as_opts].
  no_hosting_write.
Qed.

Lemma destroy_quiet (W : World) (localRepo : GitRepo.t) :
  emits (fun e => negb (is_hosting_write e) = true) (GitRepo.destroy W localRepo).
Proof.
  unfold GitRepo.destroy. unfold_calls. no_hosting_write.
Qed.

(** A successful [submitPullRequest]: the pull request is created, then
    labelled (a failure to label is logged and ignored). *)
Lemma submitPullRequest_run (cfg : Config) (W : World)
  (originBranch upstreamBranch title : string) (h : History) newPr es :
  Upgradelet.submitPullRequest cfg W originBranch upstreamBranch title h
  = (inr newPr, es) ->
  exists r,
    filter is_hosting_write es
    = [ECreatePullRequest (Upgradelet.upstreamRepo cfg)
         (owner (Upgradelet.originRepo cfg) +++ ":" +++ originBranch)
         upstreamBranch title (inr newPr);
       EAddLabels (Upgradelet.upstreamRepo cfg) (number newPr)
         Upgradelet.PR_LABELS r].
Proof.
  unfold Upgradelet.submitPullRequest, Upgradelet.ignoreError.
  unfold_calls. unfold bind, try_catch, call, emit, ret.
  match goal with |- context [gh_createPullRequest W ?h0 ?a ?b ?c ?d] =>
    destruct (gh_createPullRequest W h0 a b c d) as [e|pr] eqn:C end;
    [discriminate|].
  cbn [app].
  match goal with |- context [gh_addLabels W ?h0 ?a ?b ?c] =>
    destruct (gh_addLabels W h0 a b c) as [e|[]] eqn:L end;
    cbn [app]; intros E; inversion E; subst; eexists; reflexivity.
Qed.

(** The comments: one call per superceded pull request, in order, each
    with the text that names the new pull request; together they fail
    when one of them does. *)
Lemma promise_all_comments (W : World) (repo : GithubRepo) (text : string)
  (prs : list IPullRequest) :
  forall h,
    let run := promise_all (map (fun pr => comment W repo (number pr) text) prs) h in
    Forall2 (fun pr e => exists r, e = EComment repo (number pr) text r)
      prs (snd run)
    /\ match fst run with
       | inr _ =>
           Forall (fun e => exists n, e = EComment repo n text (inr tt)) (snd run)
       | inl err => exists n, In (EComment repo n text (inl err)) (snd run)
       end.
Proof.
  induction prs as [|pr prs IH]; intros h; cbn [map promise_all].
  - simpl. split; constructor.
  - cbn zeta.
    assert (G : comment W repo (number pr) text h
                = (gh_comment W h repo (number pr) text,
                   [EComment repo (number pr) text (gh_comment W h repo (number pr) text)]))
      by reflexivity.
    rewrite G.
    specialize (IH (h ++ [EComment repo (number pr) text
                            (gh_comment W h repo (number pr) text)])).
    cbn zeta in IH.
    destruct (promise_all (map (fun pr => comment W repo (number pr) text) prs)
                (h ++ [EComment repo (number pr) text
                         (gh_comment W h repo (number pr) text)]))
      as [rs es'].
    cbn [fst snd app] in *. destruct IH as [F2 Hr]. split.
    + constructor; [eauto | exact F2].
    + destruct (gh_comment W h repo (number pr) text) as [e|[]].
      * exists (number pr). now left.
      * destruct rs as [e|l].
        -- destruct Hr as [n Hn]. exists n. now right.
        -- constructor; [eauto | exact Hr].
Qed.

Lemma supercededPrsOf_concat (m : JS.Map (list IPullRequest)) :
  Upgradelet.supercededPrsOf m = concat (map snd m).
Proof.
  unfold Upgradelet.supercededPrsOf, JS.map_values.
  assert (G : forall (l : list (list IPullRequest)) acc,
             fold_left (fun aggr prs => aggr ++ prs) l acc = acc ++ concat l).
  { induction l as [|x l IH]; intros acc; simpl.
    - now rewrite app_nil_r.
    - now rewrite IH, app_assoc. }
  apply G.
Qed.

(** C6. In a run that has created the new pull request, the
    branch-to-open-PR map was collected from the answers of the hosting
    system for the relevant branches, and the superceded pull requests
    are the values of the map, one after the other. Every one of them
    gets one comment, 'Superceded by #N.' with N the number of the new
    pull request, in order; when a comment fails, the error is logged as
    a warning; either way the run returns normally. The only calls of the
    whole run that change anything in the hosting system are the creation
    of the new pull request, its labelling, and these comments: no pull
    request is closed. *)
Theorem superceded_prs_are_commented_not_closed (cfg : Config) (W : World)
  (ob : option string) (h : History)
  res localRepo relevantBranches openPrsPerBranch newPr sofar :
  let branch := Upgradelet.branchArg cfg ob in
  let latestSha := Upgradelet.latestSha res in
  let supercededPrs := concat (map snd openPrsPerBranch) in
  let upstream := Upgradelet.upstreamRepo cfg in
  submitted cfg W branch h res localRepo relevantBranches openPrsPerBranch newPr sofar ->
  collected cfg W h relevantBranches openPrsPerBranch sofar
  /\ exists comments warnings closing labelled,
    Upgradelet.checkAndUpgrade cfg W ob h
    = (inr tt, sofar ++ comments ++ warnings ++ closing)
    /\ Forall2 (fun pr e =>
                  exists r, e = EComment upstream (number pr) (supercededComment newPr) r)
         supercededPrs comments
    /\ ((Forall (fun e => exists n,
                   e = EComment upstream n (supercededComment newPr) (inr tt)) comments
         /\ warnings = [])
        \/ exists err n,
             In (EComment upstream n (supercededComment newPr) (inl err)) comments
             /\ warnings = [ELogWarn err])
    /\ filter is_hosting_write (sofar ++ comments ++ warnings ++ closing)
       = ECreatePullRequest upstream
           (owner (Upgradelet.originRepo cfg) +++ ":"
            +++ Upgradelet.localBranchFor branch latestSha)
           branch (Upgradelet.commitMsgSubjectFor latestSha) (inr newPr)
         :: EAddLabels upstream (number newPr) Upgradelet.PR_LABELS labelled
         :: comments.
Proof.
  cbv zeta. intros Hs.
  destruct Hs
    as (pre & dels & es5 & es6 & es7 & es8 & Hd & Ec & Hinc & E5 & E6 & E7 & E8 & ->).
  split; [exact (discovered_collected (dels ++ es5 ++ es6 ++ es7 ++ es8) Hd)|].
  rewrite supercededPrsOf_concat in E7.
  set (branch := Upgradelet.branchArg cfg ob) in *.
  set (latestSha := Upgradelet.latestSha res) in *.
  set (supercededPrs := concat (map snd openPrsPerBranch)) in *.
  set (upstream := Upgradelet.upstreamRepo cfg) in *.
  rewrite checkAndUpgrade_discovered with (1 := Hd).
  rewrite reconcile_run with (1 := Ec). rewrite after_after.
  unfold Upgradelet.checkAndUpgrade_checkExisting.
  fold branch latestSha. rewrite Hinc.
  unfold Upgradelet.checkAndUpgrade_submit.
  rewrite supercededPrsOf_concat.
  fold branch latestSha supercededPrs.
  norm_hist.
  rewrite (try_catch_bind_ok _ _ _ _ E5). norm_hist.
  rewrite (try_catch_bind_ok _ _ _ _ E6). norm_hist.
  rewrite (try_catch_bind_ok _ _ _ _ E7). norm_hist.
  rewrite (try_catch_bind_ok _ _ _ _ E8). norm_hist.
  set (h1 := h ++ pre ++ dels ++ es5 ++ es6 ++ es7 ++ es8).
  rewrite (try_catch_bind_ok _ _ _ _ (ignoreError_run _ h1)).
  set (cs := snd (Upgradelet.ignoreError
                    (Upgradelet.commentOnSupercededPrs cfg W supercededPrs newPr) h1)).
  rewrite (try_catch_bind_ok _ _ _ _ (ignoreError_run _ (h1 ++ cs))).
  set (ds := snd (Upgradelet.ignoreError (GitRepo.destroy W localRepo) (h1 ++ cs))).
  unfold logger_info at 1. unfold try_catch at 1. rewrite emit_run.
  rewrite !after_after. unfold after. cbn [fst snd].
  (* the comments *)
  pose proof (promise_all_comments W upstream (supercededComment newPr)
                supercededPrs h1) as Hc.
  cbn zeta in Hc.
  assert (Hcs : cs = snd (promise_all
                     (map (fun pr => comment W upstream (number pr)
                                       (supercededComment newPr)) supercededPrs) h1)
                   ++ match fst (promise_all
                     (map (fun pr => comment W upstream (number pr)
                                       (supercededComment newPr)) supercededPrs) h1) with
                      | inl err => [ELogWarn err]
                      | inr _ => []
                      end).
  { unfold cs, Upgradelet.ignoreError, Upgradelet.commentOnSupercededPrs.
    fold (supercededComment newPr). fold upstream.
    unfold try_catch, bind, ret, logger_warn, emit.
    destruct (promise_all _ h1) as [[e|l] es0]; cbn [fst snd];
      now rewrite ?app_nil_r. }
  destruct (promise_all
              (map (fun pr => comment W upstream (number pr)
                                (supercededComment newPr)) supercededPrs) h1)
    as [rc comments] eqn:Pc.
  cbn [fst snd] in Hc, Hcs. destruct Hc as [F2 Hrc].
  (* what the earlier steps and the closing ones write to the hosting system *)
  destruct (discovered_facts Hd) as (_ & _ & Fp).
  destruct (cleanup_run Hd Ec) as (Fd & _ & _).
  destruct (submitPullRequest_run _ _ _ _ _ _ E8) as [labelled Hw8].
  assert (Q : forall l, Forall (fun e => negb (is_hosting_write e) = true) l ->
                        filter is_hosting_write l = []).
  { intros l Hl. apply filter_none. eapply Forall_impl; [| exact Hl].
    intros e He. now apply negb_true_iff in He. }
  assert (W0 : filter is_hosting_write pre = []).
  { apply filter_none. eapply Forall_impl; [| exact Fp]. intros e He.
    apply preparation_is_no_new_work in He. tauto. }
  assert (W1 : filter is_hosting_write dels = []).
  { apply filter_none. eapply Forall_impl; [| exact Fd].
    intros e [He | (b & r & _ & ->)]; [| reflexivity].
    apply bookkeeping_is_no_new_work in He. tauto. }
  assert (W5 : filter is_hosting_write es5 = [])
    by (apply Q; eapply emits_run; [apply createLocalBranch_quiet | exact E5]).
  assert (W6 : filter is_hosting_write es6 = [])
    by (apply Q; eapply emits_run; [apply makeChanges_quiet | exact E6]).
  assert (W7 : filter is_hosting_write es7 = [])
    by (apply Q; eapply emits_run; [apply commitAndPush_quiet | exact E7]).
  assert (Wc : filter is_hosting_write comments = comments).
  { apply filter_all. clear - F2. induction F2 as [|pr e prs es0 [r ->] _ IH];
      constructor; auto. }
  assert (Wd : filter is_hosting_write ds = []).
  { apply Q. unfold ds, Upgradelet.ignoreError.
    apply (emits_try_catch (P := fun e => negb (is_hosting_write e) = true)).
    - apply emits_bind; [apply destroy_quiet | intros; apply emits_ret].
    - intros e. apply emits_emit. reflexivity. }
  exists comments,
    (match rc with inl err => [ELogWarn err] | inr _ => [] end),
    (ds ++ [ELogInfo ("Upgrade completed successfully \o/ | PR: #"
                       +++ JS.of_number (number newPr) +++ " ("
                       +++ html_url newPr +++ ")")]),
    labelled.
  split; [| split; [exact F2 | split]].
  - rewrite Hcs. f_equal. now rewrite <- !app_assoc.
  - destruct rc as [err|l].
    + right. destruct Hrc as [n Hn]. exists err, n. auto.
    + left. auto.
  - rewrite !filter_app, W0, W1, W5, W6, W7, Hw8, Wc, Wd.
    destruct rc; cbn [filter is_hosting_write app]; now rewrite ?app_nil_r.
Qed.

(* ===================================================================== *)
(** ** The commit message (C4) *)
(* ===================================================================== *)

Lemma string_forall_app (f : ascii -> bool) (a b : string) :
  string_forall f (a +++ b) = string_forall f a && string_forall f b.
Proof. induction a as [|c a IH]; simpl; [reflexivity|]. now rewrite IH, andb_assoc. Qed.

Lemma string_forall_impl (f g : ascii -> bool) (s : string) :
  (forall c, f c = true -> g c = true) ->
  string_forall f s = true -> string_forall g s = true.
Proof.
  intros H. induction s as [|c s IH]; simpl; [reflexivity|].
  intros E. apply andb_true_iff in E. destruct E as [E1 E2].
  now rewrite (H _ E1), IH.
Qed.



(** *** Decimal numbers *)






(** *** Trimming *)

Lemma trimEnd_plain (s : string) :
  string_forall not_space s = true -> JS.trimEnd s = s.
Proof.
  induction s as [|c s IH]; [reflexivity|].
  cbn [string_forall]. intros E. apply andb_true_iff in E. destruct E as [E1 E2].
  rewrite trimEnd_cons_nonspace; [now rewrite IH|].
  unfold not_space in E1. now apply negb_true_iff in E1.
Qed.

Lemma trimEnd_app_plain (a s : string) :
  string_forall not_space s = true -> s <> "" -> JS.trimEnd (a +++ s) = a +++ s.
Proof.
  intros P N. rewrite trimEnd_app; rewrite trimEnd_plain; auto.
Qed.

Lemma trimEnd_spaces (w : string) :
  string_forall JS.is_space w = true -> JS.trimEnd w = "".
Proof.
  induction w as [|c w IH]; [reflexivity|].
  cbn [string_forall]. intros E. apply andb_true_iff in E. destruct E as [E1 E2].
  simpl. now rewrite IH, E1.
Qed.

Lemma trimEnd_app_spaces (a w : string) :
  string_forall JS.is_space w = true -> JS.trimEnd (a +++ w) = JS.trimEnd a.
Proof.
  intros Hw. induction a as [|c a IH]; simpl.
  - rewrite trimEnd_spaces; auto.
  - now rewrite IH.
Qed.

Lemma trimStart_head (c : ascii) (s : string) :
  JS.is_space c = false -> JS.trimStart (String c s) = String c s.
Proof. intros H. simpl. now rewrite H. Qed.

(** *** Splitting into lines *)






(** *** The message *)







(** *** Which commit is made *)




(** *** No pull request twice *)













(* ===================================================================== *)
(** ** Concrete runs *)
(* ===================================================================== *)

Ltac run_eq := vm_compute; reflexivity.

Ltac sample_discovered :=
  unfold discovered; do 5 eexists;
  split; [run_eq|]; split; [reflexivity|]; split; [run_eq|]; split; [run_eq|];
  split; [run_eq|]; split; [run_eq|]; run_eq.

Ltac sample_submitted :=
  unfold submitted; cbv zeta; do 6 eexists;
  split; [sample_discovered|]; split; [run_eq|]; split; [run_eq|];
  split; [run_eq|]; split; [run_eq|]; split; [run_eq|]; split; [run_eq|]; run_eq.

(** The current Sha abbreviates the latest one: no upgrade, no query. *)
Example abbreviated_sha_needs_no_upgrade :
  Upgradelet.shasMatch "abc1234" "abc1234567" = true
  /\ Upgradelet.checkNeedsUpgrade_decide sample_cfg (sample_world [] [] [])
       "abc1234" "abc1234567" [] = (inr false, []).
Proof. split; reflexivity. Qed.

(** Two stale automation branches, one with the open pull request #10 and
    one with none: only the second is deleted, the commit closes #10, and
    #10 is commented on. *)
Example two_stale_branches_run :
  let run := Upgradelet.checkAndUpgrade sample_cfg
               (sample_world two_stale_branches [] []) None [] in
  let subject := "build(docs-infra): upgrade cli command docs sources to bbb222233" in
  let upstream := Upgradelet.upstreamRepo sample_cfg in
  fst run = inr tt
  /\ exec_cmds (snd run)
     = ["git init";
        "git remote remove origin || true";
        "git remote add origin https://github.com/ngx-bot/angular.git";
        "git remote remove upstream || true";
        "git remote add upstream https://github.com/angular/angular.git";
        "git fetch origin --depth 1 --no-tags";
        "git branch --remote";
        "git push origin :upgrade-cli-src--master--ddd4444";
        "git fetch upstream master --depth 1";
        "git checkout FETCH_HEAD -b upgrade-cli-src--master--bbb222233";
        commitCmd (subject +++ JS.LF +++ JS.LF +++ "Closes #10");
        "git fetch origin --unshallow";
        "git rev-parse --abbrev-ref HEAD";
        "git push origin upgrade-cli-src--master--bbb222233:upgrade-cli-src--master--bbb222233 --force"]
  /\ filter is_hosting_write (snd run)
     = [ECreatePullRequest upstream "ngx-bot:upgrade-cli-src--master--bbb222233"
          "master" subject
          (inr (mkPr 11 "https://github.com/angular/angular/pull/11" subject "open"));
        EAddLabels upstream 11 Upgradelet.PR_LABELS (inr tt);
        EComment upstream 10 "Superceded by #11." (inr tt)].
Proof. vm_compute. repeat split; reflexivity. Qed.

(** The detector on the sample world: the Shas differ and [help/foo.md]
    changed, so an upgrade is needed; with only [README.md] changed none
    would be. *)
Lemma checkNeedsUpgrade_decision_witness :
  let W := sample_world two_stale_branches [] [] in
  let run := Upgradelet.checkNeedsUpgrade sample_cfg W "master" [] in
  exists es1 es2 needsUpgrade,
    snd run
    = es1 ++ es2
      ++ [EGetAffectedFiles (Upgradelet.cliBuildsRepo sample_cfg) "aaa1111" "bbb222233"
            (inr [mkFile "README.md"; mkFile "help/foo.md"])]
    /\ fst run = inr (Upgradelet.mkCheck "aaa1111" "bbb222233" needsUpgrade)
    /\ (needsUpgrade = true
        <-> exists file,
              In file [mkFile "README.md"; mkFile "help/foo.md"]
              /\ String.prefix "help/" (filename file) = true).
Proof.
  cbv zeta.
  pose proof (checkNeedsUpgrade_decision sample_cfg
                (sample_world two_stale_branches [] []) "master" []) as D.
  cbv zeta in D.
  destruct (Upgradelet.retrieveShaFromAio sample_cfg
              (sample_world two_stale_branches [] []) "master" [])
    as [[e|cur] es1] eqn:E1; [vm_compute in E1; discriminate|].
  assert (C : cur = "aaa1111") by (vm_compute in E1; congruence).
  subst cur.
  destruct (Upgradelet.retrieveShaFromCliBuilds sample_cfg
              (sample_world two_stale_branches [] []) "master" ([] ++ es1))
    as [[e|lat] es2] eqn:E2.
  { exfalso. clear D. revert E2. vm_compute in E1. injection E1 as <-.
    vm_compute. discriminate. }
  assert (L : lat = "bbb222233").
  { clear D. revert E2. vm_compute in E1. injection E1 as <-.
    vm_compute. congruence. }
  subst lat.
  destruct D as [_ D]. cbn [String.prefix orb] in D.
  change (String.prefix "bbb222233" "aaa1111" || String.prefix "aaa1111" "bbb222233")%bool
    with false in D.
  destruct D as [D1 D2].
  change (gh_getAffectedFiles (sample_world two_stale_branches [] []) _ _ _ _)
    with (@inr exn _ [mkFile "README.md"; mkFile "help/foo.md"]) in D1, D2.
  destruct D2 as (needsUpgrade & D2 & D3).
  exists es1, es2, needsUpgrade. split; [exact D1|]. split; [exact D2 | exact D3].
Defined.

(** [destroy()] on a fresh working copy, then every other operation. *)
Lemma operations_after_destroy_are_closed_witness :
  let W := sample_world [] [] [] in
  let this := GitRepo.new "/tmp/angular" in
  let this' := GitRepo.mk "/tmp/angular" true in
  GitRepo.destroy W this [] = (inr this', [ERm "-rf" "/tmp/angular" (inr tt)])
  /\ GitRepo.addRemote W this' "origin" "url" [] = closed_outcome W unit
  /\ GitRepo.fetch W this' "origin" AUndef None [] = closed_outcome W unit
  /\ GitRepo.checkout W this' "FETCH_HEAD" None [] = closed_outcome W unit
  /\ GitRepo.commit W this' "message" None [] = closed_outcome W unit
  /\ GitRepo.push W this' "origin" AUndef AUndef None [] = closed_outcome W unit
  /\ GitRepo.getRemoteBranches W this' "origin" [] = closed_outcome W (list string)
  /\ GitRepo.config W this' "user.name" "bot" [] = closed_outcome W unit
  /\ GitRepo.init W this' None [] = closed_outcome W unit
  /\ GitRepo.deleteRemoteBranch W this' "origin" "branch" None []
     = closed_outcome W unit
  /\ GitRepo.currentBranch W this' [] = closed_outcome W string.
Proof.
  intros W this this'.
  assert (E : GitRepo.destroy W this []
              = (inr this', [ERm "-rf" "/tmp/angular" (inr tt)])) by reflexivity.
  split; [exact E|].
  exact (operations_after_destroy_are_closed _ _ _ E [] "origin" "url" "FETCH_HEAD"
           "message" "user.name" "bot" "origin" "branch" AUndef AUndef None).
Defined.

(** [destroy()] twice. *)
Lemma destroy_is_idempotent_witness :
  let W := sample_world [] [] [] in
  let this := GitRepo.new "/tmp/angular" in
  let this' := GitRepo.mk "/tmp/angular" true in
  GitRepo.destroy W this [] = (inr this', [ERm "-rf" "/tmp/angular" (inr tt)])
  /\ GitRepo.destroy W this' [ERm "-rf" "/tmp/angular" (inr tt)] = (inr this', [])
  /\ GitRepo.destroyed this' = true.
Proof.
  intros W this this'.
  assert (E : GitRepo.destroy W this []
              = (inr this', [ERm "-rf" "/tmp/angular" (inr tt)])) by reflexivity.
  split; [exact E|].
  exact (destroy_is_idempotent _ _ _ E [ERm "-rf" "/tmp/angular" (inr tt)]).
Defined.

(** C1 does not hold as stated. The automation branch for the latest Sha
    is on origin with the open pull request #12, so it is a key of the
    map, and another automation branch has no pull request. The obsolete
    branch is deleted before the check, by a push. When that deletion
    fails the run does not return after a report: it fails with the error
    of the deletion and the open pull request is never reported. When it
    goes through, the run reports the pull request and returns, and it
    has pushed: the deletion is [git push origin :branch]. *)
Lemma existing_pr_is_not_reported_after_failed_cleanup :
  let localBranch := "upgrade-cli-src--master--bbb222233" in
  let obsolete := "upgrade-cli-src--master--ddd4444" in
  let failing := sample_world latest_already_submitted [deleteCmd obsolete] [] in
  let passing := sample_world latest_already_submitted [] [] in
  let failed := Upgradelet.checkAndUpgrade sample_cfg failing None [] in
  let passed := Upgradelet.checkAndUpgrade sample_cfg passing None [] in
  (exists res localRepo relevantBranches openPrsPerBranch pre,
      discovered sample_cfg failing "master" [] res localRepo relevantBranches
        openPrsPerBranch pre
      /\ Upgradelet.localBranchFor "master" (Upgradelet.latestSha res) = localBranch
      /\ JS.includes (JS.map_keys openPrsPerBranch) localBranch = true)
  /\ fst failed = inl (sample_error ("exec: " +++ deleteCmd obsolete))
  /\ existsb is_existing_pr_report (snd failed) = false
  /\ fst passed = inr tt
  /\ existsb is_existing_pr_report (snd passed) = true
  /\ filter (fun cmd => String.eqb (git_verb cmd) "push") (exec_cmds (snd passed))
     = [deleteCmd obsolete].
Proof.
  cbv zeta. split.
  - do 5 eexists.
    match goal with |- ?D /\ _ => assert (Hd : D) by sample_discovered end.
    split; [exact Hd|]. split; vm_compute; reflexivity.
  - vm_compute. repeat split; reflexivity.
Qed.

(** A run in which the automation branch for the latest Sha has the open
    pull request #12. *)
Lemma existing_pr_stops_the_run_witness :
  let cfg := sample_cfg in
  let W := sample_world latest_already_submitted [] [] in
  exists res localRepo relevantBranches openPrsPerBranch pre,
    let localBranch := Upgradelet.localBranchFor "master" (Upgradelet.latestSha res) in
    let obsolete :=
      branchesWithoutOpenPrs relevantBranches (JS.map_keys openPrsPerBranch) in
    discovered cfg W "master" [] res localRepo relevantBranches openPrsPerBranch pre
    /\ JS.includes (JS.map_keys openPrsPerBranch) localBranch = true
    /\ exists existingPrs rc dels,
         JS.map_get openPrsPerBranch localBranch = Some existingPrs
         /\ existingPrs <> []
         /\ Forall (fun pr => state pr = "open"
                      /\ JS.startsWith (title pr) Upgradelet.COMMIT_MESSAGE_PREFIX = true)
              existingPrs
         /\ (exists prsForBranch,
               In (EGetPullRequests (Upgradelet.upstreamRepo cfg)
                     (Upgradelet.searchParamsFor cfg localBranch) (inr prsForBranch))
                  pre
               /\ existingPrs = openRelevantPrs prsForBranch)
         /\ Upgradelet.cleanupObsoleteBranches W localRepo relevantBranches
              (JS.map_keys openPrsPerBranch) ([] ++ pre) = (rc, dels)
         /\ Forall (fun e => is_new_work e = false
                             \/ exists b r, In b obsolete /\ e = EExec (deleteCmd b) r)
              (snd (Upgradelet.checkAndUpgrade cfg W None []))
         /\ (rc = inr tt ->
             Upgradelet.checkAndUpgrade cfg W None []
             = (inr tt,
                pre ++ dels
                ++ [existingPrsReport (Upgradelet.latestSha res) existingPrs]))
         /\ (forall err, rc = inl err ->
             fst (Upgradelet.checkAndUpgrade cfg W None []) = inl err
             /\ Forall (fun e => is_existing_pr_report e = false)
                  (snd (Upgradelet.checkAndUpgrade cfg W None []))).
Proof.
  intros cfg W. do 5 eexists. cbv zeta.
  match goal with |- ?D /\ _ => assert (Hd : D) by sample_discovered end.
  split; [exact Hd|].
  match goal with |- ?I /\ _ => assert (Hi : I) by run_eq end.
  split; [exact Hi|].
  exact (existing_pr_stops_the_run None Hd Hi).
Defined.




(** A run that creates the pull request #11 and fails to comment on the
    superceded pull request #10, the one open relevant pull request that
    the hosting system reports for the two stale branches. *)
Lemma superceded_prs_are_commented_not_closed_witness :
  let cfg := sample_cfg in
  let W := sample_world two_stale_branches [] [10%N] in
  let upstream := Upgradelet.upstreamRepo cfg in
  exists res localRepo relevantBranches openPrsPerBranch newPr sofar,
    let latestSha := Upgradelet.latestSha res in
    let supercededPrs := concat (map snd openPrsPerBranch) in
    submitted cfg W "master" [] res localRepo relevantBranches openPrsPerBranch
      newPr sofar
    /\ relevantBranches = map fst two_stale_branches
    /\ map number supercededPrs = [10%N]
    /\ number newPr = 11%N
    /\ collected cfg W [] relevantBranches openPrsPerBranch sofar
    /\ exists comments warnings closing labelled,
         Upgradelet.checkAndUpgrade cfg W None []
         = (inr tt, sofar ++ comments ++ warnings ++ closing)
         /\ Forall2 (fun pr e =>
                       exists r,
                         e = EComment upstream (number pr) (supercededComment newPr) r)
              supercededPrs comments
         /\ ((Forall (fun e => exists n,
                        e = EComment upstream n (supercededComment newPr) (inr tt))
                comments
              /\ warnings = [])
             \/ exists err n,
                  In (EComment upstream n (supercededComment newPr) (inl err)) comments
                  /\ warnings = [ELogWarn err])
         /\ filter is_hosting_write (sofar ++ comments ++ warnings ++ closing)
            = ECreatePullRequest upstream
                (owner (Upgradelet.originRepo cfg) +++ ":"
                 +++ Upgradelet.localBranchFor "master" latestSha)
                "master" (Upgradelet.commitMsgSubjectFor latestSha) (inr newPr)
              :: EAddLabels upstream (number newPr) Upgradelet.PR_LABELS labelled
              :: comments.
Proof.
  intros cfg W upstream. do 6 eexists. cbv zeta.
  match goal with |- ?S /\ _ => assert (Hs : S) by sample_submitted end.
  split; [exact Hs|].
  split; [reflexivity|]. split; [reflexivity|]. split; [reflexivity|].
  exact (superceded_prs_are_commented_not_closed None Hs).
Defined.


(* ===================================================================== *)
(** ** Options on the command line *)
(* ===================================================================== *)

Lemma trim_plain_padded (s : string) :
  string_forall not_space s = true -> JS.trim (s +++ " ") = s.
Proof.
  intros P. unfold JS.trim.
  destruct s as [|c s]; [reflexivity|].
  pose proof P as P'. cbn [string_forall] in P'.
  apply andb_true_iff in P'. destruct P' as [Pc _].
  unfold not_space in Pc. apply negb_true_iff in Pc.
  change (String c s +++ " ") with (String c (s +++ " ")).
  rewrite trimStart_head by exact Pc.
  change (String c (s +++ " ")) with (String c s +++ " ").
  rewrite trimEnd_app_spaces by reflexivity. now apply trimEnd_plain.
Qed.

Lemma trim_plain_value (a v : string) :
  string_forall not_space a = true -> a <> "" ->
  string_forall not_space v = true -> v <> "" ->
  JS.trim (a +++ " " +++ v) = a +++ " " +++ v.
Proof.
  intros Pa Na Pv Nv. unfold JS.trim.
  destruct a as [|c a]; [congruence|].
  pose proof Pa as P'. cbn [string_forall] in P'.
  apply andb_true_iff in P'. destruct P' as [Pc _].
  unfold not_space in Pc. apply negb_true_iff in Pc.
  change (String c a +++ " " +++ v) with (String c (a +++ " " +++ v)).
  rewrite trimStart_head by exact Pc.
  change (String c (a +++ " " +++ v)) with (String c a +++ " " +++ v).
  rewrite <- append_assoc. apply trimEnd_app_plain; auto.
Qed.

Lemma option_name_flag (key : string) : GitRepo.option_name key = flag key.
Proof.
  unfold GitRepo.option_name, flag. now destruct (String.length key =? 1)%nat.
Qed.

Lemma flag_plain (key : string) :
  string_forall not_space key = true ->
  string_forall not_space (flag key) = true /\ flag key <> "".
Proof.
  intros P. unfold flag.
  destruct (String.length key =? 1)%nat; cbn [append string_forall];
    rewrite P; split; try reflexivity; discriminate.
Qed.

(** X1. An option set to [false] is rendered like an option that is not
    there, wherever it stands; options that are all [false], an empty
    option object and no option object leave the command as it is. *)
Theorem withOptions_false_is_omitted (cmd : string) (o1 o2 : ICommnandOptions)
  (key : string) (keys : list string) :
  GitRepo.withOptions cmd (Some (o1 ++ (key, OBool false) :: o2))
  = GitRepo.withOptions cmd (Some (o1 ++ o2))
  /\ GitRepo.withOptions cmd (Some (map (fun k => (k, OBool false)) keys)) = cmd
  /\ GitRepo.withOptions cmd (Some []) = cmd
  /\ GitRepo.withOptions cmd None = cmd.
Proof.
  repeat split.
  - unfold GitRepo.withOptions. rewrite !filter_app. reflexivity.
  - unfold GitRepo.withOptions.
    replace (filter (fun kv => negb (GitRepo.is_false (snd kv)))
               (map (fun k => (k, OBool false)) keys)) with (@nil (string * OptValue)).
    + reflexivity.
    + induction keys as [|k keys IH]; [reflexivity | exact IH].
Qed.

(** X2. How one option is rendered, for a key and values free of white
    space (the values non-empty): [true] gives the bare flag, a string the
    flag and the value, an array the flag once per value; the flag is
    [-k] for a key of one character and [--key] otherwise. *)
Theorem withOptions_renders_flags (cmd key value : string) (values : list string) :
  string_forall not_space key = true ->
  string_forall not_space value = true -> value <> "" ->
  Forall (fun v => string_forall not_space v = true /\ v <> "") values ->
  values <> [] ->
  GitRepo.withOptions cmd (Some [(key, OBool true)]) = cmd +++ " " +++ flag key
  /\ GitRepo.withOptions cmd (Some [(key, OStr value)])
     = cmd +++ " " +++ flag key +++ " " +++ value
  /\ GitRepo.withOptions cmd (Some [(key, OArr values)])
     = cmd +++ " " +++ JS.join " " (map (fun v => flag key +++ " " +++ v) values).
Proof.
  intros Pk Pv Nv Fv Nvs.
  destruct (flag_plain key Pk) as [Pf Nf].
  assert (Ne : forall s, s <> "" -> String.eqb s "" = false)
    by (intros s Hs; now apply String.eqb_neq).
  unfold GitRepo.withOptions, GitRepo.render_option.
  cbn [filter snd fst GitRepo.is_false negb map JS.join].
  rewrite !option_name_flag.
  repeat split.
  - change (flag key +++ " " +++ "") with (flag key +++ " ").
    rewrite trim_plain_padded by exact Pf. now rewrite (Ne _ Nf).
  - rewrite trim_plain_value by auto.
    rewrite Ne; [reflexivity|]. destruct (flag key); [congruence | discriminate].
  - assert (E : map (fun v => JS.trim (flag key +++ " " +++ v)) values
                = map (fun v => flag key +++ " " +++ v) values).
    { apply map_ext_in. intros v Hv. rewrite Forall_forall in Fv.
      destruct (Fv v Hv). now apply trim_plain_value. }
    rewrite E. rewrite Ne; [reflexivity|].
    destruct values as [|v vs]; [congruence|]. cbn [map JS.join].
    destruct (flag key); [congruence|].
    destruct vs; discriminate.
Qed.

Lemma withOptions_renders_flags_witness :
  GitRepo.withOptions "git fetch" (Some [("f", OBool true)]) = "git fetch -f"
  /\ GitRepo.withOptions "git fetch" (Some [("depth", OStr "1")])
     = "git fetch --depth 1"
  /\ GitRepo.withOptions "git commit" (Some [("m", OArr ["a"; "b"])])
     = "git commit -m a -m b".
Proof.
  split; [| split].
  - exact (proj1 (@withOptions_renders_flags "git fetch" "f" "1" ["1"]
             eq_refl eq_refl ltac:(discriminate)
             ltac:(repeat constructor; discriminate) ltac:(discriminate))).
  - exact (proj1 (proj2 (@withOptions_renders_flags "git fetch" "depth" "1" ["1"]
             eq_refl eq_refl ltac:(discriminate)
             ltac:(repeat constructor; discriminate) ltac:(discriminate)))).
  - exact (proj2 (proj2 (@withOptions_renders_flags "git commit" "m" "1" ["a"; "b"]
             eq_refl eq_refl ltac:(discriminate)
             ltac:(repeat constructor; discriminate) ltac:(discriminate)))).
Defined.

(* ===================================================================== *)
(** ** Running a command in the repository *)
(* ===================================================================== *)

Lemma debug_lines_no_dir_change (l : list string) :
  Forall (fun e => is_dir_change e = false)
    (map (fun line => ELogDebug ("GIT: " +++ line)) l).
Proof. induction l; constructor; auto. Qed.

(** What one command run in a live repository emits and returns. *)
Lemma execInRepo_events (W : World) (this : GitRepo.t)
  (partialCmd : string) (opts : option ICommnandOptions) (h : History) :
  GitRepo.destroyed this = false ->
  let cmd := GitRepo.withOptions (JS.trim partialCmd) opts in
  exists entered inside left,
    let ran := sh_exec W (h ++ [EPushd "-q" (GitRepo.directory this) entered;
                                ELogDebug ("GIT: " +++ cmd)]) cmd in
    GitRepo.execInRepo W this partialCmd opts h
    = (match left, entered with
       | inl e, _ => inl e
       | inr _, inl e => inl e
       | inr _, inr _ => ran
       end,
       EPushd "-q" (GitRepo.directory this) entered :: inside ++ [EPopd "-q" left])
    /\ inside
       = match entered with
         | inl _ => []
         | inr _ =>
             ELogDebug ("GIT: " +++ cmd) :: EExec cmd ran
             :: match ran with
                | inl _ => []
                | inr result =>
                    map (fun line => ELogDebug ("GIT: " +++ line))
                      (filter (fun line => negb (String.eqb (JS.trim line) ""))
                         (JS.split_lf (stdout result)))
                end
         end.
Proof.
  intros live cmd. unfold GitRepo.execInRepo. rewrite live.
  fold cmd.
  match goal with |- context [try_finally ?b _] => set (body := b) end.
  assert (B : exists entered inside,
             let ran := sh_exec W (h ++ [EPushd "-q" (GitRepo.directory this) entered;
                                         ELogDebug ("GIT: " +++ cmd)]) cmd in
             body h
             = (match entered with inl e => inl e | inr _ => ran end,
                EPushd "-q" (GitRepo.directory this) entered :: inside)
             /\ inside
                = match entered with
                  | inl _ => []
                  | inr _ =>
                      ELogDebug ("GIT: " +++ cmd) :: EExec cmd ran
                      :: match ran with
                         | inl _ => []
                         | inr result =>
                             map (fun line => ELogDebug ("GIT: " +++ line))
                               (filter (fun line => negb (String.eqb (JS.trim line) ""))
                                  (JS.split_lf (stdout result)))
                         end
                  end).
  { subst body.
    destruct (sh_pushd W h "-q" (GitRepo.directory this)) as [e|[]] eqn:P.
    - exists (inl e), []. split; [|reflexivity].
      apply bind_err. unfold pushd, call. now rewrite P.
    - assert (P' : pushd W "-q" (GitRepo.directory this) h
                   = (inr tt, [EPushd "-q" (GitRepo.directory this) (inr tt)]))
        by (unfold pushd, call; now rewrite P).
      rewrite (bind_ok _ _ _ P').
      unfold logger_debug. rewrite (bind_ok _ _ _ (emit_run _ _)).
      rewrite <- app_assoc. cbn [app].
      eexists (inr tt), _. cbv zeta. split; [|reflexivity].
      set (h1 := h ++ [EPushd "-q" (GitRepo.directory this) (inr tt);
                       ELogDebug ("GIT: " +++ cmd)]).
      destruct (sh_exec W h1 cmd) as [e|result] eqn:X.
      + assert (X' : exec W cmd h1 = (inl e, [EExec cmd (inl e)]))
          by (unfold exec, call; now rewrite X).
        rewrite (bind_err _ _ _ X'). reflexivity.
      + assert (X' : exec W cmd h1 = (inr result, [EExec cmd (inr result)]))
          by (unfold exec, call; now rewrite X).
        rewrite (bind_ok _ _ _ X').
        rewrite (bind_ok _ _ _ (forEach_debug _ _)).
        unfold ret, after. cbn [fst snd app]. rewrite app_nil_r. reflexivity. }
  destruct B as (entered & inside & B & I).
  exists entered, inside,
    (sh_popd W (h ++ EPushd "-q" (GitRepo.directory this) entered :: inside) "-q").
  cbv zeta in *. split; [|exact I].
  unfold try_finally. rewrite B. unfold popd, call. cbn [fst snd app].
  reflexivity.
Qed.

(** The command of a successful run is reported with the value returned. *)
Lemma execInRepo_result (W : World) (this : GitRepo.t)
  (partialCmd : string) (opts : option ICommnandOptions) (h : History) r es :
  GitRepo.destroyed this = false ->
  GitRepo.execInRepo W this partialCmd opts h = (inr r, es) ->
  forall cmd x, In (EExec cmd x) es -> x = inr r.
Proof.
  intros live E cmd x I.
  destruct (execInRepo_events W this partialCmd opts h live)
    as (entered & inside & left & R & In').
  cbv zeta in R, In'.
  set (ran := sh_exec W _ _) in R, In'. clearbody ran.
  rewrite E in R. injection R as R ->.
  destruct left as [e|[]]; [discriminate|].
  destruct entered as [e|[]]; [discriminate|].
  subst ran inside.
  cbn [app] in I. destruct I as [I | [I | [I | I]]]; try discriminate.
  - congruence.
  - apply in_app_iff in I. destruct I as [I | [I | []]]; [|discriminate].
    apply in_map_iff in I. destruct I as (? & ? & _). discriminate.
Qed.

(** X3. A command run in a live repository is bracketed by the change
    into the directory and the change back, which happens whatever
    failed in between; nothing runs if the directory cannot be entered.
    The outcome is that of the command, unless entering the directory
    failed, and an error of the change back replaces both. *)
Theorem execInRepo_restores_directory (W : World) (this : GitRepo.t)
  (partialCmd : string) (opts : option ICommnandOptions) (h : History) :
  GitRepo.destroyed this = false ->
  let cmd := GitRepo.withOptions (JS.trim partialCmd) opts in
  let run := GitRepo.execInRepo W this partialCmd opts h in
  exists entered inside left,
    snd run
    = EPushd "-q" (GitRepo.directory this) entered :: inside ++ [EPopd "-q" left]
    /\ Forall (fun e => is_dir_change e = false) inside
    /\ (forall e, entered = inl e -> inside = [])
    /\ fst run
       = match left, entered with
         | inl e, _ => inl e
         | inr _, inl e => inl e
         | inr _, inr _ =>
             sh_exec W (h ++ [EPushd "-q" (GitRepo.directory this) entered;
                              ELogDebug ("GIT: " +++ cmd)]) cmd
         end.
Proof.
  intros live cmd run. subst run.
  destruct (execInRepo_events W this partialCmd opts h live)
    as (entered & inside & left & R & I).
  cbv zeta in *. fold cmd in R, I.
  exists entered, inside, left. rewrite R. cbn [fst snd].
  split; [reflexivity|]. split; [|split; [|reflexivity]].
  - subst inside. destruct entered; [constructor|].
    repeat constructor.
    destruct (sh_exec W _ cmd); [constructor | apply debug_lines_no_dir_change].
  - intros e ->. exact I.
Qed.

Lemma execInRepo_restores_directory_witness :
  let W := sample_world [] [] [] in
  let this := GitRepo.new "/tmp/angular" in
  let run := GitRepo.execInRepo W this " git init " None [] in
  GitRepo.destroyed this = false
  /\ exists entered inside left,
       snd run = EPushd "-q" "/tmp/angular" entered :: inside ++ [EPopd "-q" left]
       /\ Forall (fun e => is_dir_change e = false) inside
       /\ (forall e, entered = inl e -> inside = [])
       /\ fst run
          = match left, entered with
            | inl e, _ => inl e
            | inr _, inl e => inl e
            | inr _, inr _ =>
                sh_exec W ([] ++ [EPushd "-q" "/tmp/angular" entered;
                                  ELogDebug ("GIT: " +++ "git init")]) "git init"
            end.
Proof.
  split; [reflexivity|].
  exact (@execInRepo_restores_directory (sample_world [] [] [])
           (GitRepo.new "/tmp/angular") " git init " None [] eq_refl).
Defined.

(* ===================================================================== *)
(** ** The overloads of [push] *)
(* ===================================================================== *)

Lemma bind_ret_run {A B} (m : M A) (f : A -> B) h a es :
  m h = (inr a, es) -> bind m (fun x => ret (f x)) h = (inr (f a), es).
Proof.
  intros E. rewrite (bind_ok _ _ _ E). unfold ret, after. cbn [fst snd].
  now rewrite app_nil_r.
Qed.

Lemma execInRepo_unit_cmds (W : World) (this : GitRepo.t) (partialCmd : string)
  (opts : option ICommnandOptions) (h : History) r es :
  GitRepo.destroyed this = false ->
  bind (GitRepo.execInRepo W this partialCmd opts) (fun _ => ret tt) h = (r, es) ->
  (exec_cmds es = [] /\ exists e, r = inl e)
  \/ exec_cmds es = [GitRepo.withOptions (JS.trim partialCmd) opts].
Proof.
  intros live E. apply bind_inv in E.
  destruct E as [(e & E & ->) | (a & es1 & es2 & E & R & ->)].
  - destruct (execInRepo_cmds _ _ _ _ _ live E) as [[C _] | C].
    + left. split; [exact C | now exists e].
    + now right.
  - unfold ret in R. injection R as <- <-. rewrite app_nil_r.
    destruct (execInRepo_cmds _ _ _ _ _ live E) as [[_ [e C]] | C].
    + discriminate.
    + now right.
Qed.

Lemma currentBranch_cmds (W : World) (this : GitRepo.t) (h : History) cur es :
  GitRepo.destroyed this = false ->
  GitRepo.currentBranch W this h = (inr cur, es) ->
  exec_cmds es = [revParseCmd].
Proof.
  intros live E. unfold GitRepo.currentBranch in E. apply bind_inv in E.
  destruct E as [(e & _ & E) | (a & es1 & es2 & E & R & ->)]; [discriminate|].
  unfold ret in R. injection R as _ <-. rewrite app_nil_r.
  destruct (execInRepo_cmds _ _ _ _ _ live E) as [[_ [e C]] | C];
    [discriminate | exact C].
Qed.

Lemma push_reads_current_branch (W : World) (this : GitRepo.t) (remote : string)
  (localBranch remoteBranch : Arg) (opts : option ICommnandOptions) (h : History) :
  is_string localBranch && is_string remoteBranch = false ->
  let target cur :=
    match localBranch with
    | AStr l => (cur, l, as_opts remoteBranch)
    | other => (cur, cur, as_opts other)
    end in
  GitRepo.push W this remote localBranch remoteBranch opts h
  = match GitRepo.currentBranch W this h with
    | (inl e, es0) => (inl e, es0)
    | (inr cur, es0) =>
        let '(l, r, o) := target cur in
        after es0
          (bind (GitRepo.execInRepo W this
                   ("git push " +++ remote +++ " " +++ l +++ ":" +++ r) o)
                (fun _ => ret tt) (h ++ es0))
    end.
Proof.
  intros S target. unfold GitRepo.push.
  destruct (GitRepo.currentBranch W this h) as [[e|cur] es0] eqn:C.
  - apply bind_err.
    destruct localBranch as [l| |]; [destruct remoteBranch; [discriminate|..]|..];
      apply (bind_err _ _ _ C).
  - subst target.
    destruct localBranch as [l| |]; [destruct remoteBranch; [discriminate|..]|..];
      cbv beta iota;
      match goal with
      | |- bind (bind _ (fun cur => ret (@?f cur))) _ _ = _ =>
          rewrite (bind_ok _ _ _ (bind_ret_run _ f _ C))
      end; reflexivity.
Qed.



(* ===================================================================== *)
(** ** Listing the branches of a remote *)
(* ===================================================================== *)

Lemma split_lf_aux_line (a b cur : string) :
  string_forall not_newline a = true ->
  JS.split_lf_aux cur (a +++ JS.LF +++ b) = (cur +++ a) :: JS.split_lf_aux "" b.
Proof.
  revert cur. induction a as [|c a IH]; intros cur P.
  - now rewrite append_empty_r.
  - cbn [string_forall] in P. apply andb_true_iff in P. destruct P as [Pc P].
    change (String c a +++ JS.LF +++ b) with (String c (a +++ JS.LF +++ b)).
    cbn [JS.split_lf_aux].
    unfold not_newline in Pc. apply negb_true_iff, orb_false_iff in Pc.
    destruct Pc as [-> _].
    rewrite IH by exact P. now rewrite append_assoc.
Qed.

Lemma not_space_not_newline (c : ascii) : not_space c = true -> not_newline c = true.
Proof.
  unfold not_space, not_newline, JS.is_space. cbv zeta.
  destruct (nat_of_ascii c =? 10)%nat, (nat_of_ascii c =? 13)%nat;
    rewrite ?orb_true_r; cbn; auto.
Qed.

Lemma trim_listed (remote b : string) :
  string_forall not_space remote = true -> JS.trimEnd b = b ->
  JS.trim ("  " +++ remote +++ "/" +++ b) = remote +++ "/" +++ b.
Proof.
  intros P T. unfold JS.trim.
  change ("  " +++ remote +++ "/" +++ b)
    with (String " " (String " " (remote +++ "/" +++ b))).
  cbn [JS.trimStart]. change (JS.is_space " ") with true. cbv iota.
  assert (S : JS.trimStart (remote +++ "/" +++ b) = remote +++ "/" +++ b).
  { destruct remote as [|c remote]; [reflexivity|].
    cbn [string_forall] in P. apply andb_true_iff in P. destruct P as [Pc _].
    unfold not_space in Pc. apply negb_true_iff in Pc.
    change (String c remote +++ "/" +++ b) with (String c (remote +++ "/" +++ b)).
    now apply trimStart_head. }
  rewrite S.
  assert (E : JS.trimEnd ("/" +++ b) = "/" +++ b).
  { change ("/" +++ b) with (String "/" b).
    rewrite trimEnd_cons_nonspace by reflexivity. now rewrite T. }
  rewrite trimEnd_app; rewrite E; [reflexivity | discriminate].
Qed.

Lemma parse_branchListing (remote : string) (branches : list string) :
  string_forall not_space remote = true ->
  Forall (fun b => string_forall not_newline b = true /\ JS.trimEnd b = b) branches ->
  map (fun line => JS.strip_prefix (remote +++ "/") line)
    (filter (fun line => JS.startsWith line (remote +++ "/"))
       (map JS.trim (JS.split_lf (branchListing remote branches))))
  = branches.
Proof.
  intros Pr F. unfold JS.split_lf.
  induction F as [|b bs [Pb Tb] F IH].
  - cbn. unfold JS.startsWith. now destruct remote.
  - cbn [branchListing].
    replace ("  " +++ remote +++ "/" +++ b +++ JS.LF +++ branchListing remote bs)
      with (("  " +++ remote +++ "/" +++ b) +++ JS.LF +++ branchListing remote bs)
      by (now rewrite !append_assoc).
    rewrite split_lf_aux_line.
    2:{ change ("  " +++ remote +++ "/" +++ b)
          with (String " " (String " " (remote +++ "/" +++ b))).
        cbn [string_forall]. change (not_newline " ") with true. cbn [andb].
        rewrite !string_forall_app, Pb.
        rewrite (@string_forall_impl not_space not_newline remote
                   not_space_not_newline Pr). reflexivity. }
    change ("" +++ ("  " +++ remote +++ "/" +++ b))
      with ("  " +++ remote +++ "/" +++ b).
    cbn [map].
    rewrite trim_listed by assumption.
    cbn [filter]. unfold JS.startsWith at 1.
    rewrite <- (append_assoc remote "/" b), prefix_append.
    cbn [map]. rewrite strip_prefix_append. f_equal. exact IH.
Qed.

Lemma is_literal_pattern_app (a b : string) :
  JS.is_literal_pattern (a +++ b)
  = JS.is_literal_pattern a && JS.is_literal_pattern b.
Proof.
  induction a as [|c a IH]; [reflexivity|].
  cbn [append JS.is_literal_pattern]. now rewrite IH, andb_assoc.
Qed.

(** X5. The branches of a remote are read back from the listing, for a
    remote whose name has no white space and no syntax character of a
    regular expression (the name is used as one, unescaped): when the
    fetch and [git branch --remote] succeed and the latter prints one
    indented line [remote/branch] per branch, the names free of line
    breaks and of white space at the end, the result is these branches in
    the order printed. *)
Theorem getRemoteBranches_reads_listing (W : World) (this : GitRepo.t)
  (remote : string) (h : History) (listed branches : list string)
  (out : ExecOutput) (es : list Event) :
  GitRepo.destroyed this = false ->
  string_forall not_space remote = true ->
  JS.is_literal_pattern remote = true ->
  Forall (fun b => string_forall not_newline b = true /\ JS.trimEnd b = b) listed ->
  GitRepo.getRemoteBranches W this remote h = (inr branches, es) ->
  In (EExec "git branch --remote" (inr out)) es ->
  stdout out = branchListing remote listed ->
  branches = listed.
Proof.
  intros live Pr L F E I O.
  assert (L' : JS.is_literal_pattern (remote +++ "/") = true)
    by (rewrite is_literal_pattern_app, L; reflexivity).
  unfold GitRepo.getRemoteBranches in E.
  apply bind_inv in E.
  destruct E as [(e & _ & E) | ([] & es1 & es' & E1 & E & ->)]; [discriminate|].
  apply bind_inv in E.
  destruct E as [(e & _ & E) | (r & es2 & es3 & E2 & E & ->)]; [discriminate|].
  rewrite (map_throwing_literal W _ _ L') in E.
  injection E as <- <-. rewrite app_nil_r in I.
  assert (R : out = r).
  { apply in_app_iff in I. destruct I as [I | I].
    - exfalso.
      assert (Q : emits (fun e => match e with
                                  | EExec cmd _ => String.eqb (git_verb cmd) "fetch"
                                  | _ => true
                                  end = true)
                    (GitRepo.fetch W this remote
                       (AOpts [("depth", OStr "1"); ("no-tags", OBool true)]) None)).
      { unfold GitRepo.fetch. cbv beta iota zeta.
        apply emits_bind; [|intros ?; apply emits_ret].
        apply execInRepo_emits.
        - intros [] Hb; try reflexivity; discriminate.
        - intros r0. apply String.eqb_eq.
          rewrite git_verb_execInRepo; [reflexivity | discriminate]. }
      pose proof (emits_run h Q E1) as Q'.
      rewrite Forall_forall in Q'. specialize (Q' _ I). discriminate.
    - pose proof (execInRepo_result _ _ _ _ _ live E2 _ _ I) as X. congruence. }
  subst r. rewrite O. now apply parse_branchListing.
Qed.

Lemma getRemoteBranches_reads_listing_witness :
  let W := sample_world [("upgrade-cli-src--master--ccc3333", [])] [] [] in
  exists es out,
    GitRepo.getRemoteBranches W (GitRepo.new "/tmp/angular") "origin" []
    = (inr ["HEAD -> origin/master"; "master"; "upgrade-cli-src--master--ccc3333"], es)
    /\ In (EExec "git branch --remote" (inr out)) es.
Proof.
  cbv zeta.
  destruct (GitRepo.getRemoteBranches
              (sample_world [("upgrade-cli-src--master--ccc3333", [])] [] [])
              (GitRepo.new "/tmp/angular") "origin" []) as [[e|branches] es] eqn:E;
    [vm_compute in E; discriminate|].
  assert (I : In (EExec "git branch --remote"
                    (inr (mkExec (branchListing "origin"
                                    ["HEAD -> origin/master"; "master";
                                     "upgrade-cli-src--master--ccc3333"]) "" 0))) es).
  { vm_compute in E. injection E as _ <-. vm_compute. tauto. }
  exists es, (mkExec (branchListing "origin"
                        ["HEAD -> origin/master"; "master";
                         "upgrade-cli-src--master--ccc3333"]) "" 0).
  split; [|exact I].
  rewrite (@getRemoteBranches_reads_listing _ (GitRepo.new "/tmp/angular") "origin" _
             ["HEAD -> origin/master"; "master"; "upgrade-cli-src--master--ccc3333"]
             _ _ _ eq_refl eq_refl eq_refl
             ltac:(repeat constructor) E I eq_refl).
  reflexivity.
Defined.

(* ===================================================================== *)
(** ** The lines of a commit message *)
(* ===================================================================== *)








(* ===================================================================== *)
(** ** The Sha in the tracked script *)
(* ===================================================================== *)

Lemma substring_all (s : string) : substring 0 (String.length s) s = s.
Proof. induction s as [|c s IH]; [reflexivity|]. cbn. now rewrite IH. Qed.

Lemma span_non_space_spec (s w rest : string) :
  Upgradelet.span_non_space s = (w, rest) ->
  s = w +++ rest /\ string_forall not_space w = true.
Proof.
  revert w rest. induction s as [|c s IH]; intros w rest E.
  - injection E as <- <-. split; reflexivity.
  - cbn [Upgradelet.span_non_space] in E.
    destruct (JS.is_space c) eqn:S.
    + injection E as <- <-. split; reflexivity.
    + destruct (Upgradelet.span_non_space s) as [w' rest'].
      injection E as <- <-. destruct (IH _ _ eq_refl) as [-> P].
      split; [reflexivity|]. cbn [string_forall]. unfold not_space at 1.
      now rewrite S, P.
Qed.

Lemma span_non_space_app (w rest : string) (c : ascii) :
  string_forall not_space w = true -> JS.is_space c = true ->
  Upgradelet.span_non_space (w +++ String c rest) = (w, String c rest).
Proof.
  intros P S. induction w as [|a w IH].
  - cbn. now rewrite S.
  - cbn [string_forall] in P. apply andb_true_iff in P. destruct P as [Pa P].
    unfold not_space in Pa. apply negb_true_iff in Pa.
    cbn [append Upgradelet.span_non_space]. now rewrite Pa, IH.
Qed.

Lemma node_prefix_tail (r : string) :
  substring 5 (String.length ("node " +++ r) - 5) ("node " +++ r) = r.
Proof.
  change (String.length ("node " +++ r) - 5) with (String.length r - 0).
  rewrite Nat.sub_0_r. change (substring 5 (String.length r) ("node " +++ r))
    with (substring 0 (String.length r) r).
  apply substring_all.
Qed.

(** X7. The script entry yields a Sha exactly when it reads
    [node <path> <sha>]: one word without white space, one space, and a
    non-empty run of digits and the letters [a] to [f] up to the end;
    the Sha is that run. *)
Theorem AIO_SCRIPT_RE_exec_spec (script sha : string) :
  Upgradelet.AIO_SCRIPT_RE_exec script = Some sha
  <-> exists path,
        script = "node " +++ path +++ " " +++ sha
        /\ path <> "" /\ string_forall not_space path = true
        /\ sha <> "" /\ Upgradelet.all_hex sha = true.
Proof.
  unfold Upgradelet.AIO_SCRIPT_RE_exec. split.
  - intros E. destruct (JS.startsWith script "node ") eqn:S; [|discriminate].
    apply prefix_split in S. destruct S as [r ->].
    rewrite node_prefix_tail in E.
    destruct (Upgradelet.span_non_space r) as [w rest] eqn:Sp.
    apply span_non_space_spec in Sp. destruct Sp as [-> P].
    destruct w as [|c w]; [discriminate|].
    destruct rest as [|sp sha']; [discriminate|].
    destruct ((nat_of_ascii sp =? 32)%nat && negb (String.eqb sha' "")
              && Upgradelet.all_hex sha')%bool eqn:C; [|discriminate].
    injection E as ->.
    apply andb_true_iff in C. destruct C as [C H].
    apply andb_true_iff in C. destruct C as [C N].
    apply Nat.eqb_eq in C. apply negb_true_iff, String.eqb_neq in N.
    assert (sp = " "%char) as ->
      by (rewrite <- (ascii_nat_embedding sp), C; reflexivity).
    exists (String c w). repeat split; auto. discriminate.
  - intros (path & -> & N & P & Ns & H).
    unfold JS.startsWith. rewrite prefix_append, node_prefix_tail.
    change (path +++ " " +++ sha) with (path +++ String " " sha).
    rewrite span_non_space_app by (exact P || reflexivity).
    destruct path as [|c w]; [congruence|].
    change (nat_of_ascii " " =? 32)%nat with true.
    apply String.eqb_neq in Ns. now rewrite Ns, H.
Qed.

(** X8. Reading the current Sha: one read of [aio/package.json] of the
    upstream repository at the branch, after one log line. A Sha that is
    returned is non-empty, consists of digits and the letters [a] to [f],
    and is the last word of the script entry [node <path> <sha>] of the
    file read. If the read or the parsing fails, that error is thrown; if
    the entry is missing or reads otherwise, the extraction error is. *)
Theorem retrieveShaFromAio_result (cfg : Config) (W : World) (branch : string)
  (h : History) :
  let run := Upgradelet.retrieveShaFromAio cfg W branch h in
  exists info contents,
    snd run
    = [ELogInfo info;
       EGetFileContents (Upgradelet.upstreamRepo cfg) Upgradelet.AIO_PKG_PATH branch
         contents]
    /\ match contents with
       | inl e => fst run = inl e
       | inr pkgJson =>
           match json_scripts_entry W pkgJson Upgradelet.AIO_SCRIPT_NAME with
           | inl e => fst run = inl e
           | inr entry =>
               (exists path sha,
                   entry = Some ("node " +++ path +++ " " +++ sha)
                   /\ path <> "" /\ string_forall not_space path = true
                   /\ sha <> "" /\ Upgradelet.all_hex sha = true
                   /\ fst run = inr sha)
               \/ (exists e, fst run = inl e /\ is_extraction_failure e = true
                             /\ match entry with
                                | Some script =>
                                    Upgradelet.AIO_SCRIPT_RE_exec script = None
                                | None => True
                                end)
           end
       end.
Proof.
  intros run. subst run. unfold Upgradelet.retrieveShaFromAio. cbv zeta.
  unfold logger_info.
  match goal with |- context [emit (ELogInfo ?i)] => set (info := i) end.
  rewrite (bind_ok _ _ _ (emit_run _ _)).
  exists info, (gh_getFileContents W (h ++ [ELogInfo info]) (Upgradelet.upstreamRepo cfg)
                  Upgradelet.AIO_PKG_PATH branch).
  set (h1 := h ++ [ELogInfo info]).
  destruct (gh_getFileContents W h1 (Upgradelet.upstreamRepo cfg)
              Upgradelet.AIO_PKG_PATH branch) as [e|pkgJson] eqn:G.
  - assert (G' : getFileContents W (Upgradelet.upstreamRepo cfg)
                   Upgradelet.AIO_PKG_PATH branch h1
                 = (inl e, [EGetFileContents (Upgradelet.upstreamRepo cfg)
                              Upgradelet.AIO_PKG_PATH branch (inl e)]))
      by (unfold getFileContents, call; now rewrite G).
    rewrite (bind_err _ _ _ G'). split; reflexivity.
  - assert (G' : getFileContents W (Upgradelet.upstreamRepo cfg)
                   Upgradelet.AIO_PKG_PATH branch h1
                 = (inr pkgJson, [EGetFileContents (Upgradelet.upstreamRepo cfg)
                                    Upgradelet.AIO_PKG_PATH branch (inr pkgJson)]))
      by (unfold getFileContents, call; now rewrite G).
    rewrite (bind_ok _ _ _ G').
    destruct (json_scripts_entry W pkgJson Upgradelet.AIO_SCRIPT_NAME)
      as [e|entry] eqn:J.
    + unfold bind. split; reflexivity.
    + unfold bind. cbv beta iota. rewrite !app_nil_r.
      destruct entry as [script|]; cbv beta iota.
      * destruct (Upgradelet.AIO_SCRIPT_RE_exec script) as [sha|] eqn:X.
        -- split; [reflexivity|]. left.
           assert (X' := X).
           unfold Upgradelet.AIO_SCRIPT_RE_exec in X'.
           destruct (JS.startsWith script "node ") eqn:S; [|discriminate].
           apply prefix_split in S. destruct S as [r ->].
           rewrite node_prefix_tail in X'.
           destruct (Upgradelet.span_non_space r) as [w rest] eqn:Sp.
           apply span_non_space_spec in Sp. destruct Sp as [-> P].
           destruct w as [|c w]; [discriminate|].
           destruct rest as [|sp sha']; [discriminate|].
           destruct ((nat_of_ascii sp =? 32)%nat && negb (String.eqb sha' "")
                     && Upgradelet.all_hex sha')%bool eqn:C; [|discriminate].
           injection X' as ->.
           apply andb_true_iff in C. destruct C as [C H].
           apply andb_true_iff in C. destruct C as [C N].
           apply Nat.eqb_eq in C. apply negb_true_iff, String.eqb_neq in N.
           assert (sp = " "%char) as ->
             by (rewrite <- (ascii_nat_embedding sp), C; reflexivity).
           exists (String c w), sha.
           split; [reflexivity|]. split; [discriminate|]. split; [exact P|].
           split; [exact N|]. split; [exact H|].
           reflexivity.
        -- split; [reflexivity|]. right. eexists. split; [reflexivity|].
           split; [|reflexivity]. unfold is_extraction_failure, newError.
           cbn [err_message]. apply prefix_append.
      * split; [reflexivity|]. right. eexists. split; [reflexivity|].
        split; [|exact Logic.I]. unfold is_extraction_failure, newError.
        cbn [err_message]. apply prefix_append.
Qed.

(* ===================================================================== *)
(** ** The latest Sha *)
(* ===================================================================== *)

Lemma substring_prefix (n : nat) (s : string) :
  String.prefix (substring 0 n s) s = true.
Proof.
  revert s. induction n as [|n IH]; intros [|c s]; try reflexivity.
  cbn. rewrite IH. now destruct (ascii_dec c c).
Qed.

Lemma substring_length_le (n : nat) (s : string) :
  String.length (substring 0 n s) <= n.
Proof.
  revert s. induction n as [|n IH]; intros [|c s]; cbn; try lia.
  specialize (IH s). lia.
Qed.

Lemma substring_short (n : nat) (s : string) :
  String.length s <= n -> substring 0 n s = s.
Proof.
  revert s. induction n as [|n IH]; intros [|c s] L; cbn in *; try reflexivity; try lia.
  rewrite IH by lia. reflexivity.
Qed.

(** X9. Reading the latest Sha: one query for the tip of the branch of
    the builds repository, after one log line. An empty answer makes it
    throw the extraction error. Otherwise the result is the first nine
    characters of the answer (all of it, if it is shorter): non-empty, a
    prefix of the answer, and matching it as a Sha. *)
Theorem retrieveShaFromCliBuilds_result (cfg : Config) (W : World) (branch : string)
  (h : History) :
  let run := Upgradelet.retrieveShaFromCliBuilds cfg W branch h in
  exists info answer,
    snd run
    = [ELogInfo info; EGetLatestSha (Upgradelet.cliBuildsRepo cfg) branch answer]
    /\ match answer with
       | inl e => fst run = inl e
       | inr "" => exists e, fst run = inl e /\ is_extraction_failure e = true
       | inr full =>
           exists sha,
             fst run = inr sha
             /\ sha = substring 0 9 full
             /\ sha <> ""
             /\ String.length sha <= 9
             /\ (String.length full <= 9 -> sha = full)
             /\ JS.startsWith full sha = true
             /\ Upgradelet.shasMatch sha full = true
       end.
Proof.
  intros run. subst run. unfold Upgradelet.retrieveShaFromCliBuilds. cbv zeta.
  unfold logger_info.
  match goal with |- context [emit (ELogInfo ?i)] => set (info := i) end.
  rewrite (bind_ok _ _ _ (emit_run _ _)).
  exists info, (gh_getLatestSha W (h ++ [ELogInfo info]) (Upgradelet.cliBuildsRepo cfg)
                  branch).
  set (h1 := h ++ [ELogInfo info]).
  unfold bind, getLatestSha, call.
  destruct (gh_getLatestSha W h1 (Upgradelet.cliBuildsRepo cfg) branch)
    as [e|full] eqn:G.
  - split; reflexivity.
  - destruct full as [|c full].
    + split; [reflexivity|]. eexists. split; [reflexivity|].
      unfold is_extraction_failure, newError. cbn [err_message]. apply prefix_append.
    + split; [reflexivity|]. exists (JS.slice0 9 (String c full)).
      split; [reflexivity|]. unfold JS.slice0.
      split; [reflexivity|]. split; [discriminate|].
      split; [apply substring_length_le|].
      split; [apply substring_short|].
      assert (P := substring_prefix 9 (String c full)).
      split; [exact P|]. unfold Upgradelet.shasMatch, JS.startsWith.
      rewrite P. apply orb_true_r.
Qed.

(* ===================================================================== *)
(** ** Reporting errors *)
(* ===================================================================== *)

Lemma ignoreError_call {A} (o : History -> result A) (ev : result A -> Event)
  (h : History) :
  Upgradelet.ignoreError (call o ev) h = (inr tt, attempted ev (o h)).
Proof.
  unfold Upgradelet.ignoreError, try_catch, bind, call, ret, logger_warn, emit,
    attempted.
  destruct (o h); reflexivity.
Qed.

Lemma ignore_reportError_run (cfg : Config) (W : World) (action : string)
  (err : exn) (h : History) :
  Upgradelet.ignoreError (Upgradelet.reportError cfg W action err) h
  = (inr tt, errorReport cfg W action err h).
Proof.
  unfold Upgradelet.ignoreError, Upgradelet.reportError, Upgradelet.REPORT_ERRORS,
    errorReport.
  destruct (env_CI cfg); [|reflexivity]. cbn [negb]. cbv zeta.
  unfold try_catch, bind, logger_info, emit, createIssue, call, ret, logger_warn,
    attempted.
  cbv beta iota. rewrite !app_nil_r. cbn [app].
  unfold issueBody, Upgradelet.stringifyError, ownRepo.
  change (Upgradelet.LOCAL_BRANCH_PREFIX) with "upgrade-cli-src".
  rewrite !append_assoc. cbn [append].
  destruct (gh_createIssue W _ _ _ _); reflexivity.
Qed.

Lemma try_catch_inv {A} (m : M A) (k : exn -> M A) h r es :
  try_catch m k h = (r, es) ->
  (exists a, m h = (inr a, es) /\ r = inr a)
  \/ (exists e es1 es2,
        m h = (inl e, es1) /\ k e (h ++ es1) = (r, es2) /\ es = es1 ++ es2).
Proof.
  unfold try_catch. destruct (m h) as [[e|a] es1].
  - destruct (k e (h ++ es1)) as [r' es2] eqn:K. intros E. injection E as <- <-.
    right. now exists e, es1, es2.
  - intros E. injection E as <- <-. left. now exists a.
Qed.

Lemma checkNeedsUpgrade_reads (cfg : Config) (W : World) (branch : string) :
  emits (fun e => is_read_or_log e = true) (Upgradelet.checkNeedsUpgrade cfg W branch).
Proof.
  unfold Upgradelet.checkNeedsUpgrade, Upgradelet.retrieveShaFromAio,
    Upgradelet.retrieveShaFromCliBuilds, Upgradelet.checkNeedsUpgrade_decide.
  unfold_calls. repeat emits_step; reflexivity.
Qed.

(** X10. [checkOnly] only logs and reads: after its first log line it
    runs the check and answers whether no upgrade is needed. If the check
    fails, the same error is thrown again; before that, on CI only, one
    issue is filed in the tool's own repository, with the error's stack
    (or message) and the logs so far, and a failure to file it is only
    warned about. *)
Theorem checkOnly_outcome (cfg : Config) (W : World) (ob : option string)
  (h : History) :
  let check := Upgradelet.checkNeedsUpgrade cfg W (Upgradelet.branchArg cfg ob)
                 (h ++ [checkOnlyLog]) in
  Forall (fun e => is_read_or_log e = true) (snd check)
  /\ Upgradelet.checkOnly cfg W ob h
     = match fst check with
       | inr res =>
           (inr (negb (Upgradelet.needsUpgrade res)), checkOnlyLog :: snd check)
       | inl err =>
           (inl err,
            checkOnlyLog :: snd check
            ++ errorReport cfg W "checking only" err (h ++ checkOnlyLog :: snd check))
       end.
Proof.
  intros check. split; [apply checkNeedsUpgrade_reads|].
  unfold Upgradelet.checkOnly. cbv zeta. unfold logger_info.
  subst check.
  destruct (Upgradelet.checkNeedsUpgrade cfg W (Upgradelet.branchArg cfg ob)
              (h ++ [checkOnlyLog])) as [[err|res] es] eqn:C; cbn [fst snd].
  - rewrite (try_catch_bind_ok _ _ _ _ (emit_run _ _)).
    fold checkOnlyLog.
    rewrite (try_catch_bind_err _ _ _ _ C).
    rewrite <- app_assoc. cbn [app].
    rewrite (bind_ok _ _ _ (ignore_reportError_run _ _ _ _ _)).
    unfold throw, after. cbn [fst snd app]. now rewrite app_nil_r.
  - rewrite (try_catch_bind_ok _ _ _ _ (emit_run _ _)).
    fold checkOnlyLog.
    rewrite (try_catch_bind_ok _ _ _ _ C).
    unfold try_catch, ret, after. cbn [fst snd app]. now rewrite app_nil_r.
Qed.

Lemma checkAndUpgrade_catch_run (cfg : Config) (W : World) (err : exn) (h : History) :
  Upgradelet.checkAndUpgrade_catch cfg W err h
  = (inl err,
     credentialsRemoval cfg W h
     ++ errorReport cfg W "checking and upgrading" err
          (h ++ credentialsRemoval cfg W h)).
Proof.
  unfold Upgradelet.checkAndUpgrade_catch, rm.
  rewrite (bind_ok _ _ _ (ignoreError_call _ _ _)).
  fold (credentialsRemoval cfg W h).
  rewrite (bind_ok _ _ _ (ignore_reportError_run _ _ _ _ _)).
  unfold throw, after. cbn [fst snd]. now rewrite app_nil_r.
Qed.

(** *** What a failing run has not done *)

Lemma fails_quietly_emits {A} (m : M A) :
  emits (fun ev => is_hosting_write ev = false) m -> fails_quietly m.
Proof.
  intros Q h e es E. eapply Forall_impl; [| exact (emits_run h Q E)].
  intros ev F T. congruence.
Qed.

Lemma fails_quietly_bind {A B} (m : M A) (f : A -> M B) :
  emits (fun ev => is_hosting_write ev = false) m ->
  (forall a, fails_quietly (f a)) -> fails_quietly (bind m f).
Proof.
  intros Q F h e es E. apply bind_inv in E.
  destruct E as [(e' & E & R) | (a & es1 & es2 & E1 & E2 & ->)].
  - injection R as <-. exact (fails_quietly_emits Q _ E).
  - apply Forall_app. split.
    + eapply Forall_impl; [| exact (emits_run h Q E1)]. intros ev N T. congruence.
    + exact (F a _ _ _ E2).
Qed.

Lemma quiet_of_negb {A} (m : M A) :
  emits (fun e => negb (is_hosting_write e) = true) m ->
  emits (fun e => is_hosting_write e = false) m.
Proof. apply emits_weaken. intros e. apply negb_true_iff. Qed.

Lemma quiet_of_preparation {A} (m : M A) :
  emits (fun e => is_preparation e = true) m ->
  emits (fun e => is_hosting_write e = false) m.
Proof. apply emits_weaken. intros e P. now apply preparation_is_no_new_work. Qed.

Lemma cleanupObsoleteBranches_quiet (W : World) (localRepo : GitRepo.t)
  (branches branchesWithOpenPrs : list string) :
  emits (fun e => is_hosting_write e = false)
    (Upgradelet.cleanupObsoleteBranches W localRepo branches branchesWithOpenPrs).
Proof.
  unfold Upgradelet.cleanupObsoleteBranches. cbv zeta.
  apply emits_forEach. intros b _. unfold_git.
  apply quiet_of_negb. no_hosting_write.
Qed.

Lemma submit_tail_returns (cfg : Config) (W : World) (localRepo : GitRepo.t)
  (supercededPrs : list IPullRequest) (newPr : IPullRequest) (info : string)
  (h : History) :
  fst (bind (Upgradelet.ignoreError
               (Upgradelet.commentOnSupercededPrs cfg W supercededPrs newPr))
         (fun _ => bind (Upgradelet.ignoreError (GitRepo.destroy W localRepo))
                     (fun _ => logger_info info)) h) = inr tt.
Proof.
  rewrite (bind_ok _ _ _ (ignoreError_run _ _)).
  unfold after. cbn [fst].
  rewrite (bind_ok _ _ _ (ignoreError_run _ _)).
  reflexivity.
Qed.

Lemma submitPullRequest_fails_quietly (cfg : Config) (W : World)
  (originBranch upstreamBranch title : string) (h : History) (e : exn)
  (es : list Event) :
  Upgradelet.submitPullRequest cfg W originBranch upstreamBranch title h = (inl e, es) ->
  exists info,
    es = [ELogInfo info;
          ECreatePullRequest (Upgradelet.upstreamRepo cfg)
            (owner (Upgradelet.originRepo cfg) +++ ":" +++ originBranch)
            upstreamBranch title (inl e)].
Proof.
  unfold Upgradelet.submitPullRequest. cbv zeta. unfold logger_info.
  rewrite (bind_ok _ _ _ (emit_run _ _)).
  unfold bind at 1, createPullRequest at 1, call at 1.
  destruct (gh_createPullRequest W _ _ _ _ _) as [e'|pr] eqn:C.
  - unfold after. cbn [fst snd app]. intros E. injection E as <- <-.
    eexists. reflexivity.
  - rewrite (bind_ok _ _ _ (ignoreError_run _ _)).
    unfold ret, after. cbn [fst snd]. discriminate.
Qed.

Lemma checkAndUpgrade_submit_fails_quietly (cfg : Config) (W : World)
  (localRepo : GitRepo.t) (branch currentSha latestSha : string)
  (openPrsPerBranch : JS.Map (list IPullRequest)) :
  fails_quietly
    (Upgradelet.checkAndUpgrade_submit cfg W localRepo branch currentSha latestSha
       openPrsPerBranch).
Proof.
  unfold Upgradelet.checkAndUpgrade_submit. cbv zeta.
  apply fails_quietly_bind;
    [apply quiet_of_negb, createLocalBranch_quiet | intros _].
  apply fails_quietly_bind; [apply quiet_of_negb, makeChanges_quiet | intros _].
  apply fails_quietly_bind; [apply quiet_of_negb, commitAndPush_quiet | intros _].
  intros h e es E. apply bind_inv in E.
  destruct E as [(e' & E & R) | (newPr & es1 & es2 & E1 & E2 & ->)].
  - injection R as <-. apply submitPullRequest_fails_quietly in E.
    destruct E as [info ->]. repeat constructor; [discriminate|].
    intros _. now repeat eexists.
  - exfalso.
    pose proof (submit_tail_returns cfg W localRepo
                  (Upgradelet.supercededPrsOf openPrsPerBranch) newPr
                  ("Upgrade completed successfully \o/ | PR: #"
                   +++ JS.of_number (number newPr) +++ " (" +++ html_url newPr +++ ")")
                  (h ++ es1)) as T.
    rewrite E2 in T. discriminate.
Qed.

Lemma checkAndUpgrade_reconcile_fails_quietly (cfg : Config) (W : World)
  (localRepo : GitRepo.t) (branch currentSha latestSha : string)
  (relevantBranches : list string) (openPrsPerBranch : JS.Map (list IPullRequest)) :
  fails_quietly
    (Upgradelet.checkAndUpgrade_reconcile cfg W localRepo branch currentSha latestSha
       relevantBranches openPrsPerBranch).
Proof.
  unfold Upgradelet.checkAndUpgrade_reconcile. cbv zeta.
  apply fails_quietly_bind; [apply cleanupObsoleteBranches_quiet | intros _].
  unfold Upgradelet.checkAndUpgrade_checkExisting. cbv zeta.
  destruct (JS.includes _ _).
  - apply fails_quietly_emits. unfold logger_info. now apply emits_emit.
  - apply checkAndUpgrade_submit_fails_quietly.
Qed.

(** X11. A run of [checkAndUpgrade] that fails ends with the [catch]
    block: the removal of the credentials file is attempted, then the
    error is reported (on CI only, in an issue of the tool's own
    repository), and the error thrown is the one that was caught,
    whatever failed in the block. Before the block nothing was written
    to the hosting system: no pull request created, no label, no
    comment; at most the creation was attempted and its failure is the
    error thrown. *)
Theorem failed_run_cleans_up_and_reports (cfg : Config) (W : World)
  (ob : option string) (h : History) (err : exn) :
  fst (Upgradelet.checkAndUpgrade cfg W ob h) = inl err ->
  exists before,
    snd (Upgradelet.checkAndUpgrade cfg W ob h)
    = before
      ++ credentialsRemoval cfg W (h ++ before)
      ++ errorReport cfg W "checking and upgrading" err
           (h ++ before ++ credentialsRemoval cfg W (h ++ before))
    /\ Forall (fun ev =>
                 is_hosting_write ev = true ->
                 exists repo head base title,
                   ev = ECreatePullRequest repo head base title (inl err)) before.
Proof.
  intros F.
  destruct (Upgradelet.checkAndUpgrade cfg W ob h) as [r es] eqn:E.
  cbn [fst snd] in *. subst r.
  unfold Upgradelet.checkAndUpgrade in E. cbv zeta in E.
  apply try_catch_inv in E.
  destruct E as [(a & _ & R) | (e & before & es2 & B & K & ->)]; [discriminate|].
  rewrite checkAndUpgrade_catch_run in K. injection K as -> <-.
  exists before. rewrite <- app_assoc. split; [reflexivity|].
  revert B.
  match goal with
  | |- ?body h = _ -> _ => enough (Q : fails_quietly body) by (intros B; exact (Q _ _ _ B))
  end.
  unfold logger_info.
  apply fails_quietly_bind; [now apply emits_emit | intros _].
  apply fails_quietly_bind;
    [apply quiet_of_preparation, checkNeedsUpgrade_emits | intros res].
  destruct (negb (Upgradelet.needsUpgrade res)).
  - apply fails_quietly_emits. now apply emits_emit.
  - apply fails_quietly_bind; [now apply emits_emit | intros _].
    apply fails_quietly_bind;
      [apply quiet_of_preparation, initLocalRepo_emits | intros localRepo].
    apply fails_quietly_bind;
      [apply quiet_of_preparation, getRemoteBranches_emits | intros branches].
    apply fails_quietly_bind;
      [apply quiet_of_preparation, getOpenPrsPerBranch_emits | intros m].
    apply checkAndUpgrade_reconcile_fails_quietly.
Qed.

Lemma failed_run_cleans_up_and_reports_witness :
  let W := sample_world two_obsolete_branches
             [deleteCmd "upgrade-cli-src--master--ccc3333"] [] in
  let err := sample_error "exec: git push origin :upgrade-cli-src--master--ccc3333" in
  exists before,
    snd (Upgradelet.checkAndUpgrade sample_cfg W None [])
    = before
      ++ credentialsRemoval sample_cfg W ([] ++ before)
      ++ errorReport sample_cfg W "checking and upgrading" err
           ([] ++ before ++ credentialsRemoval sample_cfg W ([] ++ before))
    /\ Forall (fun ev =>
                 is_hosting_write ev = true ->
                 exists repo head base title,
                   ev = ECreatePullRequest repo head base title (inl err)) before.
Proof.
  exact (@failed_run_cleans_up_and_reports sample_cfg
           (sample_world two_obsolete_branches
              [deleteCmd "upgrade-cli-src--master--ccc3333"] [])
           None []
           (sample_error "exec: git push origin :upgrade-cli-src--master--ccc3333")
           ltac:(vm_compute; reflexivity)).
Defined.

(* ===================================================================== *)
(** ** Runs that change nothing *)
(* ===================================================================== *)

(** X12. When the check finds that no upgrade is needed, the run ends
    successfully with one more log line, which gives the reason: the
    Shas match, or no file under [help/] changed. Nothing but log lines
    and reads of the hosting system has happened: no working copy, no
    branch deleted, no command run. *)
Theorem no_upgrade_needed_stops (cfg : Config) (W : World) (ob : option string)
  (h : History) (res : Upgradelet.IUpgradeCheckResults) (es : list Event) :
  Upgradelet.checkNeedsUpgrade cfg W (Upgradelet.branchArg cfg ob) (h ++ [startLog])
  = (inr res, es) ->
  Upgradelet.needsUpgrade res = false ->
  Upgradelet.checkAndUpgrade cfg W ob h = (inr tt, startLog :: es ++ [noUpgradeLog res])
  /\ Forall (fun e => is_read_or_log e = true) (startLog :: es ++ [noUpgradeLog res]).
Proof.
  intros C N. split.
  - unfold Upgradelet.checkAndUpgrade. cbv zeta. unfold logger_info.
    rewrite (try_catch_bind_ok _ _ _ _ (emit_run _ _)). fold startLog.
    rewrite (try_catch_bind_ok _ _ _ _ C). rewrite N. cbn [negb].
    fold (noUpgradeLog res).
    unfold try_catch, emit, after. cbn [fst snd app]. reflexivity.
  - constructor; [reflexivity|]. apply Forall_app. split.
    + exact (emits_run _ (checkNeedsUpgrade_reads cfg W _) C).
    + repeat constructor.
Qed.

Lemma no_upgrade_needed_stops_witness :
  let W := with_script (sample_world two_obsolete_branches [] [])
             (Some "node tools/extract.js bbb2222") in
  exists res es,
    Upgradelet.checkAndUpgrade sample_cfg W None []
    = (inr tt, startLog :: es ++ [noUpgradeLog res])
    /\ noUpgradeLog res
       = ELogInfo "No upgrade needed. Already using the latest SHA (bbb2222)."
    /\ Forall (fun e => is_read_or_log e = true) (startLog :: es ++ [noUpgradeLog res]).
Proof.
  cbv zeta. eexists (Upgradelet.mkCheck "bbb2222" "bbb222233" false), _.
  pose proof (@no_upgrade_needed_stops sample_cfg
                (with_script (sample_world two_obsolete_branches [] [])
                   (Some "node tools/extract.js bbb2222"))
                None [] (Upgradelet.mkCheck "bbb2222" "bbb222233" false) _
                ltac:(vm_compute; reflexivity) eq_refl) as [R F].
  split; [exact R|]. split; [reflexivity | exact F].
Defined.

(** X13. Off CI a run never writes the credentials file, changes its
    mode, sets a git configuration value or files an issue, however it
    ends; neither does [checkOnly]. *)
Theorem off_ci_nothing_is_configured (cfg : Config) (W : World) (ob : option string)
  (h : History) :
  env_CI cfg = false ->
  Forall (fun e => is_ci_only e = false) (snd (Upgradelet.checkAndUpgrade cfg W ob h))
  /\ Forall (fun e => is_ci_only e = false) (snd (Upgradelet.checkOnly cfg W ob h)).
Proof.
  intros CI.
  assert (Q : forall A (m : M A),
             emits (fun e => negb (is_ci_only e) = true) m ->
             forall h', Forall (fun e => is_ci_only e = false) (snd (m h'))).
  { intros A m Q h'. eapply Forall_impl; [| apply Q].
    intros e. apply negb_true_iff. }
  split; apply Q.
  - unfold Upgradelet.checkAndUpgrade, Upgradelet.checkAndUpgrade_catch,
      Upgradelet.checkAndUpgrade_reconcile, Upgradelet.checkAndUpgrade_checkExisting,
      Upgradelet.checkAndUpgrade_submit, Upgradelet.checkNeedsUpgrade,
      Upgradelet.retrieveShaFromAio, Upgradelet.retrieveShaFromCliBuilds,
      Upgradelet.checkNeedsUpgrade_decide, Upgradelet.initLocalRepo,
      Upgradelet.getOpenPrsPerBranch, Upgradelet.cleanupObsoleteBranches,
      Upgradelet.reportError, Upgradelet.REPORT_ERRORS,
      Upgradelet.createLocalBranch,
      Upgradelet.makeChanges, Upgradelet.commitAndPush, Upgradelet.submitPullRequest,
      Upgradelet.commentOnSupercededPrs, Upgradelet.ignoreError, GitRepo.destroy.
    rewrite CI. cbn [negb].
    unfold_git. unfold_calls. cbn [as_opts].
    repeat emits_step; try reflexivity;
      try (unfold is_ci_only; verb_of_execInRepo; reflexivity).
    all: try (match goal with H : In _ (map _ _) |- _ =>
                apply in_map_iff in H; destruct H as (? & <- & _) end;
              apply emits_call; intros; reflexivity).
  - unfold Upgradelet.checkOnly, Upgradelet.checkNeedsUpgrade,
      Upgradelet.retrieveShaFromAio, Upgradelet.retrieveShaFromCliBuilds,
      Upgradelet.checkNeedsUpgrade_decide, Upgradelet.reportError,
      Upgradelet.REPORT_ERRORS, Upgradelet.ignoreError.
    rewrite CI. cbn [negb].
    unfold_calls. repeat emits_step; reflexivity.
Qed.

Lemma off_ci_nothing_is_configured_witness :
  let W := sample_world two_stale_branches [] [] in
  env_CI sample_cfg = false
  /\ Forall (fun e => is_ci_only e = false)
       (snd (Upgradelet.checkAndUpgrade sample_cfg W None []))
  /\ Forall (fun e => is_ci_only e = false)
       (snd (Upgradelet.checkOnly sample_cfg W None [])).
Proof.
  split; [reflexivity|].
  exact (@off_ci_nothing_is_configured sample_cfg
           (sample_world two_stale_branches [] []) None [] eq_refl).
Defined.

(* ===================================================================== *)
(** ** Setting up the working copy *)
(* ===================================================================== *)

Ltac bind_ok_inv E a es1 E1 :=
  apply bind_inv in E;
  destruct E as [(? & _ & ?) | (a & es1 & ? & E1 & E & ->)]; [discriminate|].

Lemma call_ok_inv {A} (o : History -> result A) (ev : result A -> Event)
  (h : History) (a : A) (es : list Event) :
  call o ev h = (inr a, es) -> es = [ev (inr a)].
Proof. unfold call. intros E. injection E as -> <-. reflexivity. Qed.

Lemma execInRepo_ok_cmds (W : World) (this : GitRepo.t) (partialCmd : string)
  (opts : option ICommnandOptions) (h : History) r es :
  GitRepo.destroyed this = false ->
  GitRepo.execInRepo W this partialCmd opts h = (inr r, es) ->
  exec_cmds es = [GitRepo.withOptions (JS.trim partialCmd) opts].
Proof.
  intros live E.
  destruct (execInRepo_cmds _ _ _ _ _ live E) as [[_ [e C]] | C];
    [discriminate | exact C].
Qed.

Lemma unit_cmd_ok (W : World) (this : GitRepo.t) (partialCmd : string)
  (opts : option ICommnandOptions) (h : History) u es :
  GitRepo.destroyed this = false ->
  bind (GitRepo.execInRepo W this partialCmd opts) (fun _ => ret tt) h = (inr u, es) ->
  exec_cmds es = [GitRepo.withOptions (JS.trim partialCmd) opts].
Proof.
  intros live E.
  destruct (execInRepo_unit_cmds _ _ _ _ _ live E) as [[_ [e C]] | C];
    [discriminate | exact C].
Qed.

Lemma addRemote_ok_cmds (W : World) (this : GitRepo.t) (name url : string)
  (h : History) u es :
  GitRepo.destroyed this = false ->
  GitRepo.addRemote W this name url h = (inr u, es) ->
  exec_cmds es
  = [JS.trim ("git remote remove " +++ name +++ " || true");
     JS.trim ("git remote add " +++ name +++ " " +++ url)].
Proof.
  intros live E. unfold GitRepo.addRemote in E.
  bind_ok_inv E a es1 E1.
  rewrite exec_cmds_app, (execInRepo_ok_cmds _ _ _ _ _ live E1).
  rewrite (unit_cmd_ok _ _ _ _ _ live E). reflexivity.
Qed.

Lemma config_ok_cmds (W : World) (this : GitRepo.t) (key value : string)
  (h : History) u es :
  GitRepo.destroyed this = false ->
  GitRepo.config W this key value h = (inr u, es) ->
  exec_cmds es = [JS.trim ("git config " +++ key +++ " " +++ value)].
Proof. intros live E. exact (unit_cmd_ok _ _ _ _ _ live E). Qed.

(** X14. A working copy that has been set up is a live repository in
    the directory named after the repository under the temporary
    directory. That directory was removed and created anew before any
    git command; then the repository was initialised and the remotes
    [origin] and [upstream] were set, each removed first. On CI, and only
    there, the credentials file was then written and closed to group and
    others, before git was configured to use it and given the identity. *)
Theorem initLocalRepo_sets_up (cfg : Config) (W : World) (h : History)
  (localRepo : GitRepo.t) (es : list Event) :
  Upgradelet.initLocalRepo cfg W h = (inr localRepo, es) ->
  let dir := path_join cfg (os_tmpdir cfg) (ng_upstreamName cfg) in
  let cred := Upgradelet.CREDENTIALS_PATH cfg in
  localRepo = GitRepo.new dir
  /\ exists info remotes identity,
       es = ELogInfo info :: ERm "-rf" dir (inr tt) :: EMkdir "-p" dir (inr tt)
            :: remotes ++ identity
       /\ exec_cmds remotes
          = ["git init";
             "git remote remove origin || true";
             JS.trim ("git remote add origin "
                      +++ repo_url cfg (ng_originOwner cfg) (ng_upstreamName cfg));
             "git remote remove upstream || true";
             JS.trim ("git remote add upstream "
                      +++ repo_url cfg (ng_upstreamOwner cfg) (ng_upstreamName cfg))]
       /\ if env_CI cfg then
            exists info' configs,
              identity
              = ELogInfo info'
                :: EWriteFile cred ("https://" +++ GH_TOKEN cfg +++ ":@github.com")
                     (inr tt)
                :: EChmod "go-rwx" cred (inr tt) :: configs
              /\ exec_cmds configs
                 = [JS.trim ("git config credential.helper " +++ JS.DQUOTE
                             +++ "store --file=" +++ cred +++ JS.DQUOTE);
                    JS.trim ("git config user.name " +++ JS.DQUOTE
                             +++ user_name cfg +++ JS.DQUOTE);
                    JS.trim ("git config user.email " +++ JS.DQUOTE
                             +++ user_email cfg +++ JS.DQUOTE)]
          else identity = [].
Proof.
  intros E dir cred. unfold Upgradelet.initLocalRepo in E. cbv zeta in E.
  change (name (Upgradelet.originRepo cfg)) with (ng_upstreamName cfg) in E.
  fold dir in E. fold cred in E.
  assert (live : GitRepo.destroyed (GitRepo.new dir) = false) by reflexivity.
  unfold logger_info in E.
  bind_ok_inv E a0 es0 E0. rewrite emit_run in E0. injection E0 as _ <-.
  bind_ok_inv E a1 es1 E1. apply call_ok_inv in E1. subst es1. destruct a1.
  bind_ok_inv E a2 es2 E2. apply call_ok_inv in E2. subst es2. destruct a2.
  bind_ok_inv E a3 es3 E3. apply (unit_cmd_ok _ _ _ _ _ live) in E3.
  bind_ok_inv E a4 es4 E4. apply (addRemote_ok_cmds _ _ _ _ _ live) in E4.
  bind_ok_inv E a5 es5 E5. apply (addRemote_ok_cmds _ _ _ _ _ live) in E5.
  bind_ok_inv E a6 es6 E6.
  unfold ret in E. injection E as <- <-.
  split; [reflexivity|].
  eexists _, (es3 ++ es4 ++ es5), es6.
  split; [cbn [app]; now rewrite app_nil_r, <- !app_assoc|].
  split.
  - rewrite !exec_cmds_app, E3, E4, E5. reflexivity.
  - destruct (env_CI cfg).
    + bind_ok_inv E6 b0 fs0 F0. rewrite emit_run in F0. injection F0 as _ <-.
      bind_ok_inv E6 b1 fs1 F1. apply call_ok_inv in F1. subst fs1. destruct b1.
      bind_ok_inv E6 b2 fs2 F2. apply call_ok_inv in F2. subst fs2. destruct b2.
      bind_ok_inv E6 b3 fs3 F3. apply (config_ok_cmds _ _ _ _ _ live) in F3.
      bind_ok_inv E6 b4 fs4 F4. apply (config_ok_cmds _ _ _ _ _ live) in F4.
      apply (config_ok_cmds _ _ _ _ _ live) in E6.
      eexists _, _. split; [cbn [app]; reflexivity|].
      rewrite !exec_cmds_app, F3, F4, E6. reflexivity.
    + unfold ret in E6. now injection E6 as _ <-.
Qed.

Lemma initLocalRepo_sets_up_witness :
  let W := sample_world [] [] [] in
  exists localRepo es,
    Upgradelet.initLocalRepo ci_cfg W [] = (inr localRepo, es)
    /\ localRepo = GitRepo.new "/tmp/angular"
    /\ exists info remotes identity,
         es = ELogInfo info :: ERm "-rf" "/tmp/angular" (inr tt)
              :: EMkdir "-p" "/tmp/angular" (inr tt) :: remotes ++ identity
         /\ exec_cmds remotes
            = ["git init";
               "git remote remove origin || true";
               "git remote add origin https://github.com/ngx-bot/angular.git";
               "git remote remove upstream || true";
               "git remote add upstream https://github.com/angular/angular.git"]
         /\ exists info' configs,
              identity
              = ELogInfo info'
                :: EWriteFile "/tmp/.git-credentials--upgrade-cli-src"
                     "https://token:@github.com" (inr tt)
                :: EChmod "go-rwx" "/tmp/.git-credentials--upgrade-cli-src" (inr tt)
                :: configs
              /\ exec_cmds configs
                 = ["git config credential.helper "
                    +++ JS.DQUOTE +++ "store --file=/tmp/.git-credentials--upgrade-cli-src"
                    +++ JS.DQUOTE;
                    "git config user.name " +++ JS.DQUOTE +++ "bot" +++ JS.DQUOTE;
                    "git config user.email " +++ JS.DQUOTE +++ "bot@example.com"
                    +++ JS.DQUOTE].
Proof.
  cbv zeta.
  destruct (Upgradelet.initLocalRepo ci_cfg (sample_world [] [] []) [])
    as [[e|localRepo] es] eqn:E; [vm_compute in E; discriminate|].
  exists localRepo, es. split; [reflexivity|].
  exact (@initLocalRepo_sets_up ci_cfg (sample_world [] [] []) [] localRepo es E).
Defined.

(* ===================================================================== *)
(** ** Submitting the pull request *)
(* ===================================================================== *)

(** X15. The pull request is created from [originOwner:originBranch]
    against the upstream branch. If the creation fails, that error is
    thrown and no label is touched. Otherwise the four labels are added
    to the new pull request, once; a failure to do so is only warned
    about, and the pull request is returned all the same. *)
Theorem submitPullRequest_labels_best_effort (cfg : Config) (W : World)
  (originBranch upstreamBranch title : string) (h : History) :
  let upstream := Upgradelet.upstreamRepo cfg in
  let head := ng_originOwner cfg +++ ":" +++ originBranch in
  exists info,
    let created :=
      gh_createPullRequest W (h ++ [ELogInfo info]) upstream head upstreamBranch title in
    let creation := ECreatePullRequest upstream head upstreamBranch title created in
    Upgradelet.submitPullRequest cfg W originBranch upstreamBranch title h
    = match created with
      | inl e => (inl e, [ELogInfo info; creation])
      | inr pr =>
          (inr pr,
           ELogInfo info :: creation
           :: attempted
                (EAddLabels upstream (number pr)
                   ["comp: build & ci"; "comp: docs-infra"; "PR action: review";
                    "PR target: TBD"])
                (gh_addLabels W (h ++ [ELogInfo info; creation]) upstream (number pr)
                   ["comp: build & ci"; "comp: docs-infra"; "PR action: review";
                    "PR target: TBD"]))
      end.
Proof.
  intros upstream head.
  unfold Upgradelet.submitPullRequest. cbv zeta. unfold logger_info.
  match goal with |- context [emit (ELogInfo ?i)] => exists i end.
  cbv zeta. rewrite (bind_ok _ _ _ (emit_run _ _)).
  change (owner (Upgradelet.originRepo cfg)) with (ng_originOwner cfg).
  fold upstream. fold head.
  unfold bind at 1, createPullRequest at 1, call at 1.
  destruct (gh_createPullRequest W _ upstream head upstreamBranch title) as [e|pr].
  - reflexivity.
  - unfold addLabels. rewrite (bind_ok _ _ _ (ignoreError_call _ _ _)).
    unfold ret, after. cbn [fst snd app]. rewrite app_nil_r, <- app_assoc.
    reflexivity.
Qed.

(* ===================================================================== *)
(** ** Looking up the open pull requests of a branch *)
(* ===================================================================== *)

Lemma map_get_In {V} (m : JS.Map V) (k : string) (v : V) :
  NoDup (JS.map_keys m) -> In (k, v) m -> JS.map_get m k = Some v.
Proof.
  induction m as [|[k' v'] m IH]; intros N I; [destruct I|].
  cbn [JS.map_get]. inversion N as [|? ? Nk N']; subst.
  destruct I as [I|I].
  - injection I as -> ->. now rewrite String.eqb_refl.
  - destruct (String.eqb_spec k k') as [->|D].
    + exfalso. apply Nk. apply in_map_iff. now exists (k', v).
    + auto.
Qed.

Lemma map_get_absent {V} (m : JS.Map V) (k : string) :
  ~ In k (JS.map_keys m) -> JS.map_get m k = None.
Proof.
  induction m as [|[k' v'] m IH]; intros N; [reflexivity|].
  cbn [JS.map_get]. cbn in N.
  destruct (String.eqb_spec k k') as [->|D]; [tauto|]. apply IH. tauto.
Qed.

Lemma combine_functional {A B} (l : list A) (r : list B) (k : A) (v v' : B) :
  NoDup l -> In (k, v) (combine l r) -> In (k, v') (combine l r) -> v = v'.
Proof.
  revert r. induction l as [|a l IH]; intros [|b r] N I I'; try contradiction.
  inversion N as [|? ? Na N']; subst. cbn [combine] in I, I'.
  destruct I as [I|I], I' as [I'|I'].
  - congruence.
  - injection I as -> ->. apply in_combine_l in I'. tauto.
  - injection I' as -> ->. apply in_combine_l in I. tauto.
  - eauto.
Qed.

(** X16. The branch-to-open-PR map, for branches listed once each: a
    branch is looked up to the open pull requests among those reported
    for it whose title starts with the commit message prefix, when there
    is one, and is absent from the map when there is none; a branch that
    was not asked about is absent. *)
Theorem getOpenPrsPerBranch_lookup (cfg : Config) (W : World)
  (branches : list string) (h : History) (m : JS.Map (list IPullRequest))
  (es : list Event) :
  NoDup branches ->
  Upgradelet.getOpenPrsPerBranch cfg W branches h = (inr m, es) ->
  (forall b prsForBranch,
      In (EGetPullRequests (Upgradelet.upstreamRepo cfg)
            (Upgradelet.searchParamsFor cfg b) (inr prsForBranch)) es ->
      JS.map_get m b
      = match openRelevantPrs prsForBranch with
        | [] => None
        | prs => Some prs
        end)
  /\ (forall b, ~ In b branches -> JS.map_get m b = None)
  /\ (forall b, In b branches ->
      exists prsForBranch,
        In (EGetPullRequests (Upgradelet.upstreamRepo cfg)
              (Upgradelet.searchParamsFor cfg b) (inr prsForBranch)) es).
Proof.
  intros N E. apply getOpenPrsPerBranch_spec in E.
  destruct E as (answers & L & -> & ->).
  assert (K : sublist (map fst (openPrEntries branches answers)) branches).
  { unfold openPrEntries.
    eapply sublist_trans; [apply sublist_map, sublist_filter|].
    rewrite map_map. cbn [fst].
    rewrite <- (@map_fst_combine _ _ branches answers L) at 2.
    apply sublist_refl. }
  assert (Nk : NoDup (map fst (openPrEntries branches answers)))
    by (eapply sublist_NoDup; eauto).
  rewrite (map_of_entries_NoDup _ Nk).
  split; [|split].
  - intros b ans I. apply pullRequestQueries_In in I.
    destruct (openRelevantPrs ans) as [|pr prs] eqn:O.
    + apply map_get_absent. intros Ik. apply openPrEntries_key in Ik.
      destruct Ik as (ans' & I' & O').
      rewrite (combine_functional _ _ _ _ N I' I) in O'. congruence.
    + apply map_get_In; [exact Nk|].
      unfold openPrEntries. apply filter_In. split.
      * apply in_map_iff. exists (b, ans). cbn [fst snd]. rewrite O. auto.
      * reflexivity.
  - intros b Nb. apply map_get_absent. intros Ik. apply Nb.
    eapply sublist_In; eauto.
  - intros b Ib.
    assert (Ic : In b (map fst (combine branches answers)))
      by (now rewrite (@map_fst_combine _ _ branches answers L)).
    apply in_map_iff in Ic. destruct Ic as ([b' ans] & <- & Ic).
    exists ans. now apply pullRequestQueries_In.
Qed.

Lemma getOpenPrsPerBranch_lookup_witness :
  let W := sample_world two_stale_branches [] [] in
  let stale := "upgrade-cli-src--master--ccc3333" in
  let obsolete := "upgrade-cli-src--master--ddd4444" in
  exists m es,
    Upgradelet.getOpenPrsPerBranch sample_cfg W [stale; obsolete] [] = (inr m, es)
    /\ JS.map_get m stale
       = Some [mkPr 10 "https://github.com/angular/angular/pull/10" sample_title "open"]
    /\ JS.map_get m obsolete = None
    /\ JS.map_get m "master" = None.
Proof.
  cbv zeta.
  destruct (Upgradelet.getOpenPrsPerBranch sample_cfg
              (sample_world two_stale_branches [] [])
              ["upgrade-cli-src--master--ccc3333"; "upgrade-cli-src--master--ddd4444"]
              []) as [[e|m] es] eqn:E; [vm_compute in E; discriminate|].
  assert (I : In (EGetPullRequests (Upgradelet.upstreamRepo sample_cfg)
                    (Upgradelet.searchParamsFor sample_cfg
                       "upgrade-cli-src--master--ccc3333")
                    (inr [mkPr 9 "https://github.com/angular/angular/pull/9"
                            sample_title "closed";
                          mkPr 10 "https://github.com/angular/angular/pull/10"
                            sample_title "open"])) es
              /\ In (EGetPullRequests (Upgradelet.upstreamRepo sample_cfg)
                       (Upgradelet.searchParamsFor sample_cfg
                          "upgrade-cli-src--master--ddd4444") (inr [])) es).
  { vm_compute in E. injection E as _ <-. vm_compute. tauto. }
  assert (N : NoDup ["upgrade-cli-src--master--ccc3333";
                     "upgrade-cli-src--master--ddd4444"]).
  { repeat constructor; cbn; intuition discriminate. }
  destruct (@getOpenPrsPerBranch_lookup sample_cfg
              (sample_world two_stale_branches [] []) _ [] m es N E) as (L & A & _).
  exists m, es. split; [reflexivity|].
  split; [rewrite (L _ _ (proj1 I)); reflexivity|].
  split; [rewrite (L _ _ (proj2 I)); reflexivity|].
  apply A. cbn. intuition discriminate.
Defined.

Lemma Forall2_of_map {A B C} (f : A -> B) (R : B -> C -> Prop) (l : list A)
  (r : list C) :
  Forall2 R (map f l) r -> Forall2 (fun a c => R (f a) c) l r.
Proof.
  revert r. induction l as [|a l IH]; intros r F; inversion F; subst; constructor;
    auto.
Qed.

Lemma promise_all_queries (W : World) (repo : GithubRepo)
  (params : list IPullRequestSearchParams) :
  forall h,
    let run := promise_all (map (fun p => getPullRequests W repo p) params) h in
    Forall2 (fun p e => exists r, e = EGetPullRequests repo p r) params (snd run)
    /\ match fst run with
       | inr _ =>
           Forall (fun e => exists p answer, e = EGetPullRequests repo p (inr answer))
             (snd run)
       | inl err => exists p, In p params /\ In (EGetPullRequests repo p (inl err)) (snd run)
       end.
Proof.
  induction params as [|p params IH]; intros h; cbn [map promise_all].
  - simpl. split; constructor.
  - cbn zeta.
    assert (G : getPullRequests W repo p h
                = (gh_getPullRequests W h repo p,
                   [EGetPullRequests repo p (gh_getPullRequests W h repo p)]))
      by reflexivity.
    rewrite G.
    specialize (IH (h ++ [EGetPullRequests repo p (gh_getPullRequests W h repo p)])).
    cbn zeta in IH.
    destruct (promise_all (map (fun p => getPullRequests W repo p) params)
                (h ++ [EGetPullRequests repo p (gh_getPullRequests W h repo p)]))
      as [rs es'].
    cbn [fst snd app] in *. destruct IH as [F2 Hr]. split.
    + constructor; [eauto | exact F2].
    + destruct (gh_getPullRequests W h repo p) as [e|answer].
      * exists p. split; now left.
      * destruct rs as [e|l].
        -- destruct Hr as (q & Iq & Hq). exists q. split; now right.
        -- constructor; [eauto | exact Hr].
Qed.

(** X17. The pull requests are asked for branch by branch, in order, by
    the head [originOwner:branch] and in any state; every branch is
    asked about even when an earlier query fails. If the lookup fails,
    its error is that of one of the queries; if it succeeds, every query
    was answered. *)
Theorem getOpenPrsPerBranch_asks_every_branch (cfg : Config) (W : World)
  (branches : list string) (h : History) :
  let upstream := Upgradelet.upstreamRepo cfg in
  let run := Upgradelet.getOpenPrsPerBranch cfg W branches h in
  Forall2 (fun b e =>
             exists r,
               e = EGetPullRequests upstream
                     (mkSearch (ng_originOwner cfg +++ ":" +++ b) "all") r)
    branches (snd run)
  /\ match fst run with
     | inr _ =>
         Forall (fun e => exists p answer, e = EGetPullRequests upstream p (inr answer))
           (snd run)
     | inl err =>
         exists b,
           In b branches
           /\ In (EGetPullRequests upstream
                    (mkSearch (ng_originOwner cfg +++ ":" +++ b) "all") (inl err))
                (snd run)
     end.
Proof.
  intros upstream run. subst run. unfold Upgradelet.getOpenPrsPerBranch.
  pose proof (promise_all_queries W upstream
                (map (Upgradelet.searchParamsFor cfg) branches) h) as P.
  cbv zeta in P. fold upstream.
  unfold bind.
  destruct (promise_all _ h) as [[e|answers] es]; cbn [fst snd] in *.
  - destruct P as [F2 (p & Ip & Ie)]. split.
    + exact (Forall2_of_map _ _ F2).
    + apply in_map_iff in Ip. destruct Ip as (b & <- & Ib). exists b. now split.
  - unfold ret. cbn [fst snd]. rewrite app_nil_r. destruct P as [F2 Fa]. split.
    + exact (Forall2_of_map _ _ F2).
    + exact Fa.
Qed.

(* ===================================================================== *)
(** ** The commands of the new work *)
(* ===================================================================== *)

Lemma unit_cmd_cases (W : World) (this : GitRepo.t) (partialCmd : string)
  (opts : option ICommnandOptions) (h : History) r es :
  GitRepo.destroyed this = false ->
  bind (GitRepo.execInRepo W this partialCmd opts) (fun _ => ret tt) h = (r, es) ->
  let cmd := GitRepo.withOptions (JS.trim partialCmd) opts in
  (r = inr tt /\ exec_cmds es = [cmd])
  \/ (exists e, r = inl e /\ (exec_cmds es = [] \/ exec_cmds es = [cmd])).
Proof.
  intros live E cmd.
  destruct (execInRepo_unit_cmds _ _ _ _ _ live E) as [[C [e ->]] | C].
  - right. exists e. auto.
  - destruct r as [e|[]]; [right; exists e; auto | left; auto].
Qed.

Lemma withOptions_one_value (cmd key value : string) :
  string_forall not_space key = true ->
  string_forall not_space value = true -> value <> "" ->
  GitRepo.withOptions cmd (Some [(key, OStr value)])
  = cmd +++ " " +++ flag key +++ " " +++ value.
Proof.
  intros Pk Pv Nv. destruct (flag_plain key Pk) as [Pf Nf].
  unfold GitRepo.withOptions, GitRepo.render_option.
  cbn [filter snd fst GitRepo.is_false negb map JS.join].
  rewrite option_name_flag, trim_plain_value by auto.
  destruct (flag key) as [|c f]; [congruence | reflexivity].
Qed.

Lemma trim_command_arg (cmd arg : string) (c : ascii) :
  JS.is_space c = false ->
  string_forall not_space arg = true -> arg <> "" ->
  JS.trim (String c cmd +++ arg) = String c cmd +++ arg.
Proof.
  intros S P N. unfold JS.trim.
  change (String c cmd +++ arg) with (String c (cmd +++ arg)).
  rewrite trimStart_head by exact S.
  change (String c (cmd +++ arg)) with (String c cmd +++ arg).
  now apply trimEnd_app_plain.
Qed.

Lemma exec_cmds_info (info : string) (es : list Event) :
  exec_cmds (ELogInfo info :: es) = exec_cmds es.
Proof. reflexivity. Qed.

(** X18. A local branch is created by fetching the upstream branch
    (one commit deep) and checking out what was fetched under the new
    name, in this order; when the creation fails, the commands run are
    none, the fetch alone, or both. The branch names are free of white
    space. *)
Theorem createLocalBranch_fetches_then_checks_out (cfg : Config) (W : World)
  (localRepo : GitRepo.t) (localBranch branch : string) (h : History) :
  GitRepo.destroyed localRepo = false ->
  string_forall not_space branch = true -> branch <> "" ->
  string_forall not_space localBranch = true -> localBranch <> "" ->
  let run := Upgradelet.createLocalBranch cfg W localRepo localBranch branch h in
  let fetchCmd := "git fetch upstream " +++ branch +++ " --depth 1" in
  let checkoutCmd := "git checkout FETCH_HEAD -b " +++ localBranch in
  match fst run with
  | inr _ => exec_cmds (snd run) = [fetchCmd; checkoutCmd]
  | inl _ =>
      exec_cmds (snd run) = [] \/ exec_cmds (snd run) = [fetchCmd]
      \/ exec_cmds (snd run) = [fetchCmd; checkoutCmd]
  end.
Proof.
  intros live Pb Nb Pl Nl run fetchCmd checkoutCmd. subst run.
  assert (F : GitRepo.withOptions (JS.trim ("git fetch " +++ GitRepo.UPSTREAM +++ " "
                                            +++ branch))
                (Some [("depth", OStr "1")]) = fetchCmd).
  { change ("git fetch " +++ GitRepo.UPSTREAM +++ " " +++ branch)
      with (String "g" "it fetch upstream " +++ branch).
    rewrite trim_command_arg by auto.
    rewrite withOptions_one_value by (reflexivity || discriminate).
    subst fetchCmd. change (flag "depth") with "--depth".
    change (String "g" "it fetch upstream ") with ("git fetch upstream ").
    rewrite append_assoc. reflexivity. }
  assert (C : GitRepo.withOptions (JS.trim ("git checkout " +++ "FETCH_HEAD"))
                (Some [("b", OStr localBranch)]) = checkoutCmd).
  { change (JS.trim ("git checkout " +++ "FETCH_HEAD")) with "git checkout FETCH_HEAD".
    rewrite withOptions_one_value by auto. reflexivity. }
  unfold Upgradelet.createLocalBranch, GitRepo.fetch, GitRepo.checkout, logger_info.
  cbv beta iota zeta.
  rewrite (bind_ok _ _ _ (emit_run _ _)). unfold after. cbn [fst snd].
  match goal with |- context [bind ?m ?f (h ++ ?l)] => set (h1 := h ++ l) end.
  match goal with
  | |- context [bind ?m ?f h1] => destruct (m h1) as [r1 es1] eqn:E1
  end.
  destruct (unit_cmd_cases _ _ _ _ _ live E1) as [[-> X1] | (e & -> & X1)];
    rewrite F in X1.
  - rewrite (bind_ok _ _ _ E1). unfold after. cbn [fst snd app].
    match goal with
    | |- context [bind ?m ?f (h1 ++ es1)] =>
        destruct (bind m f (h1 ++ es1)) as [r2 es2] eqn:E2
    end.
    destruct (unit_cmd_cases _ _ _ _ _ live E2) as [[-> X2] | (e & -> & X2)];
      rewrite C in X2; cbn [fst snd]; rewrite exec_cmds_info, exec_cmds_app, X1.
    + now rewrite X2.
    + destruct X2 as [-> | ->]; auto.
  - rewrite (bind_err _ _ _ E1). cbn [fst snd app]. rewrite exec_cmds_info.
    destruct X1 as [-> | ->]; auto.
Qed.

Lemma createLocalBranch_fetches_then_checks_out_witness :
  exec_cmds
    (snd (Upgradelet.createLocalBranch sample_cfg (sample_world [] [] [])
            (GitRepo.new "/tmp/angular") "upgrade-cli-src--master--bbb222233"
            "master" []))
  = ["git fetch upstream master --depth 1";
     "git checkout FETCH_HEAD -b upgrade-cli-src--master--bbb222233"].
Proof.
  exact (@createLocalBranch_fetches_then_checks_out sample_cfg (sample_world [] [] [])
           (GitRepo.new "/tmp/angular") "upgrade-cli-src--master--bbb222233"
           "master" [] eq_refl eq_refl ltac:(discriminate) eq_refl
           ltac:(discriminate)).
Defined.

Lemma execInRepo_ok_event (W : World) (this : GitRepo.t) (partialCmd : string)
  (opts : option ICommnandOptions) (h : History) r es :
  GitRepo.destroyed this = false ->
  GitRepo.execInRepo W this partialCmd opts h = (inr r, es) ->
  In (EExec (GitRepo.withOptions (JS.trim partialCmd) opts) (inr r)) es.
Proof.
  intros live E.
  destruct (execInRepo_events W this partialCmd opts h live)
    as (entered & inside & left & R & I).
  cbv zeta in R, I.
  set (ran := sh_exec W _ _) in R, I. clearbody ran.
  rewrite E in R. injection R as R ->.
  destruct left as [e|[]]; [discriminate|].
  destruct entered as [e|[]]; [discriminate|].
  subst ran inside. right. right. now left.
Qed.

Lemma exec_cmds_info_app (info : string) (es : list Event) :
  exec_cmds ([ELogInfo info] ++ es) = exec_cmds es.
Proof. reflexivity. Qed.

(** X19. Committing and pushing runs four commands in this order: the
    commit of all changes with the message, the fetch that completes the
    history of origin, the reading of the current branch, and the forced
    push of that branch to the branch of the same name on origin. A
    failure stops it where it occurs; when it succeeds all four have
    run, and the branch pushed is the one the reading printed. *)
Theorem commitAndPush_order (W : World) (localRepo : GitRepo.t) (commitMsg : string)
  (h : History) :
  GitRepo.destroyed localRepo = false ->
  let run := Upgradelet.commitAndPush W localRepo commitMsg h in
  exists cur n,
    exec_cmds (snd run)
    = firstn n [commitCmd commitMsg; "git fetch origin --unshallow"; revParseCmd;
                pushCmd "origin" cur cur (Some [("force", OBool true)])]
    /\ (fst run = inr tt ->
        n = 4
        /\ exists out,
             In (EExec revParseCmd (inr out)) (snd run)
             /\ cur = JS.trim (stdout out)).
Proof.
  intros live run. subst run.
  unfold Upgradelet.commitAndPush, GitRepo.commit, GitRepo.fetch, logger_info.
  cbv beta iota zeta. cbn [as_opts].
  rewrite (bind_ok _ _ _ (emit_run _ _)). unfold after. cbn [fst snd].
  match goal with |- context [bind ?m ?f (h ++ ?l)] => set (h1 := h ++ l) end.
  match goal with
  | |- context [bind ?m ?f h1] => destruct (m h1) as [r1 es1] eqn:E1
  end.
  destruct (unit_cmd_cases _ _ _ _ _ live E1) as [[-> X1] | (e & -> & X1)];
    change (GitRepo.withOptions _ _) with (commitCmd commitMsg) in X1.
  2:{ rewrite (bind_err _ _ _ E1). cbn [fst snd]. rewrite exec_cmds_info_app.
      destruct X1 as [-> | ->]; [exists "", 0 | exists "", 1];
        (split; [reflexivity | discriminate]). }
  rewrite (bind_ok _ _ _ E1). unfold after. cbn [fst snd].
  match goal with
  | |- context [bind ?m ?f (h1 ++ es1)] => destruct (m (h1 ++ es1)) as [r2 es2] eqn:E2
  end.
  destruct (unit_cmd_cases _ _ _ _ _ live E2) as [[-> X2] | (e & -> & X2)];
    change (GitRepo.withOptions _ _) with "git fetch origin --unshallow" in X2.
  2:{ rewrite (bind_err _ _ _ E2). cbn [fst snd].
      rewrite exec_cmds_info_app, exec_cmds_app, X1.
      destruct X2 as [-> | ->]; [exists "", 1 | exists "", 2];
        (split; [reflexivity | discriminate]). }
  rewrite (bind_ok _ _ _ E2). unfold after. cbn [fst snd].
  rewrite (@push_reads_current_branch W localRepo GitRepo.ORIGIN
             (AOpts [("force", OBool true)]) AUndef None _ eq_refl).
  cbv zeta beta iota. cbn [as_opts].
  destruct (GitRepo.currentBranch W localRepo ((h1 ++ es1) ++ es2))
    as [[e|cur] es3] eqn:E3.
  - cbn [fst snd]. rewrite exec_cmds_info_app, !exec_cmds_app, X1, X2.
    unfold GitRepo.currentBranch in E3. apply bind_inv in E3.
    destruct E3 as [(e' & E3 & _) | (a & es' & es'' & _ & R & _)];
      [|discriminate].
    destruct (execInRepo_cmds _ _ _ _ _ live E3) as [[-> _] | ->];
      [exists "", 2 | exists "", 3]; (split; [reflexivity | discriminate]).
  - pose proof (currentBranch_cmds _ _ _ live E3) as X3.
    match goal with
    | |- context [after es3 (bind ?m ?f ?hh)] =>
        destruct (bind m f hh) as [r4 es4] eqn:E4
    end.
    rewrite after_pair. cbn [fst snd].
    rewrite exec_cmds_info_app, !exec_cmds_app, X1, X2, X3.
    exists cur.
    destruct (unit_cmd_cases _ _ _ _ _ live E4) as [[-> X4] | (e & -> & X4)];
      fold (pushCmd GitRepo.ORIGIN cur cur (Some [("force", OBool true)])) in X4.
    + exists 4. split; [now rewrite X4|]. intros _. split; [reflexivity|].
      unfold GitRepo.currentBranch in E3. apply bind_inv in E3.
      destruct E3 as [(e' & _ & R) | (out & es' & es'' & E3 & R & ->)];
        [discriminate|].
      unfold ret in R. injection R as <- <-.
      exists out. split; [|reflexivity].
      pose proof (execInRepo_ok_event _ _ _ _ _ live E3) as I.
      change (GitRepo.withOptions _ _) with revParseCmd in I.
      rewrite !in_app_iff. tauto.
    + destruct X4 as [-> | ->]; [exists 3 | exists 4];
        (split; [reflexivity | discriminate]).
Qed.

Lemma commitAndPush_order_witness :
  let W := sample_world [] [] [] in
  let run := Upgradelet.commitAndPush W (GitRepo.new "/tmp/angular") "subject" [] in
  fst run = inr tt
  /\ exists cur n,
       exec_cmds (snd run)
       = firstn n [commitCmd "subject"; "git fetch origin --unshallow"; revParseCmd;
                   pushCmd "origin" cur cur (Some [("force", OBool true)])]
       /\ (fst run = inr tt ->
           n = 4
           /\ exists out,
                In (EExec revParseCmd (inr out)) (snd run)
                /\ cur = JS.trim (stdout out)).
Proof.
  split; [vm_compute; reflexivity|].
  exact (@commitAndPush_order (sample_world [] [] []) (GitRepo.new "/tmp/angular")
           "subject" [] eq_refl).
Defined.

(* ===================================================================== *)
(** ** The end of a successful run *)
(* ===================================================================== *)

Lemma ignoreError_destroy_live (W : World) (localRepo : GitRepo.t) (h : History) :
  GitRepo.destroyed localRepo = false ->
  Upgradelet.ignoreError (GitRepo.destroy W localRepo) h
  = (inr tt,
     attempted (ERm "-rf" (GitRepo.directory localRepo))
       (sh_rm W h "-rf" (GitRepo.directory localRepo))).
Proof.
  intros live. unfold GitRepo.destroy. rewrite live. cbn [negb].
  unfold Upgradelet.ignoreError, try_catch, bind, rm, call, ret, logger_warn, emit,
    attempted.
  destruct (sh_rm W h "-rf" (GitRepo.directory localRepo)); reflexivity.
Qed.

Lemma ignoreError_comments (cfg : Config) (W : World)
  (supercededPrs : list IPullRequest) (newPr : IPullRequest) (h : History) :
  Forall (fun e => is_comment_or_warning e = true)
    (snd (Upgradelet.ignoreError
            (Upgradelet.commentOnSupercededPrs cfg W supercededPrs newPr) h)).
Proof.
  assert (Q : emits (fun e => is_comment_or_warning e = true)
                (Upgradelet.ignoreError
                   (Upgradelet.commentOnSupercededPrs cfg W supercededPrs newPr))).
  { unfold Upgradelet.ignoreError, Upgradelet.commentOnSupercededPrs.
    unfold_calls. repeat emits_step; try reflexivity.
    all: try (match goal with H : In _ (map _ _) |- _ =>
                apply in_map_iff in H; destruct H as (? & <- & _) end;
              apply emits_call; intros; reflexivity). }
  apply Q.
Qed.

(** X20. Once the pull request is submitted the run cannot fail any
    more. After the comments on the superceded pull requests, the removal
    of the working copy is attempted, once, and a failure is only warned
    about; the last event is the log line that names the new pull
    request. *)
Theorem submitted_run_ends_well (cfg : Config) (W : World)
  (ob : option string) (h : History)
  res localRepo relevantBranches openPrsPerBranch newPr sofar :
  submitted cfg W (Upgradelet.branchArg cfg ob) h res localRepo relevantBranches
    openPrsPerBranch newPr sofar ->
  exists comments,
    Upgradelet.checkAndUpgrade cfg W ob h
    = (inr tt,
       sofar ++ comments
       ++ attempted (ERm "-rf" (GitRepo.directory localRepo))
            (sh_rm W (h ++ sofar ++ comments) "-rf" (GitRepo.directory localRepo))
       ++ [successLog newPr])
    /\ Forall (fun e => is_comment_or_warning e = true) comments
    /\ GitRepo.directory localRepo
       = path_join cfg (os_tmpdir cfg) (ng_upstreamName cfg).
Proof.
  intros Hs.
  destruct Hs
    as (pre & dels & es5 & es6 & es7 & es8 & Hd & Ec & Hinc & E5 & E6 & E7 & E8 & ->).
  set (branch := Upgradelet.branchArg cfg ob) in *.
  set (latestSha := Upgradelet.latestSha res) in *.
  set (supercededPrs := Upgradelet.supercededPrsOf openPrsPerBranch) in *.
  destruct (discovered_facts Hd) as (live & _ & _).
  rewrite checkAndUpgrade_discovered with (1 := Hd).
  rewrite reconcile_run with (1 := Ec). rewrite after_after.
  unfold Upgradelet.checkAndUpgrade_checkExisting.
  fold branch latestSha. rewrite Hinc.
  unfold Upgradelet.checkAndUpgrade_submit.
  fold branch latestSha supercededPrs.
  norm_hist.
  rewrite (try_catch_bind_ok _ _ _ _ E5). norm_hist.
  rewrite (try_catch_bind_ok _ _ _ _ E6). norm_hist.
  rewrite (try_catch_bind_ok _ _ _ _ E7). norm_hist.
  rewrite (try_catch_bind_ok _ _ _ _ E8). norm_hist.
  set (h1 := h ++ pre ++ dels ++ es5 ++ es6 ++ es7 ++ es8).
  rewrite (try_catch_bind_ok _ _ _ _ (ignoreError_run _ h1)).
  set (cs := snd (Upgradelet.ignoreError
                    (Upgradelet.commentOnSupercededPrs cfg W supercededPrs newPr) h1)).
  rewrite (try_catch_bind_ok _ _ _ _ (ignoreError_destroy_live W localRepo (h1 ++ cs) live)).
  unfold logger_info at 1. unfold try_catch at 1. rewrite emit_run.
  fold (successLog newPr).
  rewrite !after_after. unfold after. cbn [fst snd].
  exists cs. split; [|split].
  - f_equal. subst h1. now rewrite <- !app_assoc.
  - apply ignoreError_comments.
  - destruct Hd as (es1 & es2 & branches & es3 & es4 & _ & _ & I & _).
    unfold Upgradelet.initLocalRepo in I. cbv zeta in I.
    unfold logger_info in I.
    bind_ok_inv I a0 fs0 I0. bind_ok_inv I a1 fs1 I1. bind_ok_inv I a2 fs2 I2.
    bind_ok_inv I a3 fs3 I3. bind_ok_inv I a4 fs4 I4. bind_ok_inv I a5 fs5 I5.
    bind_ok_inv I a6 fs6 I6.
    unfold ret in I. injection I as <- _. reflexivity.
Qed.

Lemma submitted_run_ends_well_witness :
  let cfg := sample_cfg in
  let W := sample_world two_stale_branches [] [10%N] in
  exists res localRepo relevantBranches openPrsPerBranch newPr sofar,
    submitted cfg W "master" [] res localRepo relevantBranches openPrsPerBranch
      newPr sofar
    /\ exists comments,
         Upgradelet.checkAndUpgrade cfg W None []
         = (inr tt,
            sofar ++ comments
            ++ attempted (ERm "-rf" (GitRepo.directory localRepo))
                 (sh_rm W ([] ++ sofar ++ comments) "-rf" (GitRepo.directory localRepo))
            ++ [successLog newPr])
         /\ Forall (fun e => is_comment_or_warning e = true) comments
         /\ GitRepo.directory localRepo = "/tmp/angular".
Proof.
  intros cfg W. do 6 eexists.
  match goal with |- ?S /\ _ => assert (Hs : S) by sample_submitted end.
  split; [exact Hs|].
  exact (submitted_run_ends_well None Hs).
Defined.

(* ===================================================================== *)
(** ** Fetching before listing, and deleting a remote branch *)
(* ===================================================================== *)

Lemma trim_command_padded (cmd arg : string) (c : ascii) :
  JS.is_space c = false ->
  string_forall not_space arg = true -> arg <> "" ->
  JS.trim (String c cmd +++ arg +++ " ") = String c cmd +++ arg.
Proof.
  intros S P N. unfold JS.trim.
  change (String c cmd +++ arg +++ " ") with (String c (cmd +++ arg +++ " ")).
  rewrite trimStart_head by exact S.
  change (String c (cmd +++ arg +++ " ")) with (String c cmd +++ arg +++ " ").
  rewrite <- append_assoc, trimEnd_app_spaces by reflexivity.
  now apply trimEnd_app_plain.
Qed.

(** X21. The branches of a remote are listed only after a fetch of that
    remote, one commit deep and without tags; when the listing fails, the
    commands run are none, the fetch alone, or both in this order. The
    name of the remote is free of white space. *)
Theorem getRemoteBranches_fetches_first (W : World) (this : GitRepo.t)
  (remote : string) (h : History) :
  GitRepo.destroyed this = false ->
  string_forall not_space remote = true -> remote <> "" ->
  let run := GitRepo.getRemoteBranches W this remote h in
  let fetchCmd := "git fetch " +++ remote +++ " --depth 1 --no-tags" in
  match fst run with
  | inr _ => exec_cmds (snd run) = [fetchCmd; "git branch --remote"]
  | inl _ =>
      exec_cmds (snd run) = [] \/ exec_cmds (snd run) = [fetchCmd]
      \/ exec_cmds (snd run) = [fetchCmd; "git branch --remote"]
  end.
Proof.
  intros live P N run fetchCmd. subst run.
  assert (F : forall o,
             o = Some [("depth", OStr "1"); ("no-tags", OBool true)] ->
             GitRepo.withOptions (JS.trim ("git fetch " +++ remote +++ " " +++ "")) o
             = fetchCmd).
  { intros o ->.
    change ("git fetch " +++ remote +++ " " +++ "")
      with (String "g" "it fetch " +++ remote +++ " ").
    rewrite trim_command_padded by auto.
    unfold GitRepo.withOptions. cbn [filter snd GitRepo.is_false negb map].
    change (GitRepo.render_option ("depth", OStr "1")) with "--depth 1".
    change (GitRepo.render_option ("no-tags", OBool true)) with "--no-tags".
    cbn [JS.join]. change ("--depth 1" +++ " " +++ "--no-tags")
      with "--depth 1 --no-tags".
    change (String.eqb "--depth 1 --no-tags" "") with false. cbv iota.
    subst fetchCmd. change (String "g" "it fetch ") with "git fetch ".
    rewrite append_assoc. reflexivity. }
  unfold GitRepo.getRemoteBranches, GitRepo.fetch. cbv beta iota zeta. cbn [as_opts].
  match goal with
  | |- context [bind ?m ?f h] => destruct (m h) as [r1 es1] eqn:E1
  end.
  destruct (unit_cmd_cases _ _ _ _ _ live E1) as [[-> X1] | (e & -> & X1)];
    erewrite F in X1 by reflexivity.
  - rewrite (bind_ok _ _ _ E1). unfold after. cbn [fst snd].
    destruct (GitRepo.execInRepo W this "git branch" (Some [("remote", OBool true)])
                (h ++ es1)) as [r2 es2] eqn:E2.
    destruct (execInRepo_cmds _ _ _ _ _ live E2) as [[X2 [e ->]] | X2];
      change (GitRepo.withOptions _ _) with "git branch --remote" in X2.
    + rewrite (bind_err _ _ _ E2). cbn [fst snd]. rewrite exec_cmds_app, X1, X2. auto.
    + destruct r2 as [e|out].
      * rewrite (bind_err _ _ _ E2). cbn [fst snd].
        rewrite exec_cmds_app, X1, X2. auto.
      * rewrite (bind_ok _ _ _ E2). unfold after. cbn [fst snd].
        rewrite app_nil_r, exec_cmds_app, X1, X2.
        destruct (map_throwing _ _); cbn [app]; auto.
  - rewrite (bind_err _ _ _ E1). cbn [fst snd]. destruct X1 as [-> | ->]; auto.
Qed.

Lemma getRemoteBranches_fetches_first_witness :
  exec_cmds
    (snd (GitRepo.getRemoteBranches (sample_world [] [] [])
            (GitRepo.new "/tmp/angular") "origin" []))
  = ["git fetch origin --depth 1 --no-tags"; "git branch --remote"].
Proof.
  exact (@getRemoteBranches_fetches_first (sample_world [] [] [])
           (GitRepo.new "/tmp/angular") "origin" [] eq_refl eq_refl
           ltac:(discriminate)).
Defined.

(** X22. A remote branch is deleted by pushing nothing to it: the one
    command is [git push <remote> :<branch>], whatever options were
    passed, and neither the current branch is read nor any option
    rendered. The names are free of white space. *)
Theorem deleteRemoteBranch_pushes_nothing (W : World) (this : GitRepo.t)
  (remote branch : string) (opts : option ICommnandOptions) (h : History) :
  GitRepo.destroyed this = false ->
  string_forall not_space branch = true -> branch <> "" ->
  let run := GitRepo.deleteRemoteBranch W this remote branch opts h in
  let cmd := "git push " +++ remote +++ " :" +++ branch in
  run = GitRepo.deleteRemoteBranch W this remote branch None h
  /\ match fst run with
     | inr _ => exec_cmds (snd run) = [cmd]
     | inl _ => exec_cmds (snd run) = [] \/ exec_cmds (snd run) = [cmd]
     end.
Proof.
  intros live P N run cmd. subst run. split; [reflexivity|].
  unfold GitRepo.deleteRemoteBranch, GitRepo.push.
  assert (R : @ret (string * string * option ICommnandOptions) ("", branch, None) h
              = (inr ("", branch, None), [])) by reflexivity.
  rewrite (bind_ok _ _ _ R). rewrite after_nil, app_nil_r.
  destruct (bind _ _ h) as [r es] eqn:E. cbn [fst snd].
  assert (C : GitRepo.withOptions
                (JS.trim ("git push " +++ remote +++ " " +++ "" +++ ":" +++ branch))
                None = cmd).
  { unfold GitRepo.withOptions.
    change ("git push " +++ remote +++ " " +++ "" +++ ":" +++ branch) with cmd.
    unfold JS.trim. change (JS.trimStart cmd) with cmd. subst cmd.
    rewrite <- !append_assoc. now apply trimEnd_app_plain. }
  destruct (unit_cmd_cases _ _ _ _ _ live E) as [[-> X] | (e & -> & X)];
    rewrite C in X; auto.
Qed.

Lemma deleteRemoteBranch_pushes_nothing_witness :
  exec_cmds
    (snd (GitRepo.deleteRemoteBranch (sample_world [] [] [])
            (GitRepo.new "/tmp/angular") "origin" "upgrade-cli-src--master--ccc3333"
            (Some [("force", OBool true)]) []))
  = ["git push origin :upgrade-cli-src--master--ccc3333"].
Proof.
  exact (proj2 (@deleteRemoteBranch_pushes_nothing (sample_world [] [] [])
                  (GitRepo.new "/tmp/angular") "origin"
                  "upgrade-cli-src--master--ccc3333"
                  (Some [("force", OBool true)]) [] eq_refl eq_refl
                  ltac:(discriminate))).
Defined.

(* ===================================================================== *)
(** ** The change of the tracked file *)
(* ===================================================================== *)












(* ===================================================================== *)
(** ** What is pushed *)
(* ===================================================================== *)

Lemma not_push_pushes_own (e : Event) : is_push e = false -> pushes_own e.
Proof.
  destruct e; try exact (fun _ => Logic.I). cbn. intros N V.
  rewrite V in N. discriminate.
Qed.

Lemma no_new_work_is_no_push (e : Event) : is_new_work e = false -> is_push e = false.
Proof.
  destruct e; try reflexivity. cbn. intros N.
  apply orb_false_iff in N. tauto.
Qed.

Lemma emits_no_push_own {A} (m : M A) :
  emits (fun e => negb (is_push e) = true) m -> emits pushes_own m.
Proof.
  apply emits_weaken. intros e N. apply not_push_pushes_own.
  now apply negb_true_iff.
Qed.

Lemma execInRepo_emits_cmd (P : Event -> Prop) (W : World) (this : GitRepo.t)
  (partialCmd : string) (opts : option ICommnandOptions) :
  (forall e, is_bookkeeping e = true -> P e) ->
  (forall r, P (EExec (GitRepo.withOptions (JS.trim partialCmd) opts) r)) ->
  emits P (GitRepo.execInRepo W this partialCmd opts).
Proof.
  intros B C.
  pose proof (@execInRepo_emits
                (fun e => is_bookkeeping e
                          || match e with
                             | EExec cmd _ =>
                                 String.eqb cmd
                                   (GitRepo.withOptions (JS.trim partialCmd) opts)
                             | _ => false
                             end)%bool
                W this partialCmd opts) as Q.
  eapply emits_weaken; [| apply Q].
  - intros e H. apply orb_true_iff in H. destruct H as [H | H]; [now apply B|].
    destruct e; try discriminate. apply String.eqb_eq in H. subst. apply C.
  - intros e H. now rewrite H.
  - intros r. cbn. now rewrite String.eqb_refl.
Qed.

Lemma currentBranch_no_push (W : World) (this : GitRepo.t) :
  emits (fun e => negb (is_push e) = true) (GitRepo.currentBranch W this).
Proof.
  unfold GitRepo.currentBranch.
  repeat emits_step; try reflexivity;
    try (unfold is_push; verb_of_execInRepo; reflexivity).
Qed.

Lemma push_current_pushes_own (W : World) (this : GitRepo.t) :
  emits pushes_own
    (GitRepo.push W this GitRepo.ORIGIN (AOpts [("force", OBool true)]) AUndef None).
Proof.
  intros h.
  rewrite (@push_reads_current_branch W this GitRepo.ORIGIN
             (AOpts [("force", OBool true)]) AUndef None h eq_refl).
  cbv zeta beta iota. cbn [as_opts].
  destruct (GitRepo.currentBranch W this h) as [[e|cur] es0] eqn:C.
  - exact (emits_run h (emits_no_push_own (currentBranch_no_push W this)) C).
  - apply after_emits.
    + exact (emits_run h (emits_no_push_own (currentBranch_no_push W this)) C).
    + apply emits_bind; [|intros ?; apply emits_ret].
      apply execInRepo_emits_cmd.
      * intros e B. apply not_push_pushes_own.
        destruct e; try reflexivity; discriminate.
      * intros r _. right. exists cur. reflexivity.
Qed.

Lemma checkAndUpgrade_submit_pushes_own (cfg : Config) (W : World)
  (localRepo : GitRepo.t) (branch currentSha latestSha : string)
  (openPrsPerBranch : JS.Map (list IPullRequest)) :
  emits pushes_own
    (Upgradelet.checkAndUpgrade_submit cfg W localRepo branch currentSha latestSha
       openPrsPerBranch).
Proof.
  unfold Upgradelet.checkAndUpgrade_submit. cbv zeta.
  apply emits_bind; [|intros _].
  { apply emits_no_push_own. unfold Upgradelet.createLocalBranch.
    unfold_git. unfold_calls.
    repeat emits_step; try reflexivity;
      try (unfold is_push; verb_of_execInRepo; reflexivity). }
  apply emits_bind; [|intros _].
  { apply emits_no_push_own. unfold Upgradelet.makeChanges. unfold_calls.
    repeat emits_step; reflexivity. }
  apply emits_bind; [|intros _].
  { unfold Upgradelet.commitAndPush.
    apply emits_bind; [apply emits_emit; exact Logic.I | intros _].
    apply emits_bind; [|intros _].
    { apply emits_no_push_own. unfold GitRepo.commit.
      repeat emits_step; try reflexivity;
        try (unfold is_push; verb_of_execInRepo; reflexivity). }
    apply emits_bind; [|intros _].
    { apply emits_no_push_own. unfold GitRepo.fetch. cbv beta iota zeta.
      repeat emits_step; try reflexivity;
        try (unfold is_push; verb_of_execInRepo; reflexivity). }
    apply push_current_pushes_own. }
  apply emits_no_push_own.
  unfold Upgradelet.submitPullRequest, Upgradelet.commentOnSupercededPrs,
    Upgradelet.ignoreError, GitRepo.destroy.
  unfold_calls.
  repeat emits_step; try reflexivity.
  all: try (match goal with H : In _ (map _ _) |- _ =>
              apply in_map_iff in H; destruct H as (? & <- & _) end;
            apply emits_call; intros; reflexivity).
Qed.

(** X24. Whatever a run of [checkAndUpgrade] pushes is its own: every
    [git push] it executes is either the deletion, on origin, of a branch
    whose name starts with [upgrade-cli-src], or the forced push of the
    current branch of the working copy to the branch of the same name on
    origin. No other branch is deleted or overwritten. *)
Theorem only_own_branches_are_pushed (cfg : Config) (W : World) (ob : option string)
  (h : History) :
  Forall pushes_own (snd (Upgradelet.checkAndUpgrade cfg W ob h)).
Proof.
  assert (Q : forall es,
             Forall (fun e => is_preparation e = true \/ is_error_handling e = true) es ->
             Forall pushes_own es).
  { intros es. apply Forall_impl. intros e [P | P];
      apply not_push_pushes_own, no_new_work_is_no_push.
    - now apply preparation_is_no_new_work.
    - now apply error_handling_is_no_new_work. }
  destruct (checkAndUpgrade_cases cfg W ob h)
    as [F | (res & localRepo & relevantBranches & m & pre & Hd & E)];
    [now apply Q|].
  rewrite E. apply after_emits.
  { apply Q. destruct (discovered_facts Hd) as (_ & _ & Fp).
    eapply Forall_impl; [| exact Fp]. auto. }
  destruct (Upgradelet.cleanupObsoleteBranches W localRepo relevantBranches
              (JS.map_keys m) (h ++ pre)) as [rc dels] eqn:Ec.
  rewrite reconcile_run with (1 := Ec).
  destruct (cleanup_run Hd Ec) as (Fd & _ & _).
  apply after_emits.
  { eapply Forall_impl; [| exact Fd].
    intros e [B | (b & r & Ib & ->)].
    - apply not_push_pushes_own, no_new_work_is_no_push.
      now apply bookkeeping_is_no_new_work.
    - intros _. left. exists b. split; [|reflexivity].
      unfold branchesWithoutOpenPrs in Ib. apply filter_In in Ib.
      destruct Ib as [Ib _].
      destruct Hd as (es1 & es2 & branches & es3 & es4 & _ & _ & _ & _ & R & _).
      rewrite R in Ib. apply filter_In in Ib. tauto. }
  destruct rc as [e|[]].
  - apply Q. eapply Forall_impl; [| apply checkAndUpgrade_catch_emits]. auto.
  - apply emits_try_catch.
    + unfold Upgradelet.checkAndUpgrade_checkExisting. cbv zeta.
      destruct (JS.includes _ _).
      * apply emits_emit. exact Logic.I.
      * apply checkAndUpgrade_submit_pushes_own.
    + intros e h'. apply Q.
      eapply Forall_impl; [| apply checkAndUpgrade_catch_emits]. auto.
Qed.

(* ===================================================================== *)
(** ** The debug log of a command *)
(* ===================================================================== *)

Lemma filter_debug_outputLog (out : string) :
  filter is_debug (outputLog out) = outputLog out.
Proof.
  unfold outputLog. apply filter_all. apply Forall_forall.
  intros e I. apply in_map_iff in I. now destruct I as (? & <- & _).
Qed.

(** X25. The command line, trimmed and with its options, is written to
    the debug log before the command is executed, so a command that was
    executed is in the log even when it failed. When the command
    succeeds its output follows in the log, line by line, without the
    blank lines; nothing else is logged. *)
Theorem execInRepo_logs_command_and_output (W : World) (this : GitRepo.t)
  (partialCmd : string) (opts : option ICommnandOptions) (h : History) :
  GitRepo.destroyed this = false ->
  let cmd := GitRepo.withOptions (JS.trim partialCmd) opts in
  let run := GitRepo.execInRepo W this partialCmd opts h in
  (forall c x,
      In (EExec c x) (snd run) ->
      c = cmd
      /\ exists before after,
           snd run = before ++ ELogDebug ("GIT: " +++ cmd) :: EExec c x :: after)
  /\ (forall result,
         fst run = inr result ->
         filter is_debug (snd run)
         = ELogDebug ("GIT: " +++ cmd) :: outputLog (stdout result))
  /\ (forall e,
         fst run = inl e ->
         filter is_debug (snd run) = []
         \/ filter is_debug (snd run) = [ELogDebug ("GIT: " +++ cmd)]
         \/ exists result,
              filter is_debug (snd run)
              = ELogDebug ("GIT: " +++ cmd) :: outputLog (stdout result)).
Proof.
  intros live cmd run. subst run.
  destruct (execInRepo_events W this partialCmd opts h live)
    as (entered & inside & left & R & I).
  cbv zeta in R, I. fold cmd in R, I.
  set (ran := sh_exec W _ cmd) in R, I. clearbody ran.
  rewrite R. cbn [fst snd].
  assert (D : filter is_debug
                (EPushd "-q" (GitRepo.directory this) entered
                 :: inside ++ [EPopd "-q" left])
              = filter is_debug inside).
  { cbn [filter is_debug]. rewrite filter_app. cbn [filter is_debug].
    now rewrite app_nil_r. }
  rewrite D. clear D.
  destruct entered as [e0|[]]; subst inside.
  - split; [|split].
    + intros c x [X | [X | []]]; discriminate.
    + intros result F. destruct left as [?|[]]; discriminate.
    + intros e _. now left.
  - fold (outputLog) in *.
    assert (D : filter is_debug
                  (ELogDebug ("GIT: " +++ cmd) :: EExec cmd ran
                   :: match ran with
                      | inl _ => []
                      | inr result => outputLog (stdout result)
                      end)
                = ELogDebug ("GIT: " +++ cmd)
                  :: match ran with
                     | inl _ => []
                     | inr result => outputLog (stdout result)
                     end).
    { cbn [filter is_debug]. f_equal.
      destruct ran; [reflexivity | apply filter_debug_outputLog]. }
    change (map (fun line => ELogDebug ("GIT: " +++ line))
              (filter (fun line => negb (String.eqb (JS.trim line) ""))
                 (JS.split_lf (stdout ?r)))) with (outputLog (stdout r)).
    split; [|split].
    + intros c x X. cbn [app] in X.
      destruct X as [X | [X | [X | X]]]; try discriminate.
      * injection X as <- <-. split; [reflexivity|].
        exists [EPushd "-q" (GitRepo.directory this) (inr tt)]. eexists.
        reflexivity.
      * exfalso. apply in_app_iff in X. destruct X as [X | [X | []]];
          [|discriminate].
        destruct ran; [destruct X|].
        unfold outputLog in X. apply in_map_iff in X.
        destruct X as (? & ? & _). discriminate.
    + intros result F. rewrite D. destruct left as [?|[]]; [discriminate|].
      now rewrite F.
    + intros e F. rewrite D. destruct ran as [e'|result].
      * right. now left.
      * right. right. now exists result.
Qed.

Lemma execInRepo_logs_command_and_output_witness :
  let W := sample_world [] [] [] in
  let run := GitRepo.execInRepo W (GitRepo.new "/tmp/angular")
               " git rev-parse --abbrev-ref HEAD " None [] in
  fst run = inr (mkExec ("upgrade-cli-src--master--bbb222233" +++ JS.LF) "" 0)
  /\ filter is_debug (snd run)
     = [ELogDebug "GIT: git rev-parse --abbrev-ref HEAD";
        ELogDebug "GIT: upgrade-cli-src--master--bbb222233"].
Proof.
  cbv zeta.
  assert (F : fst (GitRepo.execInRepo (sample_world [] [] [])
                     (GitRepo.new "/tmp/angular")
                     " git rev-parse --abbrev-ref HEAD " None [])
              = inr (mkExec ("upgrade-cli-src--master--bbb222233" +++ JS.LF) "" 0))
    by (vm_compute; reflexivity).
  split; [exact F|].
  exact (proj1 (proj2 (@execInRepo_logs_command_and_output (sample_world [] [] [])
                         (GitRepo.new "/tmp/angular")
                         " git rev-parse --abbrev-ref HEAD " None [] eq_refl))
           _ F).
Defined.
